(** * Energy-based voice activity detection ([vad.py])

    A shallow embedding of the two analysers of [vad.py], [MelVad] and
    [SigVad], and of the interval scan they share, together with the
    properties of the endpoint detection.

    Number model.  Frame and sample indices are Python integers, modelled
    as [Z].  Decibel and power values are float64 arrays; they are modelled
    as real numbers ([R]), so rounding is not part of the model.  Times in
    seconds are quotients of integers and decimal constants; they are
    modelled as rationals ([Q]), which keeps the interval logic executable.
    [SigVad] computes them exactly; [SigVad64] rounds every operation to
    the nearest binary64 number, as Python does, and is the model of the
    minimum-duration tests, which rounding can decide.

    Exceptions are modelled by the [result] type: a Python [raise] or a
    failed [assert] is [Raise e]. *)

From Stdlib Require Import ZArith QArith Qround Qpower Reals.
From Stdlib Require Import Psatz Lia List Bool String Sorted.
Import ListNotations.

Local Open Scope Z_scope.

(** ** Exceptions *)

Inductive exn : Type :=
| AssertionError
| TypeError
| ValueError
| IndexError
| ZeroDivisionError
| Exception (msg : string).

Inductive result (A : Type) : Type :=
| Ok (a : A)
| Raise (e : exn).

Arguments Ok {A} a.
Arguments Raise {A} e.

Definition bind {A B : Type} (m : result A) (k : A -> result B) : result B :=
  match m with
  | Ok a => k a
  | Raise e => Raise e
  end.

Notation "x <- m ;; k" := (bind m (fun x => k))
  (at level 61, m at next level, right associativity).

Definition assert (b : bool) : result unit :=
  if b then Ok tt else Raise AssertionError.

Definition raises {A : Type} (m : result A) : Prop :=
  exists e, m = Raise e.

(** ** The part of numpy the index scan uses *)

Module Np.

Local Open Scope Z_scope.

(** [np.where(mask)[0]]: the indices at which a boolean array is true,
    in increasing order. *)
Fixpoint where_from (i : Z) (mask : list bool) : list Z :=
  match mask with
  | [] => []
  | b :: mask' =>
      if b then i :: where_from (i + 1) mask' else where_from (i + 1) mask'
  end.

Definition where_ (mask : list bool) : list Z := where_from 0 mask.

(** [x in a] for an integer array [a]. *)
Definition contains (x : Z) (a : list Z) : bool := existsb (Z.eqb x) a.

(** [range(lo, hi)]. *)
Fixpoint range_from (lo : Z) (count : nat) : list Z :=
  match count with
  | O => []
  | S count' => lo :: range_from (lo + 1) count'
  end.

Definition range (lo hi : Z) : list Z := range_from lo (Z.to_nat (hi - lo)).

(** [len(a)]. *)
Definition len {A : Type} (a : list A) : Z := Z.of_nat (List.length a).

Local Open Scope R_scope.

(** [np.max(a)]; an empty array has no maximum. *)
Definition max (a : list R) : result R :=
  match a with
  | [] => Raise ValueError
  | x :: a' => Ok (fold_left Rmax a' x)
  end.

(** [np.clip(x, lo, hi)], that is [minimum(hi, maximum(x, lo))]. *)
Definition clip (x lo hi : R) : R := Rmin hi (Rmax x lo).

(** [np.sum] of one row. *)
Definition sum (row : list R) : R := fold_right Rplus 0 row.

(** Elementwise comparisons of a float with a threshold. *)
Definition gt (a b : R) : bool := if Rlt_dec b a then true else false.
Definition lt (a b : R) : bool := if Rlt_dec a b then true else false.

(** A two-dimensional float array: [bands] is [np.shape(a)[-1]] and
    every row of [frames] has that length. *)
Record matrix : Type := mk_matrix {
  bands : Z;
  frames : list (list R)
}.

Definition well_shaped (a : matrix) : Prop :=
  Forall (fun row => Z.of_nat (List.length row) = bands a) (frames a).

(** An array of zeros: digital silence, or the energy of it. *)
Definition all_zero (a : list R) : Prop := Forall (eq 0) a.

(** Broadcasting a scalar operation over a matrix. *)
Definition broadcast (f : R -> R) (a : list (list R)) : list (list R) :=
  map (map f) a.

End Np.

(** ** The interval scan (vad.py lines 71-78 and 145-152)

    Both classes run the same loop over [x] in [range(-1, len(db))]; they
    differ only in how a frame index is converted when it is stored
    ([int(x)] in [MelVad], [int(librosa.frames_to_samples(x, hop))] in
    [SigVad]).  [start] is [None] until the first run begins and is not
    reset when a run ends. *)

Module Scan.

Local Open Scope Z_scope.

Record state : Type := mk_state {
  start : option Z;
  end_ : option Z;
  out : list (option Z * Z)
}.

Definition init : state := mk_state None None [].

Definition step (conv : Z -> Z) (sil_index : list Z) (st : state) (x : Z)
  : state :=
  let st1 :=
    if negb (Np.contains x sil_index) && Np.contains (x + 1) sil_index
    then mk_state (Some (conv (x + 1))) (end_ st) (out st)
    else st in
  if Np.contains x sil_index && negb (Np.contains (x + 1) sil_index)
  then mk_state (start st1) (Some (conv x)) (out st1 ++ [(start st1, conv x)])
  else st1.

Definition endpoints (conv : Z -> Z) (n : Z) (sil_index : list Z)
  : list (option Z * Z) :=
  out (fold_left (step conv sil_index) (Np.range (-1) n) init).

(** [[(_s, _e) for _s, _e in l if _e - _s > 1]]; subtracting [None]
    raises [TypeError]. *)
Fixpoint drop_short (l : list (option Z * Z)) : result (list (Z * Z)) :=
  match l with
  | [] => Ok []
  | (None, _) :: _ => Raise TypeError
  | (Some s, e) :: l' =>
      l'' <- drop_short l' ;;
      Ok (if 1 <? e - s then (s, e) :: l'' else l'')
  end.

End Scan.

(** ** Maximal runs of a mask: the reference the scan is compared with *)

Module Runs.

Local Open Scope Z_scope.

(** The mask read at an integer position, false outside [0 .. N-1]. *)
Definition getb (mask : list bool) (k : Z) : bool :=
  (0 <=? k) && nth (Z.to_nat k) mask false.

(** [(s, e)] is a maximal run of true values: every index from [s] to
    [e] inclusive is true, and the run can be extended on neither side. *)
Definition maximal_run (mask : list bool) (s e : Z) : Prop :=
  0 <= s /\ s <= e /\ e < Np.len mask /\
  (forall k, s <= k <= e -> getb mask k = true) /\
  getb mask (s - 1) = false /\
  getb mask (e + 1) = false.

(** The runs of [mask], whose first element has index [i]; [cur] is the
    start of the run the preceding element belongs to, if any. *)
Fixpoint runs_from (i : Z) (cur : option Z) (mask : list bool)
  : list (Z * Z) :=
  match mask with
  | [] =>
      match cur with
      | Some s => [(s, i - 1)]
      | None => []
      end
  | true :: mask' =>
      runs_from (i + 1) (Some (match cur with Some s => s | None => i end))
        mask'
  | false :: mask' =>
      match cur with
      | Some s => (s, i - 1) :: runs_from (i + 1) None mask'
      | None => runs_from (i + 1) None mask'
      end
  end.

Definition maximal_runs (mask : list bool) : list (Z * Z) :=
  runs_from 0 None mask.

(** Consecutive runs are separated by at least one false element. *)
Fixpoint separated_from (lo : Z) (l : list (Z * Z)) : Prop :=
  match l with
  | [] => True
  | (s, e) :: l' => lo <= s /\ s <= e /\ separated_from (e + 2) l'
  end.

(** The test [_e - _s > 1] of the final comprehension. *)
Definition long_enough (r : Z * Z) : bool := 1 <? snd r - fst r.

(** A run with both indices multiplied by the hop length. *)
Definition in_samples (hop_length : Z) (r : Z * Z) : Z * Z :=
  (fst r * hop_length, snd r * hop_length).

(** A run as the scan stores it, with its indices converted. *)
Definition emitted (conv : Z -> Z) (r : Z * Z) : option Z * Z :=
  (Some (conv (fst r)), conv (snd r)).

(** The running state of the loop against [runs_from]: [cur] is the
    run the element before position [i] belongs to. *)
Definition tracks (conv : Z -> Z) (prev : bool) (cur : option Z)
  (st : Scan.state) : Prop :=
  match cur with
  | Some s => prev = true /\ Scan.start st = Some (conv s)
  | None => prev = false
  end.

(** One iteration at [x = i - 1], where [b] is the mask at [i]. *)
Definition advance (i : Z) (cur : option Z) (b : bool) : option Z :=
  if b then Some (match cur with Some s => s | None => i end) else None.

Definition closes (i : Z) (cur : option Z) (b : bool) : list (Z * Z) :=
  match cur, b with
  | Some s, false => [(s, i - 1)]
  | _, _ => []
  end.

(** The mask whose first element has index [i], read at position [k]. *)
Definition at_ (i : Z) (mask : list bool) (k : Z) : bool :=
  getb mask (k - i).

Definition all_true (i : Z) (mask : list bool) (lo hi : Z) : Prop :=
  forall k, lo <= k <= hi -> at_ i mask k = true.

(** [(s, e)] is a run of the mask that starts at index [i], given the
    run [cur] that is open when the mask begins. *)
Definition run_in (i : Z) (cur : option Z) (mask : list bool) (s e : Z)
  : Prop :=
  e < i + Np.len mask /\ at_ i mask (e + 1) = false /\
  ((cur = Some s /\ i - 1 <= e /\ all_true i mask i e)
   \/ (i <= s /\ s <= e /\ all_true i mask s e /\
       (s = i -> cur = None) /\ (i < s -> at_ i mask (s - 1) = false))).

End Runs.

(** ** The librosa functions the analysers call

    librosa is an external library, not part of [vad.py].  The analysers
    below take the energy extractor [librosa.feature.rms] and the decoder
    [librosa.load] as parameters, so what is proved about them holds for
    any extractor; the definitions here are used to run them on concrete
    waveforms. *)

Module Librosa.

Local Open Scope R_scope.

Definition amin : R := 1e-10.

Definition log10 (x : R) : R := ln x / ln 10.

(** The [ref] argument of [power_to_db]: a callable applied to the
    input, or a number whose absolute value is used. *)
Inductive reference : Type :=
| RefCallable (f : list R -> result R)
| RefValue (r : R).

(** Modelled from the spec: [powerToDb] (section 4.1), that is
    [librosa.power_to_db(S, ref=ref, top_db=None)]:
    [10 * log10(max(value, epsilon) / reference)] with no floor on the
    result.  As in librosa the quotient is computed as a difference of
    logarithms in which the reference is floored by [amin] too, so that a
    zero reference (digital silence under [ref=np.max]) is at 0 dB. *)
Definition power_to_db (S : list R) (ref : reference) : result (list R) :=
  ref_value <- match ref with
               | RefCallable f => f S
               | RefValue r => Ok (Rabs r)
               end ;;
  Ok (map (fun v => 10 * log10 (Rmax amin v)
                    - 10 * log10 (Rmax amin ref_value)) S).

Local Open Scope Z_scope.

(** Modelled from the spec: [sample = frame_index * hopLength]
    (section 4.3), that is
    [librosa.frames_to_samples(frames, hop_length)]. *)
Definition frames_to_samples (frames hop_length : Z) : Z :=
  frames * hop_length.

(** Index read by [np.pad(y, pad, mode="reflect")] at position [i] of
    the unpadded coordinates. *)
Definition reflect_index (n i : Z) : Z :=
  if n <=? 1 then 0
  else let p := 2 * (n - 1) in
       let j := i mod p in
       if j <? n then j else p - j.

Definition pad_reflect (pad : Z) (y : list R) : list R :=
  map (fun i => nth (Z.to_nat (reflect_index (Np.len y) i)) y 0%R)
      (Np.range (- pad) (Np.len y + pad)).

Definition mean_square (frame : list R) : R :=
  (Np.sum (map (fun v => Rabs v ^ 2) frame) / IZR (Np.len frame))%R.

(** Modelled from the spec: the short-time energy of section 4.3,
    root-mean-square over overlapping windows of [frame_length] samples
    with stride [hop_length], that is the single row of
    [librosa.feature.rms(y, frame_length, hop_length)] with its centred,
    reflect-padded frames.  It rejects an empty signal. *)
Definition rms (y : list R) (frame_length hop_length : Z)
  : result (list R) :=
  if (Np.len y =? 0) || (frame_length <? 1) || (hop_length <? 1)
  then Raise ValueError
  else
    let padded := pad_reflect (frame_length / 2) y in
    if Np.len padded <? frame_length then Raise ValueError
    else
      let n_frames := 1 + (Np.len padded - frame_length) / hop_length in
      Ok (map (fun t =>
                 sqrt (mean_square
                         (firstn (Z.to_nat frame_length)
                            (skipn (Z.to_nat (t * hop_length)) padded))))
              (Np.range 0 n_frames)).

(** [librosa.load(path, sr)] where no audio file can be read; the
    examples below pass the signal itself. *)
Definition load_no_file (path : string) (sr : Z) : result (list R * Z) :=
  Raise (Exception "file not found").

End Librosa.

(** ** class MelVad *)

Module MelVad.

Local Open Scope R_scope.

Record t : Type := mk {
  global_ref_db : option R;
  top_db : R
}.

(** [__init__(self, global_ref_db=None, top_db=25)]. *)
Definition init_default : t := mk None 25.

(** The same analyser constructed with another [top_db]. *)
Definition with_top_db (self : t) (top : R) : t :=
  mk (global_ref_db self) top.

(** Truth value of [self._global_ref_db]: [None] and [0] are false. *)
Definition truthy (g : option R) : bool :=
  match g with
  | None => false
  | Some r => if Req_dec_T r 0 then false else true
  end.

(** [_get_mel_power(mels)], lines 83-91. *)
Definition _get_mel_power (mels : Np.matrix) : result (list R) :=
  _ <- assert (Np.bands mels =? 80)%Z ;;
  let ref_level_db := 20 in
  let min_level_db := -100 in
  let mels := Np.broadcast (fun x => Np.clip x 0 1) (Np.frames mels) in
  let mels := Np.broadcast (fun x => x * (- min_level_db)) mels in
  let mels := Np.broadcast (fun x => x + min_level_db) mels in
  let mel_amp := Np.broadcast (fun x => x + ref_level_db) mels in
  let mel_amp := Np.broadcast (fun x => x * 0.05) mel_amp in
  let mel_amp := Np.broadcast (fun x => Rpower 10 x) mel_amp in
  Ok (map Np.sum mel_amp).

(** The statements both methods start with (lines 32-40 and 59-68):
    the two assertions, the power, the reference and the decibel
    profile. *)
Definition mel_db (self : t) (mels : Np.matrix) (using_global_ref : bool)
  : result (list R) :=
  _ <- assert (truthy (global_ref_db self) || negb using_global_ref) ;;
  _ <- assert (Np.bands mels =? 80)%Z ;;
  mel_amp <- _get_mel_power mels ;;
  ref <- (if using_global_ref
          then match global_ref_db self with
               | Some r => Ok r
               | None => Raise TypeError
               end
          else Np.max mel_amp) ;;
  Librosa.power_to_db mel_amp (Librosa.RefValue ref).

(** [get_vad_label(self, mels, using_global_ref=False)]. *)
Definition get_vad_label (self : t) (mels : Np.matrix)
  (using_global_ref : bool) : result bool :=
  mel_db <- mel_db self mels using_global_ref ;;
  match mel_db with
  | [] => Raise IndexError
  | d :: _ => Ok (Np.gt d (- top_db self))
  end.

(** The mask [mel_db > -self._top_db] of line 69. *)
Definition nosil_mask (self : t) (mel_db : list R) : list bool :=
  map (fun d => Np.gt d (- top_db self)) mel_db.

(** [get_nosil_endpoints(self, mels, using_global_ref=False)]. *)
Definition get_nosil_endpoints (self : t) (mels : Np.matrix)
  (using_global_ref : bool) : result (list (Z * Z)) :=
  mel_db <- mel_db self mels using_global_ref ;;
  let sil_index := Np.where_ (nosil_mask self mel_db) in
  let nosil_duration :=
    Scan.endpoints (fun x => x) (Np.len mel_db) sil_index in
  Scan.drop_short nosil_duration.

(** The feature-to-power conversion as the specification words it:
    clip, rescale with [minLevelDb = -100], take the amplitude with
    [refLevelDb = 20], sum over the bands of each frame. *)
Definition feature_to_power_reference (features : list (list R)) : list R :=
  let minLevelDb := -100 in
  let refLevelDb := 20 in
  map (fun frame =>
         Np.sum (map (fun x =>
                        let clipped :=
                          Np.clip x 0 1 * (- minLevelDb) + minLevelDb in
                        Rpower 10 ((clipped + refLevelDb) * 0.05))
                     frame))
      features.

End MelVad.

(** ** class SigVad *)

Module SigVad.

Record t : Type := mk {
  top_db : R;
  frame_length : Z;
  hop_length : Z;
  ref : Librosa.reference
}.

(** [__init__(self, top_db=25, frame_length=1024, hop_length=256,
    ref=np.max)]. *)
Definition init_default : t :=
  mk 25%R 1024%Z 256%Z (Librosa.RefCallable Np.max).

(** The same analyser constructed with another [top_db]. *)
Definition with_top_db (self : t) (top : R) : t :=
  mk top (frame_length self) (hop_length self) (ref self).

(** Comparison [a > b] of two times. *)
Definition gt (a b : Q) : bool := negb (Qle_bool a b).

(** A time interval lasts [snd i - fst i] seconds. *)
Definition duration (i : Q * Q) : Q := (snd i - fst i)%Q.

Section Externals.

(** [librosa.feature.rms(y, frame_length, hop_length)] and
    [librosa.load(path, sr)]. *)
Variable rms : list R -> Z -> Z -> result (list R).
Variable load : string -> Z -> result (list R * Z).

(** Lines 135-137: the decibel profile of the squared short-time
    energy, one value per frame. *)
Definition signal_db (self : t) (y : list R) : result (list R) :=
  energy <- rms y (frame_length self) (hop_length self) ;;
  let mse := map (fun r => (r ^ 2)%R) energy in
  Librosa.power_to_db mse (ref self).

(** Lines 138-143: the mask the requested direction selects. *)
Definition sil_mask (self : t) (signal_db : list R) (sil_type : string)
  : result (list bool) :=
  if String.eqb sil_type "sil"
  then Ok (map (fun d => Np.lt d (- top_db self)%R) signal_db)
  else if String.eqb sil_type "nosil"
  then Ok (map (fun d => Np.gt d (- top_db self)%R) signal_db)
  else Raise (Exception "Error for sil type").

(** [_get_sil_endpoints(self, y, sil_type="sil")].  [mse.squeeze()]
    turns a single frame into a zero-dimensional array, on which
    [len] raises. *)
Definition _get_sil_endpoints (self : t) (y : list R) (sil_type : string)
  : result (list (Z * Z)) :=
  signal_db <- signal_db self y ;;
  mask <- sil_mask self signal_db sil_type ;;
  _ <- (if (Np.len signal_db =? 1)%Z then Raise TypeError else Ok tt) ;;
  let sil_index := Np.where_ mask in
  let sil_endpoints :=
    Scan.endpoints
      (fun x => Librosa.frames_to_samples x (hop_length self))
      (Np.len signal_db) sil_index in
  Scan.drop_short sil_endpoints.

(** [(s / sr, e / sr)]. *)
Definition to_seconds (sr : Z) (se : Z * Z) : Q * Q :=
  (inject_Z (fst se) / inject_Z sr, inject_Z (snd se) / inject_Z sr)%Q.

(** Lines 178-179: silence intervals in seconds, those longer than
    [min_sil_dur] only. *)
Definition sil_seconds (sil_data : list (Z * Z)) (sr : Z) (min_sil_dur : Q)
  : list (Q * Q) :=
  map (to_seconds sr)
      (filter (fun se => gt (inject_Z (snd se - fst se))
                            (inject_Z sr * min_sil_dur)%Q)
              sil_data).

(** The loop of lines 192-193. *)
Definition between_step (sil_data : list (Q * Q))
  (acc : result (list (Q * Q))) (idx : Z) : result (list (Q * Q)) :=
  nosil_data <- acc ;;
  match nth_error sil_data (Z.to_nat idx),
        nth_error sil_data (Z.to_nat (idx + 1)) with
  | Some a, Some b => Ok (nosil_data ++ [(snd a, fst b)])
  | _, _ => Raise IndexError
  end.

(** [_sil_to_nosil(self, sil_data, dur)]. *)
Definition _sil_to_nosil (sil_data : list (Q * Q)) (dur : Q)
  : result (list (Q * Q)) :=
  match nth_error sil_data 0, last (map Some sil_data) None with
  | Some first, Some final =>
      let nosil_data :=
        if gt (fst first) 0.001 then [(0%Q, fst first)] else [] in
      nosil_data <-
        fold_left (between_step sil_data)
          (Np.range 0 (Np.len sil_data - 1)) (Ok nosil_data) ;;
      Ok (if gt (dur - snd final) 0.001
          then nosil_data ++ [(snd final, dur)]
          else nosil_data)
  | _, _ => Raise IndexError
  end.

(** Lines 171-176: the signal, its sample rate and its duration. *)
Definition resolve (wav_path : option string) (signal : option (list R))
  (sr : option Z) : result (list R * Z) :=
  match wav_path with
  | Some path =>
      if String.eqb path "" then
        match signal, sr with
        | Some y, Some r => Ok (y, r)
        | _, _ => Raise TypeError
        end
      else load path 16000%Z
  | None =>
      match signal, sr with
      | Some y, Some r => Ok (y, r)
      | _, _ => Raise TypeError
      end
  end.

(** [get_speech_endpoint(self, wav_path=None, signal=None, sr=None,
    min_sil_dur=0.75, min_nosil_dur=0.40)]. *)
Definition get_speech_endpoint (self : t) (wav_path : option string)
  (signal : option (list R)) (sr : option Z)
  (min_sil_dur min_nosil_dur : Q) : result (list (Q * Q)) :=
  input <- resolve wav_path signal sr ;;
  let signal := fst input in
  let sr := snd input in
  if (sr =? 0)%Z then Raise ZeroDivisionError
  else
    let dur := (inject_Z (Np.len signal) / inject_Z sr)%Q in
    sil_data <- _get_sil_endpoints self signal "sil" ;;
    let sil_data := sil_seconds sil_data sr min_sil_dur in
    if (Np.len sil_data =? 0)%Z then Ok [(0%Q, dur)]
    else
      nosil_data <- _sil_to_nosil sil_data dur ;;
      Ok (filter (fun se => gt (snd se - fst se)%Q min_nosil_dur)
                 nosil_data).

End Externals.

(** The complement of a list of silence intervals over [[0, dur]] as
    the specification words it. *)
Fixpoint between (sil : list (Q * Q)) : list (Q * Q) :=
  match sil with
  | a :: ((b :: _) as sil') => (snd a, fst b) :: between sil'
  | _ => []
  end.

(** The speech intervals after the leading one. *)
Definition later_part (sil : list (Q * Q)) (d : Q * Q) (dur : Q)
  : list (Q * Q) :=
  between sil
  ++ (if gt (dur - snd (last sil d)) 0.001
      then [(snd (last sil d), dur)] else []).

Definition complement_reference (sil : list (Q * Q)) (dur : Q)
  : list (Q * Q) :=
  match sil with
  | [] => []
  | first :: _ =>
      let final := last sil first in
      (if gt (fst first) 0.001 then [(0%Q, fst first)] else [])
      ++ between sil
      ++ (if gt (dur - snd final) 0.001 then [(snd final, dur)] else [])
  end.

End SigVad.

(** ** Interval lists *)

Module Intervals.

Section Order.

Variable T : Type.
Variables lt le : T -> T -> Prop.

(** Ordered by start, each interval non-degenerate, and no interval
    ends after the next one starts. *)
Definition ordered (l : list (T * T)) : Prop :=
  (forall i a, nth_error l i = Some a -> lt (fst a) (snd a)) /\
  (forall i a b,
      nth_error l i = Some a -> nth_error l (S i) = Some b ->
      le (snd a) (fst b)) /\
  (forall i j a b,
      (i < j)%nat -> nth_error l i = Some a -> nth_error l j = Some b ->
      lt (fst a) (fst b)).

(** The same property by recursion on the list, with the relation
    [gap] between the end of an interval and the start of every later
    one. *)
Fixpoint chain (gap : T -> T -> Prop) (l : list (T * T)) : Prop :=
  match l with
  | [] => True
  | a :: l' =>
      lt (fst a) (snd a) /\
      Forall (fun b => gap (snd a) (fst b)) l' /\
      chain gap l'
  end.

End Order.

Arguments ordered {T} lt le l.
Arguments chain {T} lt gap l.

End Intervals.

(** ** Frames against the threshold, and measures of interval lists *)

Module Frames.

(** Frame [k] of a decibel profile exists and is above [-top_db]
    (speech), respectively below it (silence). *)
Definition above (top_db : R) (db : list R) (k : Z) : Prop :=
  exists d : R,
    0 <= k /\ nth_error db (Z.to_nat k) = Some d /\ (- top_db < d)%R.

Definition below (top_db : R) (db : list R) (k : Z) : Prop :=
  exists d : R,
    0 <= k /\ nth_error db (Z.to_nat k) = Some d /\ (d < - top_db)%R.

End Frames.

Module Measures.

Local Open Scope Q_scope.

(** The summed duration of a list of intervals. *)
Definition total (l : list (Q * Q)) : Q :=
  fold_right (fun i acc => (snd i - fst i) + acc) 0 l.

(** The time at the start and at the end of the clip that
    [_sil_to_nosil] gives neither to silence nor to speech. *)
Definition lead_gap (first : Q * Q) : Q :=
  if SigVad.gt (fst first) 0.001 then 0 else fst first.

Definition trail_gap (final : Q * Q) (dur : Q) : Q :=
  if SigVad.gt (dur - snd final) 0.001 then 0 else dur - snd final.

(** Two closed intervals share no point. *)
Definition apart (a b : Q * Q) : Prop := snd a < fst b \/ snd b < fst a.

(** Two intervals share at most an end point. *)
Definition touching_at_most (a b : Q * Q) : Prop :=
  snd a <= fst b \/ snd b <= fst a.

End Measures.

Module Online.

(** Frame [k] of [mels] exists, and [get_vad_label] called with the
    global reference on that frame alone, [mels[k:k+1]], returns [b]. *)
Definition label (self : MelVad.t) (mels : Np.matrix) (k : Z) (b : bool)
  : Prop :=
  exists row : list R,
    0 <= k /\ nth_error (Np.frames mels) (Z.to_nat k) = Some row
    /\ MelVad.get_vad_label self (Np.mk_matrix (Np.bands mels) [row]) true
       = Ok b.

End Online.

(** ** Python's float arithmetic

    The tests on durations in [get_speech_endpoint] and [_sil_to_nosil]
    compare rounded values.  [Float64.round] is rounding to the nearest
    binary64 number, a tie going to the even significand, for values in
    the normal range (no overflow, no subnormal numbers): the value is
    scaled by the power of two of its binade to an integer significand of
    53 bits. *)

Module Float64.

Local Open Scope Q_scope.

(** The integer nearest to [q], a tie going to the even one. *)
Definition rint (q : Q) : Z :=
  let f := Qfloor q in
  match Qcompare (q - inject_Z f) (1 # 2) with
  | Lt => f
  | Gt => (f + 1)%Z
  | Eq => if Z.even f then f else (f + 1)%Z
  end.

(** The exponent [e] of a positive [x]: [2 ^ e <= x < 2 ^ (e + 1)]. *)
Definition exponent (x : Q) : Z :=
  if Qle_bool 1 x then Z.log2 (Qfloor x)
  else (- Z.log2_up (Qceiling (/ x)))%Z.

(** [x] rounded to a multiple of [2 ^ (e - 52)]. *)
Definition grid (e : Z) (x : Q) : Q :=
  inject_Z (rint (x / 2 ^ (e - 52))) * 2 ^ (e - 52).

Definition round_pos (x : Q) : Q := grid (exponent x) x.

Definition round (x : Q) : Q :=
  match Qcompare x 0 with
  | Eq => 0
  | Gt => Qred (round_pos x)
  | Lt => Qred (- round_pos (- x))
  end.

(** [x] is a float: rounding leaves it unchanged. *)
Definition representable (x : Q) : Prop := round x == x.

(** [a / b], [a * b] and [a - b] on floats. *)
Definition div (a b : Q) : Q := round (a / b).
Definition mul (a b : Q) : Q := round (a * b).
Definition sub (a b : Q) : Q := round (a - b).

End Float64.

(** ** [get_speech_endpoint] in float arithmetic

    Lines 176-197 with the rounding of every float operation written
    out; the literal [0.001] is the float nearest to it, and
    [min_sil_dur] and [min_nosil_dur] are the values passed.  [SigVad]
    above reads the same lines over exact rationals, which is what the
    order of the returned intervals depends on; the minimum-duration
    tests depend on the rounding as well. *)

Module SigVad64.

Local Open Scope Q_scope.

(** [(s / sr, e / sr)]: a quotient of two integers, rounded. *)
Definition to_seconds (sr : Z) (se : Z * Z) : Q * Q :=
  (Float64.div (inject_Z (fst se)) (inject_Z sr),
   Float64.div (inject_Z (snd se)) (inject_Z sr)).

(** The runs that pass [e - s > sr * min_sil_dur] (line 179): the
    difference of two integers is exact, the product is rounded. *)
Definition kept (sil_data : list (Z * Z)) (sr : Z) (min_sil_dur : Q)
  : list (Z * Z) :=
  filter (fun se => SigVad.gt (inject_Z (snd se - fst se))
                      (Float64.mul (inject_Z sr) min_sil_dur))
         sil_data.

(** Lines 178-179. *)
Definition sil_seconds (sil_data : list (Z * Z)) (sr : Z) (min_sil_dur : Q)
  : list (Q * Q) :=
  map (to_seconds sr) (kept sil_data sr min_sil_dur).

(** [_sil_to_nosil(self, sil_data, dur)]. *)
Definition _sil_to_nosil (sil_data : list (Q * Q)) (dur : Q)
  : result (list (Q * Q)) :=
  match nth_error sil_data 0, last (map Some sil_data) None with
  | Some first, Some final =>
      let nosil_data :=
        if SigVad.gt (fst first) (Float64.round 0.001)
        then [(0, fst first)] else [] in
      nosil_data <-
        fold_left (SigVad.between_step sil_data)
          (Np.range 0 (Np.len sil_data - 1)) (Ok nosil_data) ;;
      Ok (if SigVad.gt (Float64.sub dur (snd final)) (Float64.round 0.001)
          then nosil_data ++ [(snd final, dur)]
          else nosil_data)
  | _, _ => Raise IndexError
  end.

Section Externals.

Variable rms : list R -> Z -> Z -> result (list R).
Variable load : string -> Z -> result (list R * Z).

(** [get_speech_endpoint(self, wav_path=None, signal=None, sr=None,
    min_sil_dur=0.75, min_nosil_dur=0.40)]. *)
Definition get_speech_endpoint (self : SigVad.t) (wav_path : option string)
  (signal : option (list R)) (sr : option Z)
  (min_sil_dur min_nosil_dur : Q) : result (list (Q * Q)) :=
  input <- SigVad.resolve load wav_path signal sr ;;
  let signal := fst input in
  let sr := snd input in
  if (sr =? 0)%Z then Raise ZeroDivisionError
  else
    let dur := Float64.div (inject_Z (Np.len signal)) (inject_Z sr) in
    sil_data <- SigVad._get_sil_endpoints rms self signal "sil" ;;
    let sil_data := sil_seconds sil_data sr min_sil_dur in
    if (Np.len sil_data =? 0)%Z then Ok [(0, dur)]
    else
      nosil_data <- _sil_to_nosil sil_data dur ;;
      Ok (filter (fun se => SigVad.gt (Float64.sub (snd se) (fst se))
                              min_nosil_dur)
                 nosil_data).

End Externals.

End SigVad64.

(** * Properties *)

(** ** The scan emits the maximal runs *)

Module ScanFacts.

Import Runs.
Local Open Scope Z_scope.

Lemma contains_where_from (mask : list bool) :
  forall i x,
    Np.contains x (Np.where_from i mask)
    = (i <=? x) && nth (Z.to_nat (x - i)) mask false.
Proof.
  induction mask as [|b mask IH]; intros i x; simpl.
  - destruct (Z.to_nat (x - i)); now rewrite andb_false_r.
  - assert (Hnth : i < x ->
              nth (Z.to_nat (x - i)) (b :: mask) false
              = nth (Z.to_nat (x - (i + 1))) mask false).
    { intros Hlt. replace (Z.to_nat (x - i)) with (S (Z.to_nat (x - (i + 1))))
        by lia. reflexivity. }
    destruct b; simpl; rewrite IH.
    + destruct (Z.eqb_spec x i) as [->|Hne].
      * rewrite Z.sub_diag, Z.leb_refl. reflexivity.
      * simpl. destruct (Z.leb_spec (i + 1) x), (Z.leb_spec i x);
          try lia; simpl; auto. symmetry; apply Hnth; lia.
    + destruct (Z.leb_spec (i + 1) x), (Z.leb_spec i x);
        try lia; simpl; auto.
      * symmetry; apply Hnth; lia.
      * assert (x = i) as -> by lia. now rewrite Z.sub_diag.
Qed.

Lemma contains_where (mask : list bool) (x : Z) :
  Np.contains x (Np.where_ mask) = getb mask x.
Proof.
  unfold Np.where_, getb. rewrite contains_where_from.
  now rewrite Z.sub_0_r.
Qed.

Lemma getb_cons (b : bool) (mask : list bool) (k : Z) :
  getb (b :: mask) k = if k =? 0 then b else getb mask (k - 1).
Proof.
  unfold getb. destruct (Z.eqb_spec k 0) as [->|Hne]; [reflexivity|].
  destruct (Z.leb_spec 0 k), (Z.leb_spec 0 (k - 1)); try lia; simpl; auto.
  replace (Z.to_nat k) with (S (Z.to_nat (k - 1))) by lia. reflexivity.
Qed.

Lemma getb_beyond (mask : list bool) (k : Z) :
  Np.len mask <= k -> getb mask k = false.
Proof.
  unfold getb, Np.len. intros Hk.
  rewrite nth_overflow by lia. apply andb_false_r.
Qed.

Lemma getb_before (mask : list bool) (k : Z) : k < 0 -> getb mask k = false.
Proof.
  unfold getb. intros Hk. destruct (Z.leb_spec 0 k); [lia|reflexivity].
Qed.

Lemma step_tracks (conv : Z -> Z) (idx : list Z) (i : Z) (cur : option Z)
  (st : Scan.state) (b : bool) :
  tracks conv (Np.contains (i - 1) idx) cur st ->
  Np.contains i idx = b ->
  let st' := Scan.step conv idx st (i - 1) in
  tracks conv b (advance i cur b) st' /\
  Scan.out st' = Scan.out st ++ map (emitted conv) (closes i cur b).
Proof.
  intros Htr Hb. unfold Scan.step.
  replace (i - 1 + 1) with i by lia. rewrite Hb.
  destruct cur as [s|]; simpl in Htr.
  - destruct Htr as [-> Hs]. destruct b; simpl.
    + rewrite app_nil_r. auto.
    + rewrite Hs. auto.
  - rewrite Htr. destruct b; simpl; rewrite app_nil_r; auto.
Qed.

Lemma runs_from_cons (i : Z) (cur : option Z) (b : bool) (mask : list bool) :
  runs_from i cur (b :: mask)
  = closes i cur b ++ runs_from (i + 1) (advance i cur b) mask.
Proof. destruct b, cur; reflexivity. Qed.

Lemma fold_step_runs (conv : Z -> Z) (idx : list Z) (mask : list bool) :
  forall i cur st,
    tracks conv (Np.contains (i - 1) idx) cur st ->
    (forall k, 0 <= k -> Np.contains (i + k) idx = getb mask k) ->
    Scan.out (fold_left (Scan.step conv idx)
                (Np.range_from (i - 1) (S (List.length mask))) st)
    = Scan.out st ++ map (emitted conv) (runs_from i cur mask).
Proof.
  induction mask as [|b mask IH]; intros i cur st Htr Hidx.
  - assert (Hi : Np.contains i idx = false).
    { rewrite <- (Z.add_0_r i), Hidx by lia. reflexivity. }
    destruct (step_tracks conv idx i cur st _ Htr Hi) as [_ Hout].
    cbn [List.length Np.range_from fold_left]. rewrite Hout.
    destruct cur; reflexivity.
  - assert (Hi : Np.contains i idx = b).
    { rewrite <- (Z.add_0_r i), Hidx by lia. reflexivity. }
    destruct (step_tracks conv idx i cur st _ Htr Hi) as [Htr' Hout].
    change (Np.range_from (i - 1) (S (List.length (b :: mask))))
      with (i - 1 :: Np.range_from (i - 1 + 1) (S (List.length mask))).
    cbn [fold_left].
    replace (i - 1 + 1) with (i + 1 - 1) by lia.
    rewrite (IH (i + 1) (advance i cur b)).
    + rewrite Hout, runs_from_cons, map_app, app_assoc. reflexivity.
    + replace (i + 1 - 1) with i by lia. rewrite Hi. exact Htr'.
    + intros k Hk. replace (i + 1 + k) with (i + (k + 1)) by lia.
      rewrite Hidx by lia. rewrite getb_cons.
      destruct (Z.eqb_spec (k + 1) 0); [lia|].
      now replace (k + 1 - 1) with k by lia.
Qed.

Lemma endpoints_runs (conv : Z -> Z) (mask : list bool) :
  Scan.endpoints conv (Np.len mask) (Np.where_ mask)
  = map (emitted conv) (maximal_runs mask).
Proof.
  unfold Scan.endpoints, Np.range, maximal_runs, Np.len.
  replace (Z.to_nat (Z.of_nat (List.length mask) - -1))
    with (S (List.length mask)) by lia.
  change (-1) with (0 - 1).
  rewrite (fold_step_runs conv (Np.where_ mask) mask 0 None Scan.init).
  - reflexivity.
  - simpl. rewrite contains_where. apply getb_before. lia.
  - intros k _. now rewrite contains_where.
Qed.

Lemma len_cons (A : Type) (a : A) (l : list A) : Np.len (a :: l) = Np.len l + 1.
Proof. unfold Np.len. simpl List.length. lia. Qed.

Lemma len_nonneg (A : Type) (l : list A) : 0 <= Np.len l.
Proof. unfold Np.len. lia. Qed.

Lemma at_head (i : Z) (b : bool) (mask : list bool) :
  at_ i (b :: mask) i = b.
Proof. unfold at_. rewrite Z.sub_diag. reflexivity. Qed.

Lemma at_tail (i : Z) (b : bool) (mask : list bool) (k : Z) :
  k <> i -> at_ i (b :: mask) k = at_ (i + 1) mask k.
Proof.
  intros Hk. unfold at_. rewrite getb_cons.
  destruct (Z.eqb_spec (k - i) 0); [lia|].
  now replace (k - i - 1) with (k - (i + 1)) by lia.
Qed.

Lemma at_nil (i k : Z) : at_ i [] k = false.
Proof. unfold at_, getb. destruct (Z.to_nat (k - i)); apply andb_false_r. Qed.

Lemma all_true_tail (i : Z) (b : bool) (mask : list bool) (lo hi : Z) :
  i < lo -> all_true i (b :: mask) lo hi <-> all_true (i + 1) mask lo hi.
Proof.
  intros Hlo. unfold all_true.
  split; intros H k Hk; specialize (H k Hk);
    rewrite at_tail in * by lia; exact H.
Qed.

Lemma all_true_head (i : Z) (b : bool) (mask : list bool) (hi : Z) :
  i <= hi ->
  all_true i (b :: mask) i hi <-> b = true /\ all_true (i + 1) mask (i + 1) hi.
Proof.
  intros Hhi. unfold all_true. split.
  - intros H. split.
    + rewrite <- (at_head i b mask). apply H. lia.
    + intros k Hk. rewrite <- (at_tail i b mask) by lia. apply H. lia.
  - intros [Hb H] k Hk. destruct (Z.eq_dec k i) as [->|Hne].
    + now rewrite at_head.
    + rewrite at_tail by lia. apply H. lia.
Qed.

Lemma run_in_nil (i : Z) (cur : option Z) (s e : Z) :
  run_in i cur [] s e <-> cur = Some s /\ e = i - 1.
Proof.
  unfold run_in. change (Np.len (@nil bool)) with 0. rewrite at_nil.
  split.
  - intros (He & _ & [(Hc & Hle & _)|(H1 & H2 & _)]); [|lia]. split; [auto|lia].
  - intros [Hc ->]. split; [lia|]. split; [reflexivity|]. left.
    repeat split; auto; try lia. intros k Hk; lia.
Qed.

Lemma run_in_cons (i : Z) (cur : option Z) (b : bool) (mask : list bool)
  (s e : Z) :
  run_in i cur (b :: mask) s e
  <-> In (s, e) (closes i cur b) \/ run_in (i + 1) (advance i cur b) mask s e.
Proof.
  unfold run_in. rewrite len_cons. pose proof (len_nonneg _ mask) as Hlen.
  destruct (Z.eq_dec e (i - 1)) as [He|He].
  - (* the run ends just before this element *)
    subst e. replace (i - 1 + 1) with i by lia. rewrite at_head.
    split.
    + intros (_ & Hb & [(Hc & _)|(H1 & H2 & _)]); [|lia].
      subst b cur. left. simpl. auto.
    + intros [Hin|(_ & _ & [(Hc & Hle & _)|(H1 & H2 & _)])]; try lia.
      destruct cur as [c|], b; simpl in Hin; try tauto.
      destruct Hin as [Hin|[]]. inversion Hin; subst c.
      split; [lia|]. split; [reflexivity|]. left.
      repeat split; auto; try lia. intros k Hk; lia.
  - rewrite (at_tail i b mask) by lia.
    assert (Hclose : In (s, e) (closes i cur b) -> False).
    { destruct cur as [c|], b; simpl; try tauto.
      intros [Hin|[]]. inversion Hin; lia. }
    split.
    + intros (Hlt & Hend & Hrun). right.
      split; [lia|]. split; [exact Hend|].
      destruct Hrun as [(Hc & Hle & Hall)|(H1 & H2 & Hall & Hs & Hp)].
      * apply all_true_head in Hall; [|lia]. destruct Hall as [-> Hall].
        left. subst cur. simpl. repeat split; auto. lia.
      * destruct (Z.eq_dec s i) as [->|Hsi].
        -- apply all_true_head in Hall; [|lia]. destruct Hall as [-> Hall].
           rewrite (Hs eq_refl). left. simpl. repeat split; auto. lia.
        -- right. rewrite all_true_tail in Hall by lia.
           split; [lia|]. split; [lia|]. split; [exact Hall|].
           specialize (Hp ltac:(lia)).
           destruct (Z.eq_dec s (i + 1)) as [->|Hsi'].
           ++ replace (i + 1 - 1) with i in Hp by lia.
              rewrite at_head in Hp. subst b. simpl. split; [auto|lia].
           ++ rewrite at_tail in Hp by lia. split; [lia|auto].
    + intros [Hin|(Hlt & Hend & Hrun)]; [tauto|].
      split; [lia|]. split; [exact Hend|].
      destruct Hrun as [(Hc & Hle & Hall)|(H1 & H2 & Hall & Hs & Hp)].
      * destruct b; simpl in Hc; [|discriminate].
        destruct cur as [c|]; inversion Hc; subst.
        -- left. split; [auto|]. split; [lia|].
           apply all_true_head; [lia|]. auto.
        -- right. split; [lia|]. split; [lia|].
           split; [apply all_true_head; [lia|auto]|]. split; [auto|lia].
      * right. split; [lia|]. split; [lia|].
        split; [apply all_true_tail; [lia|auto]|]. split; [lia|].
        intros _. destruct (Z.eq_dec s (i + 1)) as [->|Hsi'].
        -- replace (i + 1 - 1) with i by lia. rewrite at_head.
           specialize (Hs eq_refl). destruct b; [discriminate|reflexivity].
        -- rewrite at_tail by lia. apply Hp. lia.
Qed.

Lemma In_runs_from (mask : list bool) :
  forall i cur s e, In (s, e) (runs_from i cur mask) <-> run_in i cur mask s e.
Proof.
  induction mask as [|b mask IH]; intros i cur s e.
  - rewrite run_in_nil. simpl. destruct cur as [c|]; simpl.
    + split.
      * intros [H|[]]. inversion H; auto.
      * intros [H ->]. inversion H. auto.
    + split; [tauto|]. intros [H _]. discriminate.
  - rewrite runs_from_cons, in_app_iff, IH, run_in_cons. reflexivity.
Qed.

Lemma In_maximal_runs (mask : list bool) (s e : Z) :
  In (s, e) (maximal_runs mask) <-> maximal_run mask s e.
Proof.
  unfold maximal_runs. rewrite In_runs_from.
  unfold run_in, maximal_run, all_true, at_.
  rewrite !Z.sub_0_r, Z.add_0_l.
  split.
  - intros (Hlt & Hend & [(Hc & _)|(H1 & H2 & Hall & _ & Hp)]); [discriminate|].
    repeat split; auto.
    + intros k Hk. rewrite <- (Z.sub_0_r k). apply Hall, Hk.
    + destruct (Z.eq_dec s 0) as [->|Hs].
      * apply getb_before. lia.
      * apply Hp. lia.
  - intros (H1 & H2 & H3 & Hall & Hp & Hend).
    split; [auto|]. split; [auto|]. right. repeat split; auto.
    intros k Hk. rewrite Z.sub_0_r. apply Hall, Hk.
Qed.

Lemma separated_from_weaken (l : list (Z * Z)) (lo lo' : Z) :
  lo' <= lo -> separated_from lo l -> separated_from lo' l.
Proof.
  destruct l as [|[s e] l]; simpl; [auto|].
  intros Hlo (H1 & H2 & H3). repeat split; auto. lia.
Qed.

Lemma runs_from_separated (mask : list bool) :
  forall i cur,
    (forall c, cur = Some c -> c <= i - 1) ->
    separated_from (match cur with Some c => c | None => i end)
      (runs_from i cur mask).
Proof.
  induction mask as [|b mask IH]; intros i cur Hcur.
  - destruct cur as [c|]; simpl; auto.
    specialize (Hcur c eq_refl). lia.
  - destruct b, cur as [c|]; simpl.
    + apply (IH (i + 1) (Some c)). intros c' Hc'. inversion Hc'; subst.
      specialize (Hcur c' eq_refl). lia.
    + apply (IH (i + 1) (Some i)). intros c' Hc'. inversion Hc'; subst. lia.
    + specialize (Hcur c eq_refl). repeat split; try lia.
      replace (i - 1 + 2) with (i + 1) by lia.
      apply (IH (i + 1) None). discriminate.
    + apply separated_from_weaken with (lo := i + 1); [lia|].
      apply (IH (i + 1) None). discriminate.
Qed.

Lemma maximal_runs_separated (mask : list bool) :
  separated_from 0 (maximal_runs mask).
Proof. apply (runs_from_separated mask 0 None). discriminate. Qed.

Lemma separated_from_starts (l : list (Z * Z)) :
  forall lo, separated_from lo l -> Forall (fun r => lo <= fst r) l.
Proof.
  induction l as [|[s e] l IH]; intros lo H; constructor.
  - simpl in *. lia.
  - destruct H as (H1 & H2 & H3). apply IH in H3.
    eapply Forall_impl; [|exact H3]. simpl. intros r Hr. lia.
Qed.

Lemma separated_from_sorted (l : list (Z * Z)) :
  forall lo, separated_from lo l ->
             StronglySorted (fun a b => fst a < fst b) l.
Proof.
  induction l as [|[s e] l IH]; intros lo H; constructor.
  - destruct H as (_ & _ & H). eapply IH, H.
  - destruct H as (H1 & H2 & H3). apply separated_from_starts in H3.
    eapply Forall_impl; [|exact H3]. simpl. intros r Hr. lia.
Qed.

End ScanFacts.

(** C1.  For every boolean mask, the loop over [x] in
    [range(-1, N)] that [MelVad.get_nosil_endpoints] and
    [SigVad._get_sil_endpoints] run emits, before the short runs are
    dropped, exactly the maximal runs of true values of the mask: each
    pair holds the first and the last true index of its run (the last
    index itself, not the one after it), in [SigVad] multiplied by the
    hop length; the pairs are in increasing order of start, and runs that
    touch either end of the mask are among them. *)
Theorem scan_emits_maximal_runs (mask : list bool) (hop_length : Z) :
  Scan.endpoints (fun x => x) (Np.len mask) (Np.where_ mask)
  = map (fun r => (Some (fst r), snd r)) (Runs.maximal_runs mask)
  /\ Scan.endpoints (fun x => Librosa.frames_to_samples x hop_length)
       (Np.len mask) (Np.where_ mask)
     = map (fun r => (Some (fst r * hop_length), snd r * hop_length))
         (Runs.maximal_runs mask)
  /\ (forall s e : Z,
        In (s, e) (Runs.maximal_runs mask) <-> Runs.maximal_run mask s e)
  /\ StronglySorted (fun a b => fst a < fst b) (Runs.maximal_runs mask).
Proof.
  split; [|split; [|split]].
  - apply (ScanFacts.endpoints_runs (fun x => x)).
  - apply (ScanFacts.endpoints_runs
             (fun x => Librosa.frames_to_samples x hop_length)).
  - intros s e. apply ScanFacts.In_maximal_runs.
  - apply (ScanFacts.separated_from_sorted _ 0),
      ScanFacts.maximal_runs_separated.
Qed.

(** ** Dropping the short runs *)

Module DropFacts.

Import Runs.

Lemma drop_short_emitted (conv : Z -> Z) (l : list (Z * Z)) :
  Scan.drop_short (map (emitted conv) l)
  = Ok (filter long_enough (map (fun r => (conv (fst r), conv (snd r))) l)).
Proof.
  induction l as [|[s e] l IH]; [reflexivity|].
  simpl. rewrite IH. simpl.
  change (long_enough (conv s, conv e)) with (1 <? conv e - conv s).
  destruct (1 <? conv e - conv s); reflexivity.
Qed.

Lemma map_id_pairs (l : list (Z * Z)) :
  map (fun r => ((fun x => x) (fst r), (fun x => x) (snd r))) l = l.
Proof.
  induction l as [|[s e] l IH]; simpl; [|rewrite IH]; reflexivity.
Qed.

Lemma mel_scan (mask : list bool) :
  Scan.drop_short (Scan.endpoints (fun x => x) (Np.len mask) (Np.where_ mask))
  = Ok (filter long_enough (maximal_runs mask)).
Proof.
  rewrite ScanFacts.endpoints_runs, drop_short_emitted, map_id_pairs.
  reflexivity.
Qed.

Lemma sig_scan (hop_length : Z) (mask : list bool) :
  Scan.drop_short
    (Scan.endpoints (fun x => Librosa.frames_to_samples x hop_length)
       (Np.len mask) (Np.where_ mask))
  = Ok (filter long_enough (map (in_samples hop_length) (maximal_runs mask))).
Proof.
  rewrite ScanFacts.endpoints_runs, drop_short_emitted. reflexivity.
Qed.

Lemma len_map (A B : Type) (f : A -> B) (l : list A) :
  Np.len (map f l) = Np.len l.
Proof. unfold Np.len. now rewrite length_map. Qed.

Lemma mel_endpoints (self : MelVad.t) (mels : Np.matrix) (g : bool) :
  MelVad.get_nosil_endpoints self mels g
  = (mel_db <- MelVad.mel_db self mels g ;;
     Ok (filter long_enough (maximal_runs (MelVad.nosil_mask self mel_db)))).
Proof.
  unfold MelVad.get_nosil_endpoints.
  destruct (MelVad.mel_db self mels g) as [db|err]; [|reflexivity].
  simpl. rewrite <- (len_map _ _ (fun d => Np.gt d (- MelVad.top_db self)) db).
  apply mel_scan.
Qed.

Lemma sil_mask_len (self : SigVad.t) (db : list R) (sil_type : string)
  (mask : list bool) :
  SigVad.sil_mask self db sil_type = Ok mask -> Np.len mask = Np.len db.
Proof.
  unfold SigVad.sil_mask.
  destruct (String.eqb sil_type "sil");
    [|destruct (String.eqb sil_type "nosil")];
    intros H; inversion H; apply len_map.
Qed.

Lemma sig_endpoints (rms : list R -> Z -> Z -> result (list R))
  (self : SigVad.t) (y : list R) (sil_type : string) :
  SigVad._get_sil_endpoints rms self y sil_type
  = (signal_db <- SigVad.signal_db rms self y ;;
     mask <- SigVad.sil_mask self signal_db sil_type ;;
     _ <- (if Np.len signal_db =? 1 then Raise TypeError else Ok tt) ;;
     Ok (filter long_enough
           (map (in_samples (SigVad.hop_length self)) (maximal_runs mask)))).
Proof.
  unfold SigVad._get_sil_endpoints.
  destruct (SigVad.signal_db rms self y) as [db|err]; [|reflexivity].
  simpl. destruct (SigVad.sil_mask self db sil_type) as [mask|err] eqn:Hm;
    [|reflexivity].
  simpl. destruct (Np.len db =? 1); [reflexivity|]. simpl.
  rewrite <- (sil_mask_len _ _ _ _ Hm). apply sig_scan.
Qed.

End DropFacts.

(** C2.  After the runs are extracted, [MelVad.get_nosil_endpoints]
    returns the maximal runs of its mask without those whose
    [end - start <= 1] in frame indices (single frames among them), and
    [SigVad._get_sil_endpoints] first multiplies both indices of every
    run by the hop length and then leaves out those whose
    [end - start <= 1] in samples; in both, a run is dropped exactly
    when [end - start <= 1] and every other run is kept as it is, in
    order. *)
Theorem short_runs_dropped
  (rms : list R -> Z -> Z -> result (list R)) :
  (forall (self : MelVad.t) (mels : Np.matrix) (using_global_ref : bool),
      MelVad.get_nosil_endpoints self mels using_global_ref
      = (mel_db <- MelVad.mel_db self mels using_global_ref ;;
         Ok (filter Runs.long_enough
               (Runs.maximal_runs (MelVad.nosil_mask self mel_db)))))
  /\ (forall (self : SigVad.t) (y : list R) (sil_type : string),
        SigVad._get_sil_endpoints rms self y sil_type
        = (signal_db <- SigVad.signal_db rms self y ;;
           mask <- SigVad.sil_mask self signal_db sil_type ;;
           _ <- (if Np.len signal_db =? 1 then Raise TypeError else Ok tt) ;;
           Ok (filter Runs.long_enough
                 (map (Runs.in_samples (SigVad.hop_length self))
                    (Runs.maximal_runs mask)))))
  /\ (forall (runs : list (Z * Z)) (s e : Z),
        In (s, e) (filter Runs.long_enough runs)
        <-> In (s, e) runs /\ ~ e - s <= 1)
  /\ (forall (mask : list bool) (s : Z),
        ~ In (s, s) (filter Runs.long_enough (Runs.maximal_runs mask))).
Proof.
  split; [|split; [|split]].
  - apply DropFacts.mel_endpoints.
  - apply (DropFacts.sig_endpoints rms).
  - intros runs s e. rewrite filter_In. unfold Runs.long_enough. simpl.
    rewrite Z.ltb_lt. split; intros [Hin Hlen]; split; auto; lia.
  - intros mask s. rewrite filter_In. unfold Runs.long_enough. simpl.
    rewrite Z.ltb_lt. intros [_ Hlen]. lia.
Qed.

(** ** From silence to speech *)

Module ComplementFacts.

Import SigVad.

Lemma nth_error_middle (A : Type) (pre : list A) (a : A) (rest : list A) :
  nth_error (pre ++ a :: rest) (List.length pre) = Some a.
Proof. induction pre; simpl; auto. Qed.

Lemma between_fold (rest : list (Q * Q)) :
  forall (pre : list (Q * Q)) (a : Q * Q) (acc : list (Q * Q)),
    fold_left (between_step (pre ++ a :: rest))
      (Np.range_from (Np.len pre) (List.length rest)) (Ok acc)
    = Ok (acc ++ between (a :: rest)).
Proof.
  induction rest as [|b rest IH]; intros pre a acc.
  - simpl. now rewrite app_nil_r.
  - cbn [List.length Np.range_from fold_left].
    assert (Hstep : between_step (pre ++ a :: b :: rest) (Ok acc) (Np.len pre)
                    = Ok (acc ++ [(snd a, fst b)])).
    { unfold between_step, Np.len. simpl bind.
      rewrite Nat2Z.id.
      replace (Z.to_nat (Z.of_nat (List.length pre) + 1))
        with (List.length (pre ++ [a])) by (rewrite length_app; simpl; lia).
      rewrite nth_error_middle.
      replace (pre ++ a :: b :: rest) with ((pre ++ [a]) ++ b :: rest)
        by (rewrite <- app_assoc; reflexivity).
      rewrite nth_error_middle. reflexivity. }
    rewrite Hstep.
    replace (pre ++ a :: b :: rest) with ((pre ++ [a]) ++ b :: rest)
      by (rewrite <- app_assoc; reflexivity).
    replace (Np.len pre + 1) with (Np.len (pre ++ [a]))
      by (unfold Np.len; rewrite length_app; simpl; lia).
    rewrite IH, <- app_assoc. reflexivity.
Qed.

Lemma last_some (A : Type) (l : list A) (d : A) :
  l <> [] -> last (map Some l) None = Some (last l d).
Proof.
  induction l as [|a l IH]; [congruence|]. intros _.
  destruct l as [|b l]; [reflexivity|].
  change (last (map Some (a :: b :: l)) None)
    with (last (map Some (b :: l)) None).
  change (last (a :: b :: l) d) with (last (b :: l) d).
  apply IH. discriminate.
Qed.

Lemma nth_error_pred_last (A : Type) (l : list A) (d : A) :
  l <> [] -> nth_error l (pred (List.length l)) = Some (last l d).
Proof.
  induction l as [|a l IH]; [congruence|]. intros _.
  destruct l as [|b l]; [reflexivity|].
  change (last (a :: b :: l) d) with (last (b :: l) d).
  rewrite <- IH by discriminate. reflexivity.
Qed.

Lemma sil_to_nosil_reference (sil : list (Q * Q)) (dur : Q) :
  sil <> [] -> _sil_to_nosil sil dur = Ok (complement_reference sil dur).
Proof.
  destruct sil as [|first rest]; [congruence|]. intros _.
  unfold _sil_to_nosil, complement_reference.
  rewrite (last_some _ (first :: rest) first) by discriminate.
  cbn [nth_error].
  replace (Np.range 0 (Np.len (first :: rest) - 1))
    with (Np.range_from (Np.len (@nil (Q * Q))) (List.length rest)).
  2:{ unfold Np.range, Np.len. simpl List.length. f_equal. lia. }
  rewrite (between_fold rest [] first). cbn [bind].
  destruct (gt (dur - snd (last (first :: rest) first)) 0.001).
  - rewrite <- app_assoc. reflexivity.
  - rewrite app_nil_r. reflexivity.
Qed.

Lemma between_nth (sil : list (Q * Q)) :
  forall (i : nat) (a b : Q * Q),
    nth_error sil i = Some a -> nth_error sil (S i) = Some b ->
    nth_error (between sil) i = Some (snd a, fst b).
Proof.
  induction sil as [|x sil IH]; intros i a b Ha Hb.
  - destruct i; discriminate.
  - destruct sil as [|y sil]; [destruct i; discriminate|].
    destruct i as [|i].
    + simpl in *. inversion Ha; inversion Hb; subst. reflexivity.
    + change (between (x :: y :: sil))
        with ((snd x, fst y) :: between (y :: sil)).
      simpl nth_error. apply IH; assumption.
Qed.

Lemma between_length (sil : list (Q * Q)) :
  List.length (between sil) = pred (List.length sil).
Proof.
  induction sil as [|x sil IH]; [reflexivity|].
  destruct sil as [|y sil]; [reflexivity|].
  change (between (x :: y :: sil)) with ((snd x, fst y) :: between (y :: sil)).
  simpl List.length in *. rewrite IH. reflexivity.
Qed.

End ComplementFacts.

(** C3.  For every non-empty list of silence intervals and every
    duration, [SigVad._sil_to_nosil] returns the complement: a leading
    interval [(0.0, firstSilenceStart)] exactly when
    [firstSilenceStart > 0.001]; then, with no condition, one interval
    [(silence[i].end, silence[i+1].start)] for each pair of consecutive
    silence intervals; and a trailing interval [(lastSilenceEnd, dur)]
    exactly when [dur - lastSilenceEnd > 0.001]. *)
Theorem sil_to_nosil_complement (sil_data : list (Q * Q)) (dur : Q) :
  sil_data <> [] ->
  exists first final : Q * Q,
    nth_error sil_data 0 = Some first
    /\ nth_error sil_data (pred (List.length sil_data)) = Some final
    /\ SigVad._sil_to_nosil sil_data dur
       = Ok ((if SigVad.gt (fst first) 0.001 then [(0%Q, fst first)] else [])
             ++ SigVad.between sil_data
             ++ (if SigVad.gt (dur - snd final) 0.001
                 then [(snd final, dur)] else []))
    /\ List.length (SigVad.between sil_data) = pred (List.length sil_data)
    /\ (forall (i : nat) (a b : Q * Q),
           nth_error sil_data i = Some a ->
           nth_error sil_data (S i) = Some b ->
           nth_error (SigVad.between sil_data) i = Some (snd a, fst b)).
Proof.
  intros Hne. destruct sil_data as [|first rest]; [congruence|].
  exists first, (last (first :: rest) first).
  split; [reflexivity|]. split.
  - apply ComplementFacts.nth_error_pred_last. discriminate.
  - split; [|split].
    + rewrite ComplementFacts.sil_to_nosil_reference by discriminate.
      reflexivity.
    + apply ComplementFacts.between_length.
    + apply ComplementFacts.between_nth.
Qed.

(** The second scenario of the specification: one silence from 0.5 s to
    1.5 s in a clip of 3.0 s. *)
Lemma sil_to_nosil_complement_witness :
  exists first final : Q * Q,
    nth_error [(0.5, 1.5)%Q] 0 = Some first
    /\ nth_error [(0.5, 1.5)%Q] (pred (List.length [(0.5, 1.5)%Q]))
       = Some final
    /\ SigVad._sil_to_nosil [(0.5, 1.5)%Q] 3
       = Ok ((if SigVad.gt (fst first) 0.001 then [(0%Q, fst first)] else [])
             ++ SigVad.between [(0.5, 1.5)%Q]
             ++ (if SigVad.gt (3 - snd final) 0.001
                 then [(snd final, 3%Q)] else []))
    /\ List.length (SigVad.between [(0.5, 1.5)%Q])
       = pred (List.length [(0.5, 1.5)%Q])
    /\ (forall (i : nat) (a b : Q * Q),
           nth_error [(0.5, 1.5)%Q] i = Some a ->
           nth_error [(0.5, 1.5)%Q] (S i) = Some b ->
           nth_error (SigVad.between [(0.5, 1.5)%Q]) i = Some (snd a, fst b)).
Proof.
  apply (sil_to_nosil_complement [(0.5, 1.5)%Q] 3%Q). discriminate.
Defined.


(** ** The mel power and the preconditions of [MelVad] *)

Module MelFacts.

Import MelVad.
Local Open Scope R_scope.

Lemma clip_unit (x : R) : 0 <= Np.clip x 0 1 <= 1.
Proof.
  unfold Np.clip, Rmin, Rmax.
  destruct (Rle_dec x 0); destruct (Rle_dec 1 _); lra.
Qed.

Lemma clip_inside (x : R) : 0 <= x <= 1 -> Np.clip x 0 1 = x.
Proof.
  intros Hx. unfold Np.clip, Rmin, Rmax.
  destruct (Rle_dec x 0); destruct (Rle_dec 1 _); lra.
Qed.

Lemma power_pipeline (rows : list (list R)) :
  map Np.sum
    (Np.broadcast (fun x => Rpower 10 x)
       (Np.broadcast (fun x => x * 0.05)
          (Np.broadcast (fun x => x + 20)
             (Np.broadcast (fun x => x + -100)
                (Np.broadcast (fun x => x * (- -100))
                   (Np.broadcast (fun x => Np.clip x 0 1) rows))))))
  = feature_to_power_reference rows.
Proof.
  unfold Np.broadcast, feature_to_power_reference.
  rewrite !map_map. apply map_ext. intros row.
  rewrite !map_map. reflexivity.
Qed.

Lemma get_mel_power_ok (mels : Np.matrix) :
  Np.bands mels = 80%Z ->
  _get_mel_power mels = Ok (feature_to_power_reference (Np.frames mels)).
Proof.
  intros H. unfold _get_mel_power. rewrite H. simpl.
  now rewrite power_pipeline.
Qed.

Lemma sum_positive (row : list R) :
  Forall (fun x => 0 < x) row -> 0 <= Np.sum row.
Proof.
  induction 1 as [|x row Hx _ IH]; simpl; lra.
Qed.

Lemma frame_power_nonneg (row : list R) (f : R -> R) :
  0 <= Np.sum (map (fun x => Rpower 10 (f x)) row).
Proof.
  apply sum_positive. apply Forall_forall. intros y Hy.
  apply in_map_iff in Hy. destruct Hy as (x & <- & _).
  unfold Rpower. apply exp_pos.
Qed.

Lemma gt_true (a b : R) : Np.gt a b = true <-> b < a.
Proof. unfold Np.gt. destruct (Rlt_dec b a); split; auto; discriminate. Qed.

Lemma lt_true (a b : R) : Np.lt a b = true <-> a < b.
Proof. unfold Np.lt. destruct (Rlt_dec a b); split; auto; discriminate. Qed.

Lemma precondition_fails (self : t) (mels : Np.matrix) (g : bool) :
  Np.bands mels <> 80%Z \/ (g = true /\ truthy (global_ref_db self) = false) ->
  mel_db self mels g = Raise AssertionError.
Proof.
  intros H. unfold mel_db.
  destruct (truthy (global_ref_db self) || negb g) eqn:Hg; simpl;
    [|reflexivity].
  destruct (Z.eqb_spec (Np.bands mels) 80) as [Hb|Hb]; simpl;
    [|reflexivity].
  destruct H as [H|[-> Ht]]; [contradiction|].
  rewrite Ht in Hg. discriminate.
Qed.

End MelFacts.

(** C6.  For every feature matrix with 80 bands, [MelVad._get_mel_power]
    returns the reference conversion: each value is clipped to [[0, 1]],
    rescaled as [clipped * (-minLevelDb) + minLevelDb] with
    [minLevelDb = -100], turned into the amplitude
    [10 ^ ((rescaled + refLevelDb) * 0.05)] with [refLevelDb = 20], and
    the amplitudes of each frame are summed, one power per frame. *)
Theorem mel_power_matches_reference (mels : Np.matrix) :
  Np.bands mels = 80 ->
  MelVad._get_mel_power mels
  = Ok (MelVad.feature_to_power_reference (Np.frames mels))
  /\ List.length (MelVad.feature_to_power_reference (Np.frames mels))
     = List.length (Np.frames mels)
  /\ (forall x : R, (0 <= Np.clip x 0 1 <= 1)%R)
  /\ (forall x : R, (0 <= x <= 1)%R -> Np.clip x 0 1 = x).
Proof.
  intros H. split; [|split; [|split]].
  - apply MelFacts.get_mel_power_ok, H.
  - unfold MelVad.feature_to_power_reference. apply length_map.
  - apply MelFacts.clip_unit.
  - apply MelFacts.clip_inside.
Qed.

Lemma mel_power_matches_reference_witness :
  MelVad._get_mel_power (Np.mk_matrix 80 [repeat 1%R 80])
  = Ok (MelVad.feature_to_power_reference [repeat 1%R 80])
  /\ List.length (MelVad.feature_to_power_reference [repeat 1%R 80])
     = List.length [repeat 1%R 80]
  /\ (forall x : R, (0 <= Np.clip x 0 1 <= 1)%R)
  /\ (forall x : R, (0 <= x <= 1)%R -> Np.clip x 0 1 = x).
Proof.
  apply (mel_power_matches_reference (Np.mk_matrix 80 [repeat 1%R 80])).
  reflexivity.
Defined.

(** C7.  The preconditions fail without a result: [MelVad.get_vad_label]
    and [MelVad.get_nosil_endpoints] raise [AssertionError] when the last
    dimension of the features is not 80, and when the global reference is
    requested while none is configured; [SigVad._get_sil_endpoints]
    returns no result when [sil_type] is neither ["sil"] nor ["nosil"],
    and raises [Exception("Error for sil type")] as soon as the decibel
    profile has been computed. *)
Theorem precondition_violations_raise
  (rms : list R -> Z -> Z -> result (list R)) :
  (forall (self : MelVad.t) (mels : Np.matrix) (using_global_ref : bool),
      Np.bands mels <> 80
      \/ (using_global_ref = true /\ MelVad.global_ref_db self = None) ->
      MelVad.get_vad_label self mels using_global_ref = Raise AssertionError
      /\ MelVad.get_nosil_endpoints self mels using_global_ref
         = Raise AssertionError)
  /\ (forall (self : SigVad.t) (y : list R) (sil_type : string),
        sil_type <> "sil"%string -> sil_type <> "nosil"%string ->
        raises (SigVad._get_sil_endpoints rms self y sil_type)
        /\ (forall db : list R,
               SigVad.signal_db rms self y = Ok db ->
               SigVad._get_sil_endpoints rms self y sil_type
               = Raise (Exception "Error for sil type"))).
Proof.
  split.
  - intros self mels g H.
    assert (Hdb : MelVad.mel_db self mels g = Raise AssertionError).
    { apply MelFacts.precondition_fails.
      destruct H as [H|[Hg Hn]]; [left; exact H|right].
      split; [exact Hg|]. now rewrite Hn. }
    unfold MelVad.get_vad_label, MelVad.get_nosil_endpoints.
    rewrite Hdb. split; reflexivity.
  - intros self y sil_type Hsil Hnosil.
    assert (Hmask : forall db,
               SigVad.sil_mask self db sil_type
               = Raise (Exception "Error for sil type")).
    { intros db. unfold SigVad.sil_mask.
      destruct (String.eqb_spec sil_type "sil"); [contradiction|].
      destruct (String.eqb_spec sil_type "nosil"); [contradiction|].
      reflexivity. }
    unfold SigVad._get_sil_endpoints. split.
    + destruct (SigVad.signal_db rms self y) as [db|err].
      * exists (Exception "Error for sil type"). simpl. now rewrite Hmask.
      * exists err. reflexivity.
    + intros db Hdb. rewrite Hdb. simpl. now rewrite Hmask.
Qed.

Lemma precondition_violations_raise_witness :
  (MelVad.get_vad_label MelVad.init_default (Np.mk_matrix 40 []) true
   = Raise AssertionError
   /\ MelVad.get_nosil_endpoints MelVad.init_default (Np.mk_matrix 40 []) true
      = Raise AssertionError)
  /\ raises (SigVad._get_sil_endpoints Librosa.rms SigVad.init_default
               [0%R; 0%R] "speech").
Proof.
  split.
  - apply (proj1 (precondition_violations_raise Librosa.rms)
             MelVad.init_default (Np.mk_matrix 40 []) true).
    right. split; reflexivity.
  - apply (proj2 (precondition_violations_raise Librosa.rms)
             SigVad.init_default [0%R; 0%R] "speech"%string);
      discriminate.
Defined.

(** ** Thresholds *)

Module ThresholdFacts.

Import Runs.

Lemma In_where (mask : list bool) (i : Z) :
  In i (Np.where_ mask) <-> getb mask i = true.
Proof.
  rewrite <- ScanFacts.contains_where. unfold Np.contains.
  rewrite existsb_exists. split.
  - intros H. exists i. split; [exact H|apply Z.eqb_refl].
  - intros (x & Hx & Heq). apply Z.eqb_eq in Heq. now subst.
Qed.

Lemma getb_map (A : Type) (f : A -> bool) (l : list A) (i : Z) :
  getb (map f l) i = true ->
  exists a, nth_error l (Z.to_nat i) = Some a /\ f a = true.
Proof.
  unfold getb. intros H. apply andb_prop in H. destruct H as [_ H].
  revert H. generalize (Z.to_nat i). clear i.
  induction l as [|a l IH]; intros [|n] H; simpl in *; try discriminate.
  - exists a. auto.
  - apply IH, H.
Qed.

Lemma map_getb (A : Type) (f : A -> bool) (l : list A) (i : Z) (a : A) :
  0 <= i -> nth_error l (Z.to_nat i) = Some a -> f a = true ->
  getb (map f l) i = true.
Proof.
  unfold getb. intros Hi Hn Hf.
  destruct (Z.leb_spec 0 i); [|lia]. simpl.
  revert Hn. generalize (Z.to_nat i).
  induction l as [|b l IH]; intros [|n] Hn; simpl in *; try discriminate.
  - inversion Hn; subst. exact Hf.
  - apply IH, Hn.
Qed.

Lemma getb_index (mask : list bool) (i : Z) : getb mask i = true -> 0 <= i.
Proof.
  unfold getb. destruct (Z.leb_spec 0 i); [auto|discriminate].
Qed.

(** A pointwise weaker test selects at least the same indices. *)
Lemma where_mono (A : Type) (f g : A -> bool) (l : list A) :
  (forall a, f a = true -> g a = true) ->
  incl (Np.where_ (map f l)) (Np.where_ (map g l)).
Proof.
  intros Hfg i Hi. apply In_where. apply In_where in Hi.
  pose proof (getb_index _ _ Hi) as H0.
  apply getb_map in Hi. destruct Hi as (a & Ha & Hf).
  eapply map_getb; eauto.
Qed.

Lemma where_count_mono (A : Type) (f g : A -> bool) (l : list A) :
  (forall a, f a = true -> g a = true) ->
  forall i j,
    (List.length (Np.where_from i (map f l))
     <= List.length (Np.where_from j (map g l)))%nat.
Proof.
  intros Hfg. induction l as [|a l IH]; intros i j; simpl; [lia|].
  destruct (f a) eqn:Hf.
  - rewrite (Hfg a Hf). simpl. apply le_n_S, IH.
  - destruct (g a); simpl; [apply Nat.le_le_succ_r|]; apply IH.
Qed.

End ThresholdFacts.

(** C9.  With the input and the reference fixed, raising [top_db] keeps
    or enlarges the set of frames selected by the mask [db > -top_db] and
    keeps or shrinks the set selected by [db < -top_db]: the decibel
    profile does not depend on [top_db], every frame index selected as
    speech at the lower threshold is selected at the higher one (so the
    count does not decrease), and every index selected as silence at the
    higher threshold is selected at the lower one. *)
Theorem threshold_monotone
  (rms : list R -> Z -> Z -> result (list R)) (low high : R) :
  (low <= high)%R ->
  (forall (self : MelVad.t) (mels : Np.matrix) (using_global_ref : bool),
      MelVad.mel_db (MelVad.with_top_db self low) mels using_global_ref
      = MelVad.mel_db (MelVad.with_top_db self high) mels using_global_ref
      /\ forall mel_db : list R,
          incl (Np.where_ (MelVad.nosil_mask (MelVad.with_top_db self low)
                             mel_db))
               (Np.where_ (MelVad.nosil_mask (MelVad.with_top_db self high)
                             mel_db))
          /\ (List.length
                (Np.where_ (MelVad.nosil_mask (MelVad.with_top_db self low)
                              mel_db))
              <= List.length
                   (Np.where_ (MelVad.nosil_mask
                                 (MelVad.with_top_db self high) mel_db)))%nat)
  /\ (forall (self : SigVad.t) (y : list R),
        SigVad.signal_db rms (SigVad.with_top_db self low) y
        = SigVad.signal_db rms (SigVad.with_top_db self high) y
        /\ forall signal_db : list R,
            exists nosil_low nosil_high sil_low sil_high : list bool,
              SigVad.sil_mask (SigVad.with_top_db self low) signal_db "nosil"
              = Ok nosil_low
              /\ SigVad.sil_mask (SigVad.with_top_db self high) signal_db
                   "nosil" = Ok nosil_high
              /\ SigVad.sil_mask (SigVad.with_top_db self low) signal_db "sil"
                 = Ok sil_low
              /\ SigVad.sil_mask (SigVad.with_top_db self high) signal_db
                   "sil" = Ok sil_high
              /\ incl (Np.where_ nosil_low) (Np.where_ nosil_high)
              /\ (List.length (Np.where_ nosil_low)
                  <= List.length (Np.where_ nosil_high))%nat
              /\ incl (Np.where_ sil_high) (Np.where_ sil_low)
              /\ (List.length (Np.where_ sil_high)
                  <= List.length (Np.where_ sil_low))%nat).
Proof.
  intros Htop.
  assert (Hgt : forall d : R,
             Np.gt d (- low) = true -> Np.gt d (- high) = true).
  { intros d. rewrite !MelFacts.gt_true. lra. }
  assert (Hlt : forall d : R,
             Np.lt d (- high) = true -> Np.lt d (- low) = true).
  { intros d. rewrite !MelFacts.lt_true. lra. }
  split.
  - intros self mels g. split; [reflexivity|].
    intros db. split.
    + apply ThresholdFacts.where_mono, Hgt.
    + apply ThresholdFacts.where_count_mono, Hgt.
  - intros self y. split; [reflexivity|].
    intros db. unfold SigVad.sil_mask. simpl.
    do 4 eexists. repeat (split; [reflexivity|]).
    split; [|split; [|split]].
    + apply ThresholdFacts.where_mono, Hgt.
    + apply ThresholdFacts.where_count_mono, Hgt.
    + apply ThresholdFacts.where_mono, Hlt.
    + apply ThresholdFacts.where_count_mono, Hlt.
Qed.

Lemma threshold_monotone_witness :
  incl (Np.where_ (MelVad.nosil_mask
                     (MelVad.with_top_db MelVad.init_default 25)
                     [(-30)%R; 0%R]))
       (Np.where_ (MelVad.nosil_mask
                     (MelVad.with_top_db MelVad.init_default 35)
                     [(-30)%R; 0%R])).
Proof.
  assert (H : (25 <= 35)%R) by lra.
  destruct (threshold_monotone Librosa.rms 25 35 H) as [Hmel _].
  destruct (Hmel MelVad.init_default (Np.mk_matrix 80 []) false) as [_ Hdb].
  destruct (Hdb [(-30)%R; 0%R]) as [Hincl _].
  exact Hincl.
Defined.

(** ** A single frame against its own power *)

Module LabelFacts.

Import MelVad.
Local Open Scope R_scope.

Lemma own_reference_db (p : R) :
  0 <= p ->
  Librosa.power_to_db [p] (Librosa.RefValue p) = Ok [0].
Proof.
  intros Hp. unfold Librosa.power_to_db. simpl.
  rewrite (Rabs_pos_eq p Hp). do 2 f_equal. lra.
Qed.

Lemma single_frame_db (self : t) (frame : list R) :
  mel_db self (Np.mk_matrix 80 [frame]) false = Ok [0].
Proof.
  unfold mel_db. rewrite orb_true_r. simpl assert. cbn [bind].
  rewrite MelFacts.get_mel_power_ok by reflexivity. cbn [bind].
  simpl Np.frames. unfold feature_to_power_reference. simpl map.
  unfold Np.max. simpl fold_left. cbn [bind].
  apply own_reference_db. apply MelFacts.frame_power_nonneg.
Qed.

Lemma max_repeat (p : R) (n : nat) : Np.max (repeat p (S n)) = Ok p.
Proof.
  simpl. f_equal. induction n as [|n IH]; simpl; [reflexivity|].
  rewrite Rmax_left by lra. exact IH.
Qed.

(** Frames that are all equal are all at 0 dB of their maximum. *)
Lemma uniform_frames_db (self : t) (frame : list R) (n : nat) :
  mel_db self (Np.mk_matrix 80 (repeat frame (S n))) false
  = Ok (repeat 0 (S n)).
Proof.
  unfold mel_db. rewrite orb_true_r. simpl assert. cbn [bind].
  rewrite MelFacts.get_mel_power_ok by reflexivity. cbn [bind].
  cbn [Np.frames]. unfold feature_to_power_reference.
  rewrite map_repeat, max_repeat. cbn [bind].
  unfold Librosa.power_to_db. cbn [bind]. rewrite map_repeat.
  do 2 f_equal. rewrite Rabs_pos_eq by apply MelFacts.frame_power_nonneg.
  lra.
Qed.

End LabelFacts.

(** C10.  For every feature input of a single frame of 80 bands and
    every [top_db > 0], [MelVad.get_vad_label] with
    [using_global_ref=False] returns [True]: the reference is the maximum
    of the per-frame powers, which is the power of the only frame, so the
    decibel value of that frame is 0, and [0 > -top_db]. *)
Theorem single_frame_label_is_speech (self : MelVad.t) (frame : list R) :
  Np.well_shaped (Np.mk_matrix 80 [frame]) ->
  (0 < MelVad.top_db self)%R ->
  MelVad.mel_db self (Np.mk_matrix 80 [frame]) false = Ok [0%R]
  /\ MelVad.get_vad_label self (Np.mk_matrix 80 [frame]) false = Ok true.
Proof.
  intros _ Htop.
  pose proof (LabelFacts.single_frame_db self frame) as Hdb.
  split; [exact Hdb|].
  unfold MelVad.get_vad_label. rewrite Hdb. cbn [bind]. f_equal.
  apply MelFacts.gt_true. lra.
Qed.

Lemma single_frame_label_is_speech_witness :
  MelVad.mel_db MelVad.init_default (Np.mk_matrix 80 [repeat 0%R 80]) false
  = Ok [0%R]
  /\ MelVad.get_vad_label MelVad.init_default
       (Np.mk_matrix 80 [repeat 0%R 80]) false = Ok true.
Proof.
  apply (single_frame_label_is_speech MelVad.init_default (repeat 0%R 80)).
  - constructor; [reflexivity|constructor].
  - simpl. lra.
Defined.

(** ** Ordered interval lists *)

Module IntervalFacts.

Import Intervals.

Section Order.

Variable T : Type.
Variables lt le gap : T -> T -> Prop.
Hypothesis gap_le : forall x y, gap x y -> le x y.
Hypothesis lt_gap : forall x y z, lt x y -> gap y z -> lt x z.

Lemma chain_filter (f : T * T -> bool) (l : list (T * T)) :
  chain lt gap l -> chain lt gap (filter f l).
Proof.
  induction l as [|a l IH]; simpl; [auto|].
  intros (Ha & Hl & Hc). destruct (f a); simpl; auto.
  split; [exact Ha|]. split; [|auto].
  apply Forall_forall. intros b Hb. apply filter_In in Hb.
  rewrite Forall_forall in Hl. apply Hl, Hb.
Qed.

Lemma chain_later (l : list (T * T)) :
  chain lt gap l ->
  forall i j a b,
    (i < j)%nat -> nth_error l i = Some a -> nth_error l j = Some b ->
    gap (snd a) (fst b).
Proof.
  induction l as [|x l IH]; intros Hc i j a b Hij Ha Hb.
  - destruct i; discriminate.
  - destruct Hc as (Hx & Hl & Hc). destruct j as [|j]; [lia|].
    simpl in Hb. destruct i as [|i].
    + simpl in Ha. inversion Ha; subst.
      rewrite Forall_forall in Hl. apply Hl.
      eapply nth_error_In, Hb.
    + simpl in Ha. apply (IH Hc i j); auto. lia.
Qed.

Lemma chain_each (l : list (T * T)) :
  chain lt gap l ->
  forall i a, nth_error l i = Some a -> lt (fst a) (snd a).
Proof.
  induction l as [|x l IH]; intros Hc i a Ha.
  - destruct i; discriminate.
  - destruct Hc as (Hx & _ & Hc). destruct i as [|i]; simpl in Ha.
    + inversion Ha; subst. exact Hx.
    + apply (IH Hc i), Ha.
Qed.

Lemma chain_ordered (l : list (T * T)) :
  chain lt gap l -> ordered lt le l.
Proof.
  intros Hc. split; [|split].
  - apply chain_each, Hc.
  - intros i a b Ha Hb. apply gap_le.
    apply (chain_later l Hc i (S i)); auto.
  - intros i j a b Hij Ha Hb.
    apply lt_gap with (y := snd a).
    + apply (chain_each l Hc i), Ha.
    + apply (chain_later l Hc i j); auto.
Qed.

End Order.

Import Runs.

Lemma scaled_chain (hop : Z) (l : list (Z * Z)) :
  0 < hop ->
  forall lo,
    separated_from lo l ->
    chain Z.lt Z.lt (filter long_enough (map (in_samples hop) l))
    /\ Forall (fun b => lo * hop <= fst b)
         (filter long_enough (map (in_samples hop) l)).
Proof.
  intros Hhop. induction l as [|[s e] l IH]; intros lo Hsep.
  - simpl. auto.
  - destruct Hsep as (Hlo & Hse & Hsep).
    destruct (IH (e + 2) Hsep) as [Hc Hf].
    assert (Hrest : Forall (fun b => lo * hop <= fst b)
                      (filter long_enough (map (in_samples hop) l))).
    { eapply Forall_impl; [|exact Hf]. simpl. intros b Hb. nia. }
    simpl. destruct (long_enough (in_samples hop (s, e))) eqn:Hlong.
    + split.
      * simpl. split; [|split; [|exact Hc]].
        -- unfold long_enough in Hlong. simpl in Hlong.
           apply Z.ltb_lt in Hlong. lia.
        -- eapply Forall_impl; [|exact Hf]. simpl. intros b Hb. nia.
      * constructor; [simpl; nia|exact Hrest].
    + split; assumption.
Qed.

Lemma scaled_empty (hop : Z) (l : list (Z * Z)) :
  hop <= 0 ->
  forall lo,
    separated_from lo l ->
    filter long_enough (map (in_samples hop) l) = [].
Proof.
  intros Hhop. induction l as [|[s e] l IH]; intros lo Hsep; [reflexivity|].
  destruct Hsep as (Hlo & Hse & Hsep). simpl.
  rewrite (IH (e + 2) Hsep).
  unfold long_enough. simpl.
  destruct (Z.ltb_spec 1 (e * hop - s * hop)); [nia|reflexivity].
Qed.

Lemma in_samples_one (l : list (Z * Z)) : map (in_samples 1) l = l.
Proof.
  induction l as [|[s e] l IH]; simpl; [reflexivity|].
  rewrite IH. unfold in_samples. simpl. now rewrite !Z.mul_1_r.
Qed.

Lemma sample_runs_chain (hop : Z) (mask : list bool) :
  chain Z.lt Z.lt
    (filter long_enough (map (in_samples hop) (maximal_runs mask))).
Proof.
  pose proof (ScanFacts.maximal_runs_separated mask) as Hsep.
  destruct (Z.lt_ge_cases 0 hop) as [Hhop|Hhop].
  - apply (scaled_chain hop _ Hhop 0 Hsep).
  - rewrite (scaled_empty hop _ Hhop 0 Hsep). exact I.
Qed.

Lemma frame_runs_chain (mask : list bool) :
  chain Z.lt Z.lt (filter long_enough (maximal_runs mask)).
Proof.
  rewrite <- (in_samples_one (maximal_runs mask)).
  apply sample_runs_chain.
Qed.

Lemma sample_runs_positive_hop (hop : Z) (mask : list bool) :
  filter long_enough (map (in_samples hop) (maximal_runs mask)) <> [] ->
  0 < hop.
Proof.
  intros Hne. destruct (Z.lt_ge_cases 0 hop) as [Hhop|Hhop]; [exact Hhop|].
  exfalso. apply Hne.
  apply (scaled_empty hop _ Hhop 0 (ScanFacts.maximal_runs_separated mask)).
Qed.

Lemma Z_ordered (l : list (Z * Z)) :
  chain Z.lt Z.lt l -> ordered Z.lt Z.le l.
Proof.
  apply chain_ordered.
  - intros x y. apply Z.lt_le_incl.
  - intros x y z. apply Z.lt_trans.
Qed.

Lemma Q_ordered (l : list (Q * Q)) :
  chain Qlt Qle l -> ordered Qlt Qle l.
Proof.
  apply chain_ordered.
  - auto.
  - intros x y z. apply Qlt_le_trans.
Qed.

End IntervalFacts.

(** ** Speech endpoints *)

Module SpeechFacts.

Import Intervals Runs SigVad.
Local Open Scope Q_scope.

Lemma time_gt_true (a b : Q) : gt a b = true <-> b < a.
Proof.
  unfold gt. rewrite negb_true_iff. split.
  - intros H. apply Qnot_le_lt. intros Hle.
    apply Qle_bool_iff in Hle. congruence.
  - intros H. destruct (Qle_bool a b) eqn:E; [|reflexivity].
    apply Qle_bool_iff in E. exfalso. lra.
Qed.

Lemma inject_pos (r : Z) : (0 < r)%Z -> 0 < inject_Z r.
Proof. intros H. change 0 with (inject_Z 0). now rewrite <- Zlt_Qlt. Qed.

Lemma div_lt (a b r : Z) :
  (0 < r)%Z -> (a < b)%Z -> inject_Z a / inject_Z r < inject_Z b / inject_Z r.
Proof.
  intros Hr Hab. unfold Qdiv. apply Qmult_lt_compat_r.
  - apply Qinv_lt_0_compat, inject_pos, Hr.
  - now rewrite <- Zlt_Qlt.
Qed.

Lemma seconds_chain (sr : Z) (l : list (Z * Z)) :
  (0 < sr)%Z -> chain Z.lt Z.lt l -> chain Qlt Qlt (map (to_seconds sr) l).
Proof.
  intros Hr. induction l as [|[s e] l IH]; simpl; [auto|].
  intros (Hse & Hl & Hc). split; [|split; [|auto]].
  - apply div_lt; assumption.
  - apply Forall_forall. intros b Hb. apply in_map_iff in Hb.
    destruct Hb as ([s' e'] & <- & Hin). simpl.
    rewrite Forall_forall in Hl. specialize (Hl _ Hin). simpl in Hl.
    apply div_lt; assumption.
Qed.

Lemma sil_seconds_chain (sil : list (Z * Z)) (sr : Z) (min_sil_dur : Q) :
  (0 < sr)%Z -> chain Z.lt Z.lt sil ->
  chain Qlt Qlt (sil_seconds sil sr min_sil_dur).
Proof.
  intros Hr Hc. unfold sil_seconds.
  apply (seconds_chain sr _ Hr).
  apply IntervalFacts.chain_filter, Hc.
Qed.

Lemma sil_seconds_duration (sil : list (Z * Z)) (sr : Z) (min_sil_dur : Q)
  (i : Q * Q) :
  (0 < sr)%Z -> In i (sil_seconds sil sr min_sil_dur) ->
  min_sil_dur < duration i.
Proof.
  intros Hr Hin. unfold sil_seconds in Hin. apply in_map_iff in Hin.
  destruct Hin as ([s e] & <- & Hin). apply filter_In in Hin.
  destruct Hin as [_ Hlong]. simpl in Hlong. apply time_gt_true in Hlong.
  unfold duration. simpl.
  pose proof (inject_pos sr Hr) as Hpos.
  assert (Hq : inject_Z e / inject_Z sr - inject_Z s / inject_Z sr
               == inject_Z (e - s) / inject_Z sr).
  { unfold Z.sub. rewrite inject_Z_plus, inject_Z_opp. field. lra. }
  rewrite Hq. apply Qlt_shift_div_l; [exact Hpos|].
  rewrite Qmult_comm. exact Hlong.
Qed.

Lemma later_part_chain (rest : list (Q * Q)) :
  forall (a d : Q * Q) (dur : Q),
    chain Qlt Qlt (a :: rest) ->
    chain Qlt Qle (later_part (a :: rest) d dur)
    /\ Forall (fun b => snd a <= fst b) (later_part (a :: rest) d dur).
Proof.
  induction rest as [|b rest IH]; intros a d dur Hc.
  - unfold later_part. simpl.
    destruct (gt (dur - snd a) 0.001) eqn:Hg.
    + apply time_gt_true in Hg. simpl. repeat split; auto.
      * lra.
      * constructor; [simpl; lra|constructor].
    + simpl. auto.
  - destruct Hc as (Ha & Hl & Hc).
    destruct (IH b d dur Hc) as [Hc' Hf'].
    assert (Hab : snd a < fst b).
    { inversion Hl; subst. assumption. }
    assert (Hb : fst b < snd b) by (destruct Hc as (Hb & _); exact Hb).
    change (later_part (a :: b :: rest) d dur)
      with ((snd a, fst b) :: later_part (b :: rest) d dur).
    split.
    + simpl. split; [exact Hab|]. split; [|exact Hc'].
      eapply Forall_impl; [|exact Hf']. simpl. intros c Hcb. lra.
    + constructor; [simpl; lra|].
      eapply Forall_impl; [|exact Hf']. simpl. intros c Hcb. lra.
Qed.

Lemma complement_chain (sil : list (Q * Q)) (dur : Q) :
  chain Qlt Qlt sil -> chain Qlt Qle (complement_reference sil dur).
Proof.
  destruct sil as [|first rest]; [simpl; auto|]. intros Hc.
  destruct (later_part_chain rest first first dur Hc) as [Hc' Hf'].
  assert (Hfirst : fst first < snd first) by (destruct Hc as (H & _); exact H).
  unfold complement_reference.
  change (between (first :: rest)
          ++ (if gt (dur - snd (last (first :: rest) first)) 0.001
              then [(snd (last (first :: rest) first), dur)] else []))
    with (later_part (first :: rest) first dur).
  destruct (gt (fst first) 0.001) eqn:Hg; [|exact Hc'].
  apply time_gt_true in Hg. simpl. split; [lra|]. split; [|exact Hc'].
  eapply Forall_impl; [|exact Hf']. simpl. intros c Hcb. lra.
Qed.

End SpeechFacts.

(** ** Digital silence *)

Module SilenceFacts.

Import Runs.
Import Np (all_zero).

Lemma all_zero_firstn (n : nat) (l : list R) :
  all_zero l -> all_zero (firstn n l).
Proof.
  intros H. revert n. induction H as [|x l Hx _ IH]; intros [|n]; simpl;
    constructor; auto. apply IH.
Qed.

Lemma all_zero_skipn (n : nat) (l : list R) :
  all_zero l -> all_zero (skipn n l).
Proof.
  intros H. revert n. induction H as [|x l Hx Hl IH]; intros [|n]; simpl;
    auto; constructor; auto.
Qed.

Lemma all_zero_nth (l : list R) (n : nat) : all_zero l -> nth n l 0%R = 0%R.
Proof.
  intros H. revert n. induction H as [|x l Hx _ IH]; intros [|n]; simpl; auto.
Qed.

Lemma all_zero_map (A : Type) (f : A -> R) (l : list A) :
  (forall a, In a l -> f a = 0%R) -> all_zero (map f l).
Proof.
  intros H. apply Forall_forall. intros y Hy.
  apply in_map_iff in Hy. destruct Hy as (a & <- & Ha).
  symmetry. apply H, Ha.
Qed.

Lemma sum_squares_zero (l : list R) :
  all_zero l -> Np.sum (map (fun v => (Rabs v ^ 2)%R) l) = 0%R.
Proof.
  induction 1 as [|x l Hx _ IH]; [reflexivity|].
  unfold Np.sum in *. cbn [map fold_right].
  rewrite IH. subst x. rewrite Rabs_R0. lra.
Qed.

Lemma mean_square_zero (l : list R) :
  all_zero l -> Librosa.mean_square l = 0%R.
Proof.
  intros H. unfold Librosa.mean_square. rewrite (sum_squares_zero l H).
  unfold Rdiv. apply Rmult_0_l.
Qed.

Lemma range_from_length (lo : Z) (n : nat) :
  List.length (Np.range_from lo n) = n.
Proof.
  revert lo. induction n as [|n IH]; intros lo; simpl; [|rewrite IH];
    reflexivity.
Qed.

Lemma range_len (lo hi : Z) : Np.len (Np.range lo hi) = Z.max 0 (hi - lo).
Proof. unfold Np.len, Np.range. rewrite range_from_length. lia. Qed.

Lemma pad_reflect_zero (pad : Z) (y : list R) :
  all_zero y -> all_zero (Librosa.pad_reflect pad y).
Proof.
  intros H. unfold Librosa.pad_reflect. apply all_zero_map.
  intros i _. apply all_zero_nth, H.
Qed.

Lemma pad_reflect_len (pad : Z) (y : list R) :
  0 <= pad ->
  Np.len (Librosa.pad_reflect pad y) = Np.len y + 2 * pad.
Proof.
  intros Hp. unfold Librosa.pad_reflect.
  rewrite DropFacts.len_map, range_len.
  pose proof (ScanFacts.len_nonneg _ y). lia.
Qed.

(** The energy of an all-zero signal: [1 + len(y) // hop_length] frames
    when [frame_length] is even, all of them zero. *)
Lemma rms_silence (y : list R) (frame_length hop_length : Z) :
  y <> [] -> all_zero y -> 1 <= frame_length -> 1 <= hop_length ->
  exists frames,
    Librosa.rms y frame_length hop_length = Ok frames
    /\ all_zero frames
    /\ Np.len frames
       = 1 + (Np.len y + 2 * (frame_length / 2) - frame_length)
             / hop_length.
Proof.
  intros Hy Hz Hfl Hhl. unfold Librosa.rms.
  assert (Hlen : 1 <= Np.len y).
  { destruct y; [congruence|]. rewrite ScanFacts.len_cons.
    pose proof (ScanFacts.len_nonneg _ y). lia. }
  destruct (Z.eqb_spec (Np.len y) 0); [lia|].
  destruct (Z.ltb_spec frame_length 1); [lia|].
  destruct (Z.ltb_spec hop_length 1); [lia|]. simpl orb. cbv iota.
  assert (Hhalf : 0 <= frame_length / 2) by (apply Z.div_pos; lia).
  rewrite (pad_reflect_len _ y Hhalf).
  assert (Hfit : frame_length <= Np.len y + 2 * (frame_length / 2)).
  { pose proof (Z.mod_pos_bound frame_length 2 ltac:(lia)).
    pose proof (Z.div_mod frame_length 2 ltac:(lia)). lia. }
  destruct (Z.ltb_spec (Np.len y + 2 * (frame_length / 2)) frame_length);
    [lia|].
  eexists. split; [reflexivity|]. split.
  - apply all_zero_map. intros t _.
    rewrite mean_square_zero; [apply sqrt_0|].
    apply all_zero_firstn, all_zero_skipn, pad_reflect_zero, Hz.
  - rewrite DropFacts.len_map, range_len.
    assert (0 <= (Np.len y + 2 * (frame_length / 2) - frame_length)
                 / hop_length) by (apply Z.div_pos; lia).
    lia.
Qed.

Lemma max_zero (l : list R) :
  l <> [] -> all_zero l -> Np.max l = Ok 0%R.
Proof.
  intros Hl Hz. destruct l as [|x l]; [congruence|].
  inversion Hz as [|? ? Hx Hl']; subst. simpl. f_equal.
  clear Hl Hz. induction Hl' as [|x l Hx _ IH]; simpl; [reflexivity|].
  subst x. rewrite Rmax_left by lra. exact IH.
Qed.

Lemma no_runs (mask : list bool) :
  Forall (eq false) mask -> forall i, runs_from i None mask = [].
Proof.
  induction 1 as [|b mask Hb _ IH]; intros i; simpl; [reflexivity|].
  subst b. apply IH.
Qed.

(** A signal whose energy frames are all zero has no silent frame when
    the reference is the maximum: every frame is at 0 dB. *)
Lemma zero_energy_no_silence
  (rms : list R -> Z -> Z -> result (list R))
  (self : SigVad.t) (y frames : list R) :
  rms y (SigVad.frame_length self) (SigVad.hop_length self) = Ok frames ->
  all_zero frames -> 2 <= Np.len frames ->
  SigVad.ref self = Librosa.RefCallable Np.max ->
  (0 <= SigVad.top_db self)%R ->
  SigVad._get_sil_endpoints rms self y "sil" = Ok [].
Proof.
  intros Hrms Hz Hlen Href Htop.
  rewrite DropFacts.sig_endpoints. unfold SigVad.signal_db.
  rewrite Hrms. cbn [bind].
  assert (Hmse : all_zero (map (fun r => (r ^ 2)%R) frames)).
  { apply all_zero_map. intros a Ha. unfold all_zero in Hz.
    rewrite Forall_forall in Hz. rewrite <- (Hz a Ha). lra. }
  assert (Hne : map (fun r => (r ^ 2)%R) frames <> []).
  { destruct frames; [|discriminate]. unfold Np.len in Hlen.
    simpl in Hlen. lia. }
  unfold Librosa.power_to_db. rewrite Href, (max_zero _ Hne Hmse).
  cbn [bind]. unfold SigVad.sil_mask. simpl String.eqb. cbv iota.
  cbn [bind]. rewrite !DropFacts.len_map.
  destruct (Z.eqb_spec (Np.len frames) 1); [lia|]. cbn [bind].
  unfold maximal_runs. rewrite no_runs; [reflexivity|].
  apply Forall_forall. intros b Hb. rewrite !map_map in Hb.
  apply in_map_iff in Hb. destruct Hb as (a & <- & Ha).
  unfold all_zero in Hz. rewrite Forall_forall in Hz.
  rewrite <- (Hz a Ha).
  unfold Np.lt. destruct (Rlt_dec _ _) as [Hlt|]; [|reflexivity].
  exfalso. replace (0 ^ 2)%R with 0%R in Hlt by lra. lra.
Qed.

Lemma log10_amin : Librosa.log10 Librosa.amin = (-10)%R.
Proof.
  unfold Librosa.log10.
  assert (H10 : (0 < ln 10)%R).
  { rewrite <- ln_1. apply ln_increasing; lra. }
  replace Librosa.amin with (/ 10 ^ 10)%R by (unfold Librosa.amin; lra).
  rewrite ln_Rinv by (apply pow_lt; lra).
  rewrite ln_pow by lra. simpl INR. field. lra.
Qed.

Lemma log10_1 : Librosa.log10 1 = 0%R.
Proof. unfold Librosa.log10. rewrite ln_1. unfold Rdiv. apply Rmult_0_l. Qed.

(** For a reference at or above the floor, the decibel value is the
    logarithm of the quotient, as section 4.1 writes it. *)
Lemma power_to_db_quotient (S : list R) (r : R) :
  (Librosa.amin <= Rabs r)%R ->
  Librosa.power_to_db S (Librosa.RefValue r)
  = Ok (map (fun v => (10 * Librosa.log10 (Rmax v Librosa.amin / Rabs r))%R)
          S).
Proof.
  intros Hr. unfold Librosa.power_to_db. cbn [bind]. f_equal.
  apply map_ext. intros v.
  assert (Hamin : (0 < Librosa.amin)%R) by (unfold Librosa.amin; lra).
  rewrite (Rmax_right Librosa.amin (Rabs r)) by exact Hr.
  rewrite (Rmax_comm Librosa.amin v).
  assert (Hv : (0 < Rmax v Librosa.amin)%R).
  { eapply Rlt_le_trans; [exact Hamin|apply Rmax_r]. }
  assert (Hr0 : (0 < Rabs r)%R) by lra.
  assert (H10 : (0 < ln 10)%R).
  { rewrite <- ln_1. apply ln_increasing; lra. }
  unfold Librosa.log10.
  replace (ln (Rmax v Librosa.amin / Rabs r))
    with (ln (Rmax v Librosa.amin) - ln (Rabs r))%R.
  - field. lra.
  - unfold Rdiv at 1. rewrite ln_mult by (auto using Rinv_0_lt_compat).
    rewrite ln_Rinv by exact Hr0. lra.
Qed.

(** Against the fixed reference 1, zero energy is at -100 dB: every
    frame is silent for a threshold below 100. *)
Lemma zero_energy_all_silent
  (rms : list R -> Z -> Z -> result (list R))
  (self : SigVad.t) (y frames : list R) :
  rms y (SigVad.frame_length self) (SigVad.hop_length self) = Ok frames ->
  all_zero frames -> 2 <= Np.len frames ->
  SigVad.ref self = Librosa.RefValue 1 ->
  (SigVad.top_db self < 100)%R ->
  SigVad._get_sil_endpoints rms self y "sil"
  = Ok (filter long_enough
          (map (in_samples (SigVad.hop_length self))
             (maximal_runs (repeat true (List.length frames))))).
Proof.
  intros Hrms Hz Hlen Href Htop.
  rewrite DropFacts.sig_endpoints. unfold SigVad.signal_db.
  rewrite Hrms. cbn [bind].
  unfold Librosa.power_to_db. rewrite Href. cbn [bind].
  unfold SigVad.sil_mask. simpl String.eqb. cbv iota.
  cbn [bind]. rewrite !DropFacts.len_map.
  destruct (Z.eqb_spec (Np.len frames) 1); [lia|]. cbn [bind].
  do 4 f_equal. rewrite !map_map.
  rewrite (Forall_eq_repeat Hz) at 1. rewrite map_repeat. f_equal.
  apply MelFacts.lt_true.
  replace (0 ^ 2)%R with 0%R by lra.
  rewrite Rmax_left by (unfold Librosa.amin; lra).
  rewrite Rabs_R1, Rmax_right by (unfold Librosa.amin; lra).
  rewrite log10_amin, log10_1. lra.
Qed.

End SilenceFacts.

(** ** [get_speech_endpoint] *)

Module EndpointFacts.

Import Intervals Runs SigVad.

Section Externals.

Variable rms : list R -> Z -> Z -> result (list R).
Variable load : string -> Z -> result (list R * Z).

(** What remains of [get_speech_endpoint] once the signal and a
    non-zero sample rate are known. *)
Lemma resolved (self : t) (wav_path : option string)
  (signal : option (list R)) (sr : option Z) (min_sil min_nosil : Q)
  (y : list R) (r : Z) :
  resolve load wav_path signal sr = Ok (y, r) -> r <> 0 ->
  get_speech_endpoint rms load self wav_path signal sr min_sil min_nosil
  = (sil_data <- _get_sil_endpoints rms self y "sil" ;;
     if Np.len (sil_seconds sil_data r min_sil) =? 0
     then Ok [(0%Q, (inject_Z (Np.len y) / inject_Z r)%Q)]
     else
       nosil_data <-
         _sil_to_nosil (sil_seconds sil_data r min_sil)
           (inject_Z (Np.len y) / inject_Z r)%Q ;;
       Ok (filter (fun se => gt (snd se - fst se)%Q min_nosil)
             nosil_data)).
Proof.
  intros Hres Hr. unfold get_speech_endpoint. rewrite Hres. cbn [bind].
  simpl fst. simpl snd.
  destruct (Z.eqb_spec r 0); [contradiction|reflexivity].
Qed.

Lemma len_zero (A : Type) (l : list A) :
  (Np.len l =? 0) = true <-> l = [].
Proof.
  rewrite Z.eqb_eq. unfold Np.len. destruct l; simpl; split;
    intros H; try reflexivity; try discriminate; lia.
Qed.

Lemma no_silence (self : t) (wav_path : option string)
  (signal : option (list R)) (sr : option Z) (min_sil min_nosil : Q)
  (y : list R) (r : Z) (sil : list (Z * Z)) :
  resolve load wav_path signal sr = Ok (y, r) -> r <> 0 ->
  _get_sil_endpoints rms self y "sil" = Ok sil ->
  sil_seconds sil r min_sil = [] ->
  get_speech_endpoint rms load self wav_path signal sr min_sil min_nosil
  = Ok [(0%Q, (inject_Z (Np.len y) / inject_Z r)%Q)].
Proof.
  intros Hres Hr Hsil Hnone.
  rewrite (resolved self _ _ _ min_sil min_nosil _ _ Hres Hr), Hsil. cbn [bind].
  rewrite Hnone. reflexivity.
Qed.

Lemma some_silence (self : t) (wav_path : option string)
  (signal : option (list R)) (sr : option Z) (min_sil min_nosil : Q)
  (y : list R) (r : Z) (sil : list (Z * Z)) :
  resolve load wav_path signal sr = Ok (y, r) -> r <> 0 ->
  _get_sil_endpoints rms self y "sil" = Ok sil ->
  sil_seconds sil r min_sil <> [] ->
  get_speech_endpoint rms load self wav_path signal sr min_sil min_nosil
  = Ok (filter (fun se => gt (snd se - fst se)%Q min_nosil)
          (complement_reference (sil_seconds sil r min_sil)
             (inject_Z (Np.len y) / inject_Z r)%Q)).
Proof.
  intros Hres Hr Hsil Hsome.
  rewrite (resolved self _ _ _ min_sil min_nosil _ _ Hres Hr), Hsil. cbn [bind].
  destruct (Np.len (sil_seconds sil r min_sil) =? 0) eqn:Hlen.
  - apply len_zero in Hlen. contradiction.
  - rewrite ComplementFacts.sil_to_nosil_reference by exact Hsome.
    reflexivity.
Qed.

Lemma sil_endpoints_chain (self : t) (y : list R) (sil_type : string)
  (out : list (Z * Z)) :
  _get_sil_endpoints rms self y sil_type = Ok out ->
  chain Z.lt Z.lt out.
Proof.
  rewrite DropFacts.sig_endpoints.
  destruct (signal_db rms self y) as [db|]; [|discriminate]. cbn [bind].
  destruct (sil_mask self db sil_type) as [mask|]; [|discriminate].
  cbn [bind]. destruct (Np.len db =? 1); [discriminate|]. cbn [bind].
  intros H. inversion H. apply IntervalFacts.sample_runs_chain.
Qed.

Lemma speech_chain (self : t) (wav_path : option string)
  (signal : option (list R)) (sr : option Z) (min_sil min_nosil : Q)
  (y : list R) (r : Z) (out : list (Q * Q)) :
  resolve load wav_path signal sr = Ok (y, r) -> 0 < r -> y <> [] ->
  get_speech_endpoint rms load self wav_path signal sr min_sil min_nosil
  = Ok out ->
  chain Qlt Qle out.
Proof.
  intros Hres Hr Hy Hout.
  assert (Hr0 : r <> 0) by lia.
  destruct (_get_sil_endpoints rms self y "sil") as [sil|err] eqn:Hsil.
  2:{ rewrite (resolved self _ _ _ min_sil min_nosil _ _ Hres Hr0), Hsil in Hout.
      discriminate. }
  destruct (sil_seconds sil r min_sil) as [|a sd] eqn:Hsd.
  - rewrite (no_silence self _ _ _ min_sil min_nosil _ _ _ Hres Hr0 Hsil Hsd) in Hout.
    inversion Hout. simpl. split; [|auto]. simpl.
    apply Qlt_shift_div_l; [apply SpeechFacts.inject_pos, Hr|].
    rewrite Qmult_0_l. apply SpeechFacts.inject_pos.
    destruct y; [congruence|]. rewrite ScanFacts.len_cons.
    pose proof (ScanFacts.len_nonneg _ y). lia.
  - rewrite (some_silence self _ _ _ min_sil min_nosil _ _ _ Hres Hr0 Hsil)
      in Hout by (rewrite Hsd; discriminate).
    inversion Hout. apply IntervalFacts.chain_filter.
    apply SpeechFacts.complement_chain.
    apply SpeechFacts.sil_seconds_chain; [exact Hr|].
    apply (sil_endpoints_chain self y "sil"), Hsil.
Qed.

End Externals.

Lemma rms_empty (frame_length hop_length : Z) :
  Librosa.rms [] frame_length hop_length = Raise ValueError.
Proof. reflexivity. Qed.

(** With librosa's extractor an empty signal returns nothing. *)
Lemma librosa_speech_chain (load : string -> Z -> result (list R * Z))
  (self : t) (wav_path : option string)
  (signal : option (list R)) (sr : option Z) (min_sil min_nosil : Q)
  (y : list R) (r : Z) (out : list (Q * Q)) :
  resolve load wav_path signal sr = Ok (y, r) -> 0 < r ->
  get_speech_endpoint Librosa.rms load self wav_path signal sr
    min_sil min_nosil = Ok out ->
  chain Qlt Qle out.
Proof.
  intros Hres Hr Hout.
  apply (speech_chain Librosa.rms load self wav_path signal sr
           min_sil min_nosil y r out Hres Hr); [|exact Hout].
  intros ->.
  rewrite (resolved Librosa.rms load self _ _ _ min_sil min_nosil _ _ Hres)
    in Hout by lia.
  unfold _get_sil_endpoints, signal_db in Hout.
  rewrite rms_empty in Hout. discriminate.
Qed.

End EndpointFacts.

(** ** The default analyser on digital silence *)

Module DefaultFacts.

Import SigVad.

Lemma repeat_all_zero (n : nat) : Np.all_zero (repeat 0%R n).
Proof. apply Forall_forall. intros x Hx. symmetry. eapply repeat_spec, Hx. Qed.

Lemma repeat_len (n : Z) : 0 <= n -> Np.len (repeat 0%R (Z.to_nat n)) = n.
Proof. intros Hn. unfold Np.len. rewrite repeat_length. lia. Qed.

Lemma silent_frames (y : list R) :
  Np.all_zero y -> 256 <= Np.len y ->
  exists frames,
    Librosa.rms y 1024 256 = Ok frames
    /\ Np.all_zero frames /\ 2 <= Np.len frames.
Proof.
  intros Hz Hlen.
  assert (Hy : y <> []) by (intros ->; unfold Np.len in Hlen; simpl in Hlen; lia).
  destruct (SilenceFacts.rms_silence y 1024 256 Hy Hz) as (frames & Hr & Hf & Hl);
    try lia.
  exists frames. split; [exact Hr|]. split; [exact Hf|].
  rewrite Hl. change (1024 / 2) with 512.
  replace (Np.len y + 2 * 512 - 1024) with (Np.len y) by lia.
  assert (1 <= Np.len y / 256) by (apply Z.div_le_lower_bound; lia).
  lia.
Qed.

Lemma silent_signal (y : list R) :
  Np.all_zero y -> 256 <= Np.len y ->
  _get_sil_endpoints Librosa.rms init_default y "sil" = Ok [].
Proof.
  intros Hz Hlen.
  destruct (silent_frames y Hz Hlen) as (frames & Hr & Hf & Hl).
  apply (SilenceFacts.zero_energy_no_silence Librosa.rms init_default
           y frames); auto.
  simpl. lra.
Qed.

(** A clip of [n] zero samples, at least one hop long, has no silent
    frame for the default analyser, which returns it whole. *)
Lemma silent_clip (n sr : Z) (min_sil min_nosil : Q) :
  256 <= n -> sr <> 0 ->
  get_speech_endpoint Librosa.rms Librosa.load_no_file init_default
    None (Some (repeat 0%R (Z.to_nat n))) (Some sr) min_sil min_nosil
  = Ok [(0%Q, (inject_Z n / inject_Z sr)%Q)].
Proof.
  intros Hn Hsr.
  assert (Hlen : Np.len (repeat 0%R (Z.to_nat n)) = n)
    by (apply repeat_len; lia).
  rewrite <- Hlen at 2.
  apply (EndpointFacts.no_silence Librosa.rms Librosa.load_no_file
           init_default None (Some (repeat 0%R (Z.to_nat n))) (Some sr)
           min_sil min_nosil (repeat 0%R (Z.to_nat n)) sr []).
  - reflexivity.
  - exact Hsr.
  - apply silent_signal; [apply repeat_all_zero|]. rewrite Hlen. exact Hn.
  - reflexivity.
Qed.

(** Three equal frames are one run of speech. *)
Lemma uniform_mel_clip :
  MelVad.get_nosil_endpoints MelVad.init_default
    (Np.mk_matrix 80 (repeat (repeat 0%R 80) 3)) false
  = Ok [(0, 2)].
Proof.
  rewrite DropFacts.mel_endpoints.
  rewrite (LabelFacts.uniform_frames_db MelVad.init_default
             (repeat 0%R 80) 2).
  cbn [bind]. unfold MelVad.nosil_mask. simpl map.
  replace (Np.gt 0 (Ropp 25)) with true
    by (symmetry; apply MelFacts.gt_true; lra).
  reflexivity.
Qed.

(** The default configuration with the fixed reference power 1. *)
Lemma fixed_reference_clip :
  _get_sil_endpoints Librosa.rms (mk 25 1024 256 (Librosa.RefValue 1))
    (repeat 0%R (Z.to_nat 48000)) "sil"
  = Ok [(0, 47872)].
Proof.
  assert (Hlen : Np.len (repeat 0%R (Z.to_nat 48000)) = 48000)
    by (apply repeat_len; lia).
  destruct (SilenceFacts.rms_silence (repeat 0%R (Z.to_nat 48000)) 1024 256)
    as (frames & Hr & Hf & Hl); try lia.
  { intros H. rewrite H in Hlen. discriminate. }
  { apply repeat_all_zero. }
  rewrite Hlen in Hl.
  assert (Hn : List.length frames = 188%nat).
  { unfold Np.len in Hl. apply Nat2Z.inj. rewrite Hl. reflexivity. }
  rewrite (SilenceFacts.zero_energy_all_silent Librosa.rms
             (mk 25 1024 256 (Librosa.RefValue 1)) _ frames Hr Hf).
  - rewrite Hn. reflexivity.
  - rewrite Hl. vm_compute. discriminate.
  - reflexivity.
  - simpl. lra.
Qed.

End DefaultFacts.

(** C4.  Whenever no silence interval survives the [min_sil_dur] filter,
    [SigVad.get_speech_endpoint] returns the single interval
    [[(0.0, dur)]] with [dur = len(signal) / sr].  In particular, for the
    default analyser, a waveform of 3.0 seconds whose energy frames are
    all zero (digital silence) gives [[(0.0, 3.0)]] with
    [min_sil_dur = 0.75]. *)
Theorem no_surviving_silence_whole_clip
  (rms : list R -> Z -> Z -> result (list R))
  (load : string -> Z -> result (list R * Z)) :
  (forall (self : SigVad.t) (wav_path : option string)
          (signal : option (list R)) (sr : option Z)
          (min_sil_dur min_nosil_dur : Q)
          (y : list R) (r : Z) (sil_data : list (Z * Z)),
      SigVad.resolve load wav_path signal sr = Ok (y, r) -> r <> 0 ->
      SigVad._get_sil_endpoints rms self y "sil" = Ok sil_data ->
      SigVad.sil_seconds sil_data r min_sil_dur = [] ->
      SigVad.get_speech_endpoint rms load self wav_path signal sr
        min_sil_dur min_nosil_dur
      = Ok [(0%Q, (inject_Z (Np.len y) / inject_Z r)%Q)])
  /\ (forall (y frames : list R) (sr : Z) (min_nosil_dur : Q),
        rms y 1024 256 = Ok frames ->
        Np.all_zero frames -> 2 <= Np.len frames ->
        0 < sr -> Np.len y = 3 * sr ->
        exists dur : Q,
          SigVad.get_speech_endpoint rms load SigVad.init_default
            None (Some y) (Some sr) 0.75 min_nosil_dur
          = Ok [(0%Q, dur)]
          /\ (dur == 3)%Q).
Proof.
  split.
  - intros self wav_path signal sr ms mn y r sil Hres Hr Hsil Hnone.
    apply (EndpointFacts.no_silence rms load self wav_path signal sr ms mn
             y r sil Hres Hr Hsil Hnone).
  - intros y frames sr mn Hrms Hz Hlen Hsr Hdur.
    exists (inject_Z (Np.len y) / inject_Z sr)%Q. split.
    + apply (EndpointFacts.no_silence rms load SigVad.init_default None
               (Some y) (Some sr) 0.75%Q mn y sr []).
      * reflexivity.
      * lia.
      * apply (SilenceFacts.zero_energy_no_silence rms SigVad.init_default
                 y frames); auto. simpl. lra.
      * reflexivity.
    + rewrite Hdur, inject_Z_mult.
      pose proof (SpeechFacts.inject_pos sr Hsr). field. lra.
Qed.

Lemma no_surviving_silence_whole_clip_witness :
  SigVad.get_speech_endpoint Librosa.rms Librosa.load_no_file
    SigVad.init_default None (Some (repeat 0%R (Z.to_nat 48000)))
    (Some 16000) 0.75 0.40
  = Ok [(0%Q, (inject_Z (Np.len (repeat 0%R (Z.to_nat 48000)))
               / inject_Z 16000)%Q)]
  /\ exists dur : Q,
      SigVad.get_speech_endpoint Librosa.rms Librosa.load_no_file
        SigVad.init_default None (Some (repeat 0%R (Z.to_nat 48000)))
        (Some 16000) 0.75 0.40
      = Ok [(0%Q, dur)]
      /\ (dur == 3)%Q.
Proof.
  assert (Hlen : Np.len (repeat 0%R (Z.to_nat 48000)) = 48000)
    by (apply DefaultFacts.repeat_len; lia).
  assert (Hzero : Np.all_zero (repeat 0%R (Z.to_nat 48000)))
    by apply DefaultFacts.repeat_all_zero.
  split.
  - apply (proj1 (no_surviving_silence_whole_clip Librosa.rms
                    Librosa.load_no_file)
             SigVad.init_default None (Some (repeat 0%R (Z.to_nat 48000)))
             (Some 16000) 0.75%Q 0.40%Q
             (repeat 0%R (Z.to_nat 48000)) 16000 []).
    + reflexivity.
    + lia.
    + apply DefaultFacts.silent_signal; [exact Hzero|]. rewrite Hlen. lia.
    + reflexivity.
  - destruct (DefaultFacts.silent_frames (repeat 0%R (Z.to_nat 48000)))
      as (frames & Hrms & Hz & Hframes).
    + exact Hzero.
    + rewrite Hlen. lia.
    + apply (proj2 (no_surviving_silence_whole_clip Librosa.rms
                      Librosa.load_no_file)
               (repeat 0%R (Z.to_nat 48000)) frames 16000 0.40%Q
               Hrms Hz Hframes).
      * lia.
      * rewrite Hlen. reflexivity.
Defined.

(** The fallback interval is returned unfiltered: a clip of 0.1 seconds
    of digital silence (1600 samples at 16 kHz) has no silent frame, and
    the default analyser returns the whole clip as one speech interval,
    shorter than [min_nosil_dur = 0.40]. *)
Lemma short_clip_returned_whole :
  SigVad.get_speech_endpoint Librosa.rms Librosa.load_no_file
    SigVad.init_default None (Some (repeat 0%R (Z.to_nat 1600)))
    (Some 16000) 0.75 0.40
  = Ok [(0%Q, (inject_Z 1600 / inject_Z 16000)%Q)]
  /\ (SigVad.duration (0%Q, (inject_Z 1600 / inject_Z 16000)%Q) < 0.40)%Q.
Proof.
  split.
  - apply DefaultFacts.silent_clip; lia.
  - reflexivity.
Qed.

(** ** Rounding to the nearest float *)

Module Float64Facts.

Import Float64.
Local Open Scope Q_scope.

Lemma rint_bounds (q : Q) : (Qfloor q <= rint q <= Qfloor q + 1)%Z.
Proof.
  unfold rint. destruct (Qcompare _ _); [destruct (Z.even _)| |]; lia.
Qed.

Lemma rint_mono (x y : Q) : x <= y -> (rint x <= rint y)%Z.
Proof.
  intros Hxy. pose proof (Qfloor_resp_le x y Hxy) as Hf.
  pose proof (rint_bounds x) as Hx. pose proof (rint_bounds y) as Hy.
  destruct (Z.eq_dec (Qfloor x) (Qfloor y)) as [Heq|Hne]; [|lia].
  unfold rint. rewrite <- Heq.
  destruct (Qcompare_spec (x - inject_Z (Qfloor x)) (1 # 2)) as [Cx|Cx|Cx];
    destruct (Qcompare_spec (y - inject_Z (Qfloor x)) (1 # 2)) as [Cy|Cy|Cy];
    try (destruct (Z.even (Qfloor x))); try lia; exfalso; lra.
Qed.

Lemma rint_int (n : Z) : rint (inject_Z n) = n.
Proof.
  unfold rint. rewrite Qfloor_Z.
  destruct (Qcompare_spec (inject_Z n - inject_Z n) (1 # 2));
    [exfalso; lra|reflexivity|exfalso; lra].
Qed.

Lemma rint_eq (x y : Q) : x == y -> rint x = rint y.
Proof.
  intros H. apply Z.le_antisymm; apply rint_mono; lra.
Qed.

Lemma pow2_pos (z : Z) : 0 < 2 ^ z.
Proof. apply Qpower_0_lt. lra. Qed.

Lemma pow2_inject (z : Z) : (0 <= z)%Z -> inject_Z (2 ^ z) == 2 ^ z.
Proof. intros H. apply (Zpower_Qpower 2 z H). Qed.

Lemma exponent_spec (x : Q) :
  0 < x -> 2 ^ exponent x <= x /\ x < 2 ^ (exponent x + 1).
Proof.
  intros Hx. unfold exponent. destruct (Qle_bool 1 x) eqn:H1.
  - apply Qle_bool_iff in H1.
    assert (Hf : (1 <= Qfloor x)%Z).
    { rewrite <- (Qfloor_Z 1). apply Qfloor_resp_le. exact H1. }
    destruct (Z.log2_spec (Qfloor x) ltac:(lia)) as [Hlo Hhi].
    pose proof (Z.log2_nonneg (Qfloor x)) as Hnn.
    split.
    + rewrite <- pow2_inject by exact Hnn.
      apply Qle_trans with (inject_Z (Qfloor x)); [|apply Qfloor_le].
      now rewrite <- Zle_Qle.
    + rewrite <- pow2_inject by lia.
      apply Qlt_le_trans with (inject_Z (Qfloor x + 1)); [apply Qlt_floor|].
      rewrite <- Zle_Qle. unfold Z.succ in Hhi. lia.
  - assert (Hlt : x < 1).
    { apply Qnot_le_lt. intros H. apply Qle_bool_iff in H. congruence. }
    assert (Hinv : 1 < / x).
    { apply Qlt_shift_inv_l; [exact Hx|]. lra. }
    assert (Hone : / x * x == 1).
    { rewrite Qmult_comm. apply Qmult_inv_r. lra. }
    assert (Hc : (1 < Qceiling (/ x))%Z).
    { rewrite Zlt_Qlt. pose proof (Qle_ceiling (/ x)).
      change (inject_Z 1) with 1. lra. }
    destruct (Z.log2_up_spec _ Hc) as [Hlo Hhi].
    pose proof (Z.log2_up_nonneg (Qceiling (/ x))) as Hnn.
    set (L := Z.log2_up (Qceiling (/ x))) in *.
    assert (HL : (1 <= L)%Z).
    { destruct (Z.eq_dec L 0) as [H0|]; [|lia].
      rewrite H0 in Hhi. simpl in Hhi. lia. }
    split.
    + rewrite Qpower_opp. apply Qle_shift_inv_r; [apply pow2_pos|].
      rewrite <- Hone. rewrite (Qmult_comm x).
      apply Qmult_le_compat_r; [|lra].
      apply Qle_trans with (inject_Z (Qceiling (/ x))); [apply Qle_ceiling|].
      rewrite <- pow2_inject by lia. now rewrite <- Zle_Qle.
    + replace (- L + 1)%Z with (- (L - 1))%Z by lia.
      rewrite Qpower_opp. apply Qlt_shift_inv_l; [apply pow2_pos|].
      rewrite (Qmult_comm x), <- Hone.
      apply Qmult_lt_compat_r; [exact Hx|].
      apply Qle_lt_trans with (inject_Z (Qceiling (/ x) - 1));
        [|apply Qceiling_lt].
      rewrite <- pow2_inject by lia. rewrite <- Zle_Qle.
      unfold Z.pred in Hlo. replace (L + -1)%Z with (L - 1)%Z in Hlo by lia.
      lia.
Qed.

Lemma exponent_mono (x y : Q) :
  0 < x -> x <= y -> (exponent x <= exponent y)%Z.
Proof.
  intros Hx Hxy.
  destruct (exponent_spec x Hx) as [Hlo _].
  destruct (exponent_spec y ltac:(lra)) as [_ Hhi].
  assert (H : 2 ^ exponent x < 2 ^ (exponent y + 1)) by lra.
  apply Qpower_lt_compat_l_inv in H; [lia|lra].
Qed.

Lemma grid_mono (e : Z) (x y : Q) : x <= y -> grid e x <= grid e y.
Proof.
  intros Hxy. unfold grid. pose proof (pow2_pos (e - 52)) as Hp.
  apply Qmult_le_compat_r; [|lra].
  rewrite <- Zle_Qle. apply rint_mono. unfold Qdiv.
  apply Qmult_le_compat_r; [exact Hxy|].
  apply Qlt_le_weak, Qinv_lt_0_compat, Hp.
Qed.

(** The powers of two from the unit of the grid on lie on the grid. *)
Lemma grid_pow2 (e k : Z) :
  (0 <= k)%Z -> grid e (2 ^ (e - 52 + k)) == 2 ^ (e - 52 + k).
Proof.
  intros Hk. unfold grid. pose proof (pow2_pos (e - 52)) as Hp.
  assert (Hq : 2 ^ (e - 52 + k) / 2 ^ (e - 52) == inject_Z (2 ^ k)).
  { rewrite pow2_inject by exact Hk. rewrite Qpower_plus by lra.
    field. lra. }
  rewrite (rint_eq _ _ Hq), rint_int, pow2_inject by exact Hk.
  rewrite Qpower_plus by lra. ring.
Qed.

(** Rounding stays within the binade. *)
Lemma round_pos_bounds (x : Q) :
  0 < x ->
  2 ^ exponent x <= round_pos x /\ round_pos x <= 2 ^ (exponent x + 1).
Proof.
  intros Hx. destruct (exponent_spec x Hx) as [Hlo Hhi].
  unfold round_pos. split.
  - pose proof (grid_pow2 (exponent x) 52 ltac:(lia)) as H.
    replace (exponent x - 52 + 52)%Z with (exponent x) in H by lia.
    rewrite <- H. apply grid_mono, Hlo.
  - pose proof (grid_pow2 (exponent x) 53 ltac:(lia)) as H.
    replace (exponent x - 52 + 53)%Z with (exponent x + 1)%Z in H by lia.
    rewrite <- H. apply grid_mono. lra.
Qed.

Lemma round_pos_mono (x y : Q) :
  0 < x -> x <= y -> round_pos x <= round_pos y.
Proof.
  intros Hx Hxy. pose proof (exponent_mono x y Hx Hxy) as He.
  destruct (Z.eq_dec (exponent x) (exponent y)) as [Heq|Hne].
  - unfold round_pos. rewrite Heq. apply grid_mono, Hxy.
  - destruct (round_pos_bounds x Hx) as [_ Hhi].
    destruct (round_pos_bounds y ltac:(lra)) as [Hlo _].
    apply Qle_trans with (2 ^ (exponent x + 1)); [exact Hhi|].
    apply Qle_trans with (2 ^ exponent y); [|exact Hlo].
    apply Qpower_le_compat_l; [lia|lra].
Qed.

Lemma round_pos_pos (x : Q) : 0 < x -> 0 < round_pos x.
Proof.
  intros Hx. destruct (round_pos_bounds x Hx) as [Hlo _].
  pose proof (pow2_pos (exponent x)). lra.
Qed.

(** Rounding to nearest never reverses an order. *)
Lemma round_mono (x y : Q) : x <= y -> round x <= round y.
Proof.
  intros Hxy. unfold round.
  destruct (Qcompare_spec x 0) as [Hx|Hx|Hx];
    destruct (Qcompare_spec y 0) as [Hy|Hy|Hy];
    rewrite ?Qred_correct; try lra.
  - pose proof (round_pos_pos y Hy). lra.
  - pose proof (round_pos_pos (- x) ltac:(lra)). lra.
  - pose proof (round_pos_mono (- y) (- x) ltac:(lra) ltac:(lra)). lra.
  - pose proof (round_pos_pos (- x) ltac:(lra)).
    pose proof (round_pos_pos y Hy). lra.
  - apply round_pos_mono; assumption.
Qed.

(** A rounded value is on the same side of a float as the exact one. *)
Lemma float_below (f x : Q) : representable f -> f < round x -> f < x.
Proof.
  unfold representable. intros Hf Hlt. apply Qnot_le_lt. intros Hle.
  pose proof (round_mono x f Hle). lra.
Qed.

Lemma float_above (f x : Q) : representable f -> round x < f -> x < f.
Proof.
  unfold representable. intros Hf Hlt. apply Qnot_le_lt. intros Hle.
  pose proof (round_mono f x Hle). lra.
Qed.

Lemma round_positive (x : Q) : 0 < x -> round x == round_pos x.
Proof.
  intros Hx. unfold round.
  destruct (Qcompare_spec x 0); [exfalso; lra|exfalso; lra|].
  apply Qred_correct.
Qed.

Lemma round_negative (x : Q) : x < 0 -> round x == - round_pos (- x).
Proof.
  intros Hx. unfold round.
  destruct (Qcompare_spec x 0); [exfalso; lra| |exfalso; lra].
  apply Qred_correct.
Qed.

Lemma nat_representable (n : Z) :
  (0 < n < 2 ^ 53)%Z -> round_pos (inject_Z n) == inject_Z n.
Proof.
  intros Hn.
  assert (Hx : 0 < inject_Z n).
  { change 0 with (inject_Z 0). rewrite <- Zlt_Qlt. lia. }
  destruct (exponent_spec _ Hx) as [Hlo _].
  set (e := exponent (inject_Z n)) in *.
  assert (He : (e < 53)%Z).
  { assert (H : 2 ^ e < 2 ^ 53).
    { apply Qle_lt_trans with (inject_Z n); [exact Hlo|].
      rewrite <- (pow2_inject 53) by lia. rewrite <- Zlt_Qlt. lia. }
    apply Qpower_lt_compat_l_inv in H; [exact H|lra]. }
  unfold round_pos. fold e. unfold grid.
  pose proof (pow2_pos (52 - e)) as Hp.
  assert (Hu : 2 ^ (e - 52) == / 2 ^ (52 - e)).
  { replace (e - 52)%Z with (- (52 - e))%Z by lia. apply Qpower_opp. }
  assert (Hq : inject_Z n / 2 ^ (e - 52) == inject_Z (n * 2 ^ (52 - e))).
  { rewrite inject_Z_mult, pow2_inject by lia. rewrite Hu. field. lra. }
  rewrite (rint_eq _ _ Hq), rint_int, inject_Z_mult, pow2_inject by lia.
  rewrite Hu. field. lra.
Qed.

(** Every integer below [2 ^ 53] in absolute value is a float. *)
Lemma int_representable (n : Z) :
  (Z.abs n < 2 ^ 53)%Z -> representable (inject_Z n).
Proof.
  intros Hn. unfold representable.
  destruct (Z.lt_trichotomy n 0) as [Hneg|[->|Hpos]].
  - assert (Hx : inject_Z n < 0).
    { change 0 with (inject_Z 0). rewrite <- Zlt_Qlt. lia. }
    rewrite (round_negative _ Hx).
    assert (Ho : - inject_Z n == inject_Z (- n))
      by (rewrite inject_Z_opp; reflexivity).
    assert (Hr : round_pos (- inject_Z n) == round_pos (inject_Z (- n))).
    { apply Qle_antisym; apply round_pos_mono; lra. }
    rewrite Hr, nat_representable by lia. lra.
  - reflexivity.
  - assert (Hx : 0 < inject_Z n).
    { change 0 with (inject_Z 0). rewrite <- Zlt_Qlt. lia. }
    rewrite (round_positive _ Hx). apply nat_representable. lia.
Qed.

End Float64Facts.

Module MinimumFacts.

Import SigVad64.
Local Open Scope Q_scope.

Section Externals.

Variable rms : list R -> Z -> Z -> result (list R).
Variable load : string -> Z -> result (list R * Z).

(** What remains of [get_speech_endpoint] once the signal, a non-zero
    sample rate and the silence runs are known. *)
Lemma resolved_runs (self : SigVad.t) (wav_path : option string)
  (signal : option (list R)) (sr : option Z) (min_sil min_nosil : Q)
  (y : list R) (r : Z) (sil : list (Z * Z)) :
  SigVad.resolve load wav_path signal sr = Ok (y, r) -> r <> 0%Z ->
  SigVad._get_sil_endpoints rms self y "sil" = Ok sil ->
  get_speech_endpoint rms load self wav_path signal sr min_sil min_nosil
  = (if (Np.len (sil_seconds sil r min_sil) =? 0)%Z
     then Ok [(0, Float64.div (inject_Z (Np.len y)) (inject_Z r))]
     else
       nosil_data <-
         _sil_to_nosil (sil_seconds sil r min_sil)
           (Float64.div (inject_Z (Np.len y)) (inject_Z r)) ;;
       Ok (filter (fun se => SigVad.gt (Float64.sub (snd se) (fst se))
                               min_nosil)
             nosil_data)).
Proof.
  intros Hres Hr Hsil. unfold get_speech_endpoint. rewrite Hres.
  cbn [bind fst snd].
  destruct (Z.eqb_spec r 0); [contradiction|].
  rewrite Hsil. reflexivity.
Qed.

End Externals.

(** On a non-empty list the index loop of [_sil_to_nosil] stays in
    range, whatever the rounding. *)
Lemma sil_to_nosil_returns (sil : list (Q * Q)) (dur : Q) :
  sil <> [] -> exists nosil, _sil_to_nosil sil dur = Ok nosil.
Proof.
  destruct sil as [|first rest]; [congruence|]. intros _.
  unfold _sil_to_nosil.
  rewrite (ComplementFacts.last_some _ (first :: rest) first)
    by discriminate.
  cbn [nth_error].
  replace (Np.range 0 (Np.len (first :: rest) - 1))
    with (Np.range_from (Np.len (@nil (Q * Q))) (List.length rest)).
  2:{ unfold Np.range, Np.len. simpl List.length. f_equal. lia. }
  rewrite (ComplementFacts.between_fold rest [] first). cbn [bind].
  eexists. reflexivity.
Qed.

(** A run is kept only if it is longer, in exact arithmetic, than
    [sr * min_sil_dur]: the length is an integer, hence a float, and
    rounding the product cannot carry it across. *)
Lemma kept_longer (sil : list (Z * Z)) (sr : Z) (min_sil : Q) (se : Z * Z) :
  (0 < sr)%Z ->
  Float64.representable (inject_Z (snd se - fst se)) ->
  In se (kept sil sr min_sil) ->
  min_sil < inject_Z (snd se - fst se) / inject_Z sr.
Proof.
  intros Hr Hrep Hin. unfold kept in Hin. apply filter_In in Hin.
  destruct Hin as [_ Hgt]. apply SpeechFacts.time_gt_true in Hgt.
  unfold Float64.mul in Hgt.
  apply (Float64Facts.float_above _ _ Hrep) in Hgt.
  apply Qlt_shift_div_l; [apply SpeechFacts.inject_pos, Hr|].
  rewrite Qmult_comm. exact Hgt.
Qed.

End MinimumFacts.

(** C5 (amended).  In float arithmetic, for a positive sample rate, run
    lengths below [2 ^ 53] samples and a [min_nosil_dur] that is a float:
    every silence run that [SigVad.get_speech_endpoint] keeps is longer
    than [min_sil_dur], its length being [(e - s) / sr] in exact
    arithmetic; when at least one run is kept, every speech interval it
    returns has [end - start > min_nosil_dur], again in exact
    arithmetic; and when none is kept, the single interval [(0.0, dur)]
    is returned without the [min_nosil_dur] filter. *)
Theorem minimum_durations_with_silence
  (rms : list R -> Z -> Z -> result (list R))
  (load : string -> Z -> result (list R * Z))
  (self : SigVad.t) (wav_path : option string)
  (signal : option (list R)) (sr : option Z)
  (min_sil_dur min_nosil_dur : Q)
  (y : list R) (r : Z) (sil_data : list (Z * Z)) :
  SigVad.resolve load wav_path signal sr = Ok (y, r) -> 0 < r ->
  SigVad._get_sil_endpoints rms self y "sil" = Ok sil_data ->
  (forall se : Z * Z, In se sil_data -> snd se - fst se < 2 ^ 53) ->
  Float64.representable min_nosil_dur ->
  (forall se : Z * Z,
      In se (SigVad64.kept sil_data r min_sil_dur) ->
      (min_sil_dur < inject_Z (snd se - fst se) / inject_Z r)%Q)
  /\ (SigVad64.sil_seconds sil_data r min_sil_dur <> [] ->
      exists out : list (Q * Q),
        SigVad64.get_speech_endpoint rms load self wav_path signal sr
          min_sil_dur min_nosil_dur = Ok out
        /\ forall i : Q * Q,
            In i out -> (min_nosil_dur < snd i - fst i)%Q)
  /\ (SigVad64.sil_seconds sil_data r min_sil_dur = [] ->
      SigVad64.get_speech_endpoint rms load self wav_path signal sr
        min_sil_dur min_nosil_dur
      = Ok [(0%Q, Float64.div (inject_Z (Np.len y)) (inject_Z r))]).
Proof.
  intros Hres Hr Hsil Hlen Hrep.
  assert (Hr0 : r <> 0) by lia.
  pose proof (MinimumFacts.resolved_runs rms load self wav_path signal sr
                min_sil_dur min_nosil_dur y r sil_data Hres Hr0 Hsil)
    as Hget.
  split; [|split].
  - intros [s e] Hin.
    apply (MinimumFacts.kept_longer sil_data r min_sil_dur (s, e) Hr);
      [|exact Hin].
    apply Float64Facts.int_representable.
    assert (Hsil_in : In (s, e) sil_data).
    { unfold SigVad64.kept in Hin. apply filter_In in Hin. tauto. }
    pose proof (Hlen _ Hsil_in) as Hup. cbn [fst snd] in *.
    pose proof (EndpointFacts.sil_endpoints_chain rms self y "sil"
                  sil_data Hsil) as Hc.
    pose proof (IntervalFacts.Z_ordered sil_data Hc) as (Heach & _).
    apply In_nth_error in Hsil_in. destruct Hsil_in as (k & Hk).
    pose proof (Heach k (s, e) Hk) as Hse. cbn [fst snd] in Hse. lia.
  - intros Hsome.
    destruct (MinimumFacts.sil_to_nosil_returns
                (SigVad64.sil_seconds sil_data r min_sil_dur)
                (Float64.div (inject_Z (Np.len y)) (inject_Z r)) Hsome)
      as (nosil & Hnosil).
    rewrite Hget.
    destruct (Np.len (SigVad64.sil_seconds sil_data r min_sil_dur) =? 0)
      eqn:Hnone.
    { apply EndpointFacts.len_zero in Hnone. contradiction. }
    rewrite Hnosil. cbn [bind]. eexists. split; [reflexivity|].
    intros i Hi. apply filter_In in Hi. destruct Hi as [_ Hgt].
    apply SpeechFacts.time_gt_true in Hgt.
    apply (Float64Facts.float_below _ _ Hrep Hgt).
  - intros Hnone. rewrite Hget, Hnone. reflexivity.
Qed.

(** C8.  Every interval list returned by [MelVad.get_nosil_endpoints] or
    [SigVad._get_sil_endpoints], and every list returned by
    [SigVad.get_speech_endpoint] for a non-empty signal with a positive
    sample rate, is sorted by start, has [start < end] in every interval
    and [intervals[i].end <= intervals[i+1].start] for all [i].  With
    librosa's energy extractor, which rejects an empty signal, the
    positive sample rate is the only condition. *)
Theorem interval_lists_ordered
  (rms : list R -> Z -> Z -> result (list R))
  (load : string -> Z -> result (list R * Z)) :
  (forall (self : MelVad.t) (mels : Np.matrix) (using_global_ref : bool)
          (out : list (Z * Z)),
      MelVad.get_nosil_endpoints self mels using_global_ref = Ok out ->
      Intervals.ordered Z.lt Z.le out)
  /\ (forall (self : SigVad.t) (y : list R) (sil_type : string)
             (out : list (Z * Z)),
        SigVad._get_sil_endpoints rms self y sil_type = Ok out ->
        Intervals.ordered Z.lt Z.le out)
  /\ (forall (self : SigVad.t) (wav_path : option string)
             (signal : option (list R)) (sr : option Z)
             (min_sil_dur min_nosil_dur : Q)
             (y : list R) (r : Z) (out : list (Q * Q)),
        SigVad.resolve load wav_path signal sr = Ok (y, r) ->
        0 < r -> y <> [] ->
        SigVad.get_speech_endpoint rms load self wav_path signal sr
          min_sil_dur min_nosil_dur = Ok out ->
        Intervals.ordered Qlt Qle out)
  /\ (forall (self : SigVad.t) (wav_path : option string)
             (signal : option (list R)) (sr : option Z)
             (min_sil_dur min_nosil_dur : Q)
             (y : list R) (r : Z) (out : list (Q * Q)),
        SigVad.resolve load wav_path signal sr = Ok (y, r) ->
        0 < r ->
        SigVad.get_speech_endpoint Librosa.rms load self wav_path signal sr
          min_sil_dur min_nosil_dur = Ok out ->
        Intervals.ordered Qlt Qle out).
Proof.
  split; [|split; [|split]].
  - intros self mels g out. rewrite DropFacts.mel_endpoints.
    destruct (MelVad.mel_db self mels g) as [db|]; [|discriminate].
    cbn [bind]. intros H. inversion H.
    apply IntervalFacts.Z_ordered, IntervalFacts.frame_runs_chain.
  - intros self y sil_type out H.
    apply IntervalFacts.Z_ordered.
    apply (EndpointFacts.sil_endpoints_chain rms self y sil_type out H).
  - intros self wav_path signal sr ms mn y r out Hres Hr Hy Hout.
    apply IntervalFacts.Q_ordered.
    apply (EndpointFacts.speech_chain rms load self wav_path signal sr
             ms mn y r out Hres Hr Hy Hout).
  - intros self wav_path signal sr ms mn y r out Hres Hr Hout.
    apply IntervalFacts.Q_ordered.
    apply (EndpointFacts.librosa_speech_chain load self wav_path signal sr
             ms mn y r out Hres Hr Hout).
Qed.

(** ** Scenarios of the specification, at the level of the mask *)

(** Ten frames of which frames 3 to 6 are speech. *)
Example frames_3_to_6 :
  Scan.drop_short
    (Scan.endpoints (fun x => x) 10
       (Np.where_ [false; false; false; true; true; true; true;
                   false; false; false]))
  = Ok [(3, 6)].
Proof. reflexivity. Qed.

(** An isolated true frame gives no interval. *)
Example isolated_frame :
  Scan.drop_short
    (Scan.endpoints (fun x => x) 5
       (Np.where_ [false; false; true; false; false]))
  = Ok [].
Proof. reflexivity. Qed.

(** A run of two frames has [end - start = 1] and is dropped as well;
    runs at both ends of the mask are found. *)
Example runs_at_both_ends :
  Scan.endpoints (fun x => x) 7
    (Np.where_ [true; true; true; false; true; true; false])
  = [(Some 0, 2); (Some 4, 5)]
  /\ Scan.drop_short
       (Scan.endpoints (fun x => x) 7
          (Np.where_ [true; true; true; false; true; true; false]))
     = Ok [(0, 2)]
  /\ Scan.endpoints (fun x => Librosa.frames_to_samples x 256) 4
       (Np.where_ [false; true; true; true])
     = [(Some 256, 768)].
Proof. repeat split; reflexivity. Qed.

(** Silence from 0.5 s to 1.5 s and from 2.0 s to 2.2 s in samples at
    16 kHz: the second one is shorter than 0.75 s and is not kept; the
    complement over 3.0 s is [(0.0, 0.5)] and [(1.5, 3.0)], and both
    pass the 0.40 s filter. *)
Example two_silences :
  SigVad.sil_seconds [(8000, 24000); (32000, 35200)] 16000 0.75
  = [((8000 # 1) / (16000 # 1), (24000 # 1) / (16000 # 1))%Q]
  /\ SigVad._sil_to_nosil [(0.5, 1.5)%Q] 3 = Ok [(0, 0.5)%Q; (1.5, 3)%Q]
  /\ filter (fun se => SigVad.gt (snd se - fst se)%Q 0.40)
       [(0, 0.5)%Q; (1.5, 3)%Q]
     = [(0, 0.5)%Q; (1.5, 3)%Q].
Proof. repeat split; reflexivity. Qed.

(** * Further properties of the scan and of the two analysers *)

(** ** Every true frame lies in exactly one run *)

Module CoverFacts.

Import Runs.

Lemma open_run_closed (mask : list bool) :
  forall i c, exists e, i - 1 <= e /\ In (c, e) (runs_from i (Some c) mask).
Proof.
  induction mask as [|b mask IH]; intros i c.
  - exists (i - 1). split; [lia|]. simpl. auto.
  - destruct b; simpl.
    + destruct (IH (i + 1) c) as (e & He & Hin). exists e. split; [lia|auto].
    + exists (i - 1). split; [lia|]. simpl. auto.
Qed.

Lemma true_frame_covered (mask : list bool) :
  forall i cur k,
    (forall c, cur = Some c -> c <= i - 1) ->
    i <= k -> at_ i mask k = true ->
    exists s e, In (s, e) (runs_from i cur mask) /\ s <= k <= e.
Proof.
  induction mask as [|b mask IH]; intros i cur k Hcur Hik Hk.
  - rewrite ScanFacts.at_nil in Hk. discriminate.
  - rewrite ScanFacts.runs_from_cons.
    destruct (Z.eq_dec k i) as [->|Hne].
    + rewrite ScanFacts.at_head in Hk. subst b. simpl advance.
      destruct (open_run_closed mask (i + 1)
                  (match cur with Some s => s | None => i end))
        as (e & He & Hin).
      exists (match cur with Some s => s | None => i end), e.
      split; [apply in_or_app; right; exact Hin|].
      destruct cur as [c|]; [specialize (Hcur c eq_refl)|]; lia.
    + rewrite ScanFacts.at_tail in Hk by exact Hne.
      destruct (IH (i + 1) (advance i cur b) k) as (s & e & Hin & Hse);
        auto; try lia.
      * intros c Hc. unfold advance in Hc. destruct b; [|discriminate].
        destruct cur as [c'|]; inversion Hc; subst;
          [specialize (Hcur c eq_refl)|]; lia.
      * exists s, e. split; [apply in_or_app; right; exact Hin|exact Hse].
Qed.

Lemma run_covers (mask : list bool) (k : Z) :
  getb mask k = true ->
  exists s e, In (s, e) (maximal_runs mask) /\ s <= k <= e.
Proof.
  intros Hk. apply (true_frame_covered mask 0 None k).
  - discriminate.
  - unfold getb in Hk. destruct (Z.leb_spec 0 k); [lia|discriminate].
  - unfold at_. now rewrite Z.sub_0_r.
Qed.

Lemma run_unique (mask : list bool) (s e s' e' k : Z) :
  maximal_run mask s e -> maximal_run mask s' e' ->
  s <= k <= e -> s' <= k <= e' -> s = s' /\ e = e'.
Proof.
  intros (H1 & H2 & H3 & Hall & Hbefore & Hafter)
         (H1' & H2' & H3' & Hall' & Hbefore' & Hafter') Hk Hk'.
  split.
  - destruct (Z.lt_trichotomy s s') as [Hlt|[Heq|Hgt]]; [|exact Heq|].
    + rewrite (Hall (s' - 1)) in Hbefore' by lia. discriminate.
    + rewrite (Hall' (s - 1)) in Hbefore by lia. discriminate.
  - destruct (Z.lt_trichotomy e e') as [Hlt|[Heq|Hgt]]; [|exact Heq|].
    + rewrite (Hall' (e + 1)) in Hafter by lia. discriminate.
    + rewrite (Hall (e' + 1)) in Hafter' by lia. discriminate.
Qed.

Lemma In_emitted (conv : Z -> Z) (l : list (Z * Z)) (p : option Z * Z) :
  In p (map (emitted conv) l)
  <-> exists s e, In (s, e) l /\ p = (Some (conv s), conv e).
Proof.
  rewrite in_map_iff. split.
  - intros ([s e] & <- & Hin). exists s, e. auto.
  - intros (s & e & Hin & ->). exists (s, e). auto.
Qed.

End CoverFacts.

(** X1.  The pairs the scan stores always have a start: whenever a run
    ends, a start has been recorded before, so the final comprehension
    never subtracts from [None].  Both methods therefore return a list
    as soon as their decibel profile is computed (and, for [SigVad], the
    direction is valid and there is more than one frame). *)
Theorem scan_pairs_have_start
  (rms : list R -> Z -> Z -> result (list R)) :
  (forall (conv : Z -> Z) (mask : list bool) (p : option Z * Z),
      In p (Scan.endpoints conv (Np.len mask) (Np.where_ mask)) ->
      fst p <> None)
  /\ (forall (self : MelVad.t) (mels : Np.matrix) (using_global_ref : bool)
            (mel_db : list R),
        MelVad.mel_db self mels using_global_ref = Ok mel_db ->
        exists out : list (Z * Z),
          MelVad.get_nosil_endpoints self mels using_global_ref = Ok out)
  /\ (forall (self : SigVad.t) (y : list R) (sil_type : string)
            (signal_db : list R),
        SigVad.signal_db rms self y = Ok signal_db ->
        (sil_type = "sil" \/ sil_type = "nosil")%string ->
        Np.len signal_db <> 1 ->
        exists out : list (Z * Z),
          SigVad._get_sil_endpoints rms self y sil_type = Ok out).
Proof.
  split; [|split].
  - intros conv mask p Hin. rewrite ScanFacts.endpoints_runs in Hin.
    apply CoverFacts.In_emitted in Hin. destruct Hin as (s & e & _ & ->).
    discriminate.
  - intros self mels g db Hdb. rewrite DropFacts.mel_endpoints, Hdb.
    eexists. reflexivity.
  - intros self y sil_type db Hdb Htype Hlen.
    rewrite DropFacts.sig_endpoints, Hdb. cbn [bind].
    unfold SigVad.sil_mask.
    destruct Htype as [-> | ->]; simpl String.eqb; cbv iota; cbn [bind];
      destruct (Z.eqb_spec (Np.len db) 1); try contradiction;
      eexists; reflexivity.
Qed.

Lemma scan_pairs_have_start_witness :
  fst (Some 3, 6) <> None
  /\ (exists out : list (Z * Z),
         MelVad.get_nosil_endpoints MelVad.init_default
           (Np.mk_matrix 80 (repeat (repeat 0%R 80) 3)) false = Ok out).
Proof.
  destruct (scan_pairs_have_start Librosa.rms) as (Hpair & Hmel & _).
  split.
  - apply (Hpair (fun x => x)
             [false; false; false; true; true; true; true; false]
             (Some 3, 6)).
    vm_compute. auto.
  - apply (Hmel MelVad.init_default
             (Np.mk_matrix 80 (repeat (repeat 0%R 80) 3)) false
             (repeat 0%R 3)).
    apply (LabelFacts.uniform_frames_db MelVad.init_default (repeat 0%R 80) 2).
Defined.

(** X2.  Before the short runs are dropped, the runs the scan stores
    partition the true frames of the mask: a frame is true exactly when
    it lies between the start and the end of a stored run, and it lies in
    one run only. *)
Theorem scan_runs_partition_true_frames (mask : list bool) :
  (forall k : Z,
      Runs.getb mask k = true
      <-> exists s e : Z,
            In (Some s, e)
               (Scan.endpoints (fun x => x) (Np.len mask) (Np.where_ mask))
            /\ s <= k <= e)
  /\ (forall s e s' e' k : Z,
        In (Some s, e)
           (Scan.endpoints (fun x => x) (Np.len mask) (Np.where_ mask)) ->
        In (Some s', e')
           (Scan.endpoints (fun x => x) (Np.len mask) (Np.where_ mask)) ->
        s <= k <= e -> s' <= k <= e' -> s = s' /\ e = e').
Proof.
  assert (Hin : forall s e,
             In (Some s, e)
                (Scan.endpoints (fun x => x) (Np.len mask) (Np.where_ mask))
             <-> Runs.maximal_run mask s e).
  { intros s e. rewrite ScanFacts.endpoints_runs, CoverFacts.In_emitted.
    rewrite <- ScanFacts.In_maximal_runs. split.
    - intros (s0 & e0 & H & Heq). inversion Heq. subst. exact H.
    - intros H. exists s, e. auto. }
  split.
  - intros k. split.
    + intros Hk. destruct (CoverFacts.run_covers mask k Hk) as (s & e & H & Hse).
      exists s, e. split; [|exact Hse].
      apply Hin, ScanFacts.In_maximal_runs, H.
    + intros (s & e & H & Hse). apply Hin in H.
      destruct H as (_ & _ & _ & Hall & _). apply Hall, Hse.
  - intros s e s' e' k H H' Hk Hk'.
    apply Hin in H. apply Hin in H'.
    apply (CoverFacts.run_unique mask s e s' e' k H H' Hk Hk').
Qed.

Lemma scan_runs_partition_true_frames_witness :
  (Runs.getb [false; true; true; false; true] 2 = true
   <-> exists s e : Z,
         In (Some s, e)
            (Scan.endpoints (fun x => x)
               (Np.len [false; true; true; false; true])
               (Np.where_ [false; true; true; false; true]))
         /\ s <= 2 <= e)
  /\ (1 = 1 /\ 2 = 2).
Proof.
  destruct (scan_runs_partition_true_frames [false; true; true; false; true])
    as (Hcover & Hunique).
  split.
  - apply Hcover.
  - apply (Hunique 1 2 1 2 2); try lia; vm_compute; auto.
Defined.

(** ** Returned intervals against the decibel profile *)

Module ProfileFacts.

Import Runs.

Lemma getb_above (top_db : R) (db : list R) (k : Z) :
  getb (map (fun d => Np.gt d (- top_db)%R) db) k = true
  <-> Frames.above top_db db k.
Proof.
  unfold Frames.above. split.
  - intros H. pose proof (ThresholdFacts.getb_index _ _ H) as Hk.
    apply ThresholdFacts.getb_map in H. destruct H as (d & Hd & Hgt).
    exists d. apply MelFacts.gt_true in Hgt. auto.
  - intros (d & Hk & Hd & Hgt).
    apply (ThresholdFacts.map_getb _ _ db k d Hk Hd).
    apply MelFacts.gt_true, Hgt.
Qed.


Lemma filtered_run (mask : list bool) (s e : Z) :
  In (s, e) (filter long_enough (maximal_runs mask))
  <-> maximal_run mask s e /\ s + 2 <= e.
Proof.
  rewrite filter_In, ScanFacts.In_maximal_runs.
  unfold long_enough. simpl. rewrite Z.ltb_lt. intuition lia.
Qed.

Lemma sample_run (hop : Z) (mask : list bool) (a b : Z) :
  In (a, b) (filter long_enough (map (in_samples hop) (maximal_runs mask)))
  <-> exists s e,
        maximal_run mask s e /\ a = s * hop /\ b = e * hop /\ 1 < b - a.
Proof.
  rewrite filter_In, in_map_iff. unfold long_enough. simpl.
  rewrite Z.ltb_lt. split.
  - intros (([s e] & Heq & Hin) & Hlong). inversion Heq. subst.
    exists s, e. apply ScanFacts.In_maximal_runs in Hin. auto.
  - intros (s & e & Hrun & -> & -> & Hlong). split; [|exact Hlong].
    exists (s, e). split; [reflexivity|].
    apply ScanFacts.In_maximal_runs, Hrun.
Qed.

(** A maximal run that contains three consecutive true frames from [k]
    on reaches at least [k + 2]. *)
Lemma run_reaches (mask : list bool) (s e k : Z) :
  maximal_run mask s e -> s <= k <= e ->
  getb mask (k + 1) = true -> getb mask (k + 2) = true -> k + 2 <= e.
Proof.
  intros (_ & _ & _ & Hall & _ & Hafter) Hk H1 H2.
  destruct (Z.lt_ge_cases e (k + 2)) as [Hlt|]; [|lia].
  exfalso. assert (e = k \/ e = k + 1) as [-> | ->] by lia.
  - rewrite H1 in Hafter. discriminate.
  - replace (k + 1 + 1) with (k + 2) in Hafter by lia.
    rewrite H2 in Hafter. discriminate.
Qed.

Lemma mel_db_len (self : MelVad.t) (mels : Np.matrix) (g : bool)
  (db : list R) :
  MelVad.mel_db self mels g = Ok db -> Np.len db = Np.len (Np.frames mels).
Proof.
  unfold MelVad.mel_db.
  destruct (assert _) as [[]|]; [|discriminate]. cbn [bind].
  destruct (Z.eqb_spec (Np.bands mels) 80) as [Hb|]; [|discriminate].
  simpl assert. cbn [bind].
  rewrite (MelFacts.get_mel_power_ok mels Hb). cbn [bind].
  destruct (if g then _ else _) as [r|]; [|discriminate]. cbn [bind].
  unfold Librosa.power_to_db. cbn [bind]. intros H. inversion H.
  rewrite DropFacts.len_map. unfold MelVad.feature_to_power_reference.
  apply DropFacts.len_map.
Qed.

End ProfileFacts.

(** X3.  [MelVad.get_nosil_endpoints] reports speech only, and all of
    it that is long enough: every returned pair lies within the frames of
    the input and spans at least three frames, every frame from its start
    to its end has a decibel value above [-top_db], and the frames just
    before and just after it have not; conversely three consecutive
    frames above [-top_db] always lie inside one returned pair. *)
Theorem nosil_endpoints_are_the_speech_runs
  (self : MelVad.t) (mels : Np.matrix) (using_global_ref : bool)
  (mel_db : list R) (out : list (Z * Z)) :
  MelVad.mel_db self mels using_global_ref = Ok mel_db ->
  MelVad.get_nosil_endpoints self mels using_global_ref = Ok out ->
  (forall s e : Z,
      In (s, e) out ->
      0 <= s /\ s + 2 <= e /\ e < Np.len (Np.frames mels)
      /\ (forall k : Z,
             s <= k <= e -> Frames.above (MelVad.top_db self) mel_db k)
      /\ ~ Frames.above (MelVad.top_db self) mel_db (s - 1)
      /\ ~ Frames.above (MelVad.top_db self) mel_db (e + 1))
  /\ (forall k : Z,
        Frames.above (MelVad.top_db self) mel_db k ->
        Frames.above (MelVad.top_db self) mel_db (k + 1) ->
        Frames.above (MelVad.top_db self) mel_db (k + 2) ->
        exists s e : Z, In (s, e) out /\ s <= k /\ k + 2 <= e).
Proof.
  intros Hdb Hout.
  rewrite DropFacts.mel_endpoints, Hdb in Hout. cbn [bind] in Hout.
  inversion Hout as [Hout']. clear Hout Hout'.
  pose proof (ProfileFacts.mel_db_len self mels using_global_ref mel_db Hdb)
    as Hlen.
  unfold MelVad.nosil_mask. split.
  - intros s e Hin. apply ProfileFacts.filtered_run in Hin.
    destruct Hin as ((H0 & Hse & He & Hall & Hbefore & Hafter) & Hlong).
    rewrite DropFacts.len_map, Hlen in He.
    repeat split; auto.
    + intros k Hk. apply ProfileFacts.getb_above, Hall, Hk.
    + intros H. apply ProfileFacts.getb_above in H.
      rewrite H in Hbefore. discriminate.
    + intros H. apply ProfileFacts.getb_above in H.
      rewrite H in Hafter. discriminate.
  - intros k H0 H1 H2.
    apply ProfileFacts.getb_above in H0, H1, H2.
    destruct (CoverFacts.run_covers _ k H0) as (s & e & Hin & Hk).
    apply ScanFacts.In_maximal_runs in Hin.
    pose proof (ProfileFacts.run_reaches _ s e k Hin Hk H1 H2) as Hreach.
    exists s, e. split; [|lia].
    apply ProfileFacts.filtered_run. split; [exact Hin|lia].
Qed.

Lemma nosil_endpoints_are_the_speech_runs_witness :
  (forall s e : Z,
      In (s, e) [(0, 2)] ->
      0 <= s /\ s + 2 <= e
      /\ e < Np.len (Np.frames (Np.mk_matrix 80 (repeat (repeat 0%R 80) 3)))
      /\ (forall k : Z,
             s <= k <= e ->
             Frames.above (MelVad.top_db MelVad.init_default)
               (repeat 0%R 3) k)
      /\ ~ Frames.above (MelVad.top_db MelVad.init_default)
             (repeat 0%R 3) (s - 1)
      /\ ~ Frames.above (MelVad.top_db MelVad.init_default)
             (repeat 0%R 3) (e + 1))
  /\ (forall k : Z,
        Frames.above (MelVad.top_db MelVad.init_default) (repeat 0%R 3) k ->
        Frames.above (MelVad.top_db MelVad.init_default)
          (repeat 0%R 3) (k + 1) ->
        Frames.above (MelVad.top_db MelVad.init_default)
          (repeat 0%R 3) (k + 2) ->
        exists s e : Z, In (s, e) [(0, 2)] /\ s <= k /\ k + 2 <= e).
Proof.
  apply (nosil_endpoints_are_the_speech_runs MelVad.init_default
           (Np.mk_matrix 80 (repeat (repeat 0%R 80) 3)) false
           (repeat 0%R 3) [(0, 2)]).
  - apply (LabelFacts.uniform_frames_db MelVad.init_default (repeat 0%R 80) 2).
  - apply DefaultFacts.uniform_mel_clip.
Defined.

(** ** Decibel profiles of digital silence *)

Module ZeroProfileFacts.

Import Runs.
Import Np (all_zero).

Lemma zero_profile_fixed
  (rms : list R -> Z -> Z -> result (list R))
  (self : SigVad.t) (y frames : list R) :
  rms y (SigVad.frame_length self) (SigVad.hop_length self) = Ok frames ->
  all_zero frames ->
  SigVad.ref self = Librosa.RefValue 1 ->
  SigVad.signal_db rms self y = Ok (repeat (-100)%R (List.length frames)).
Proof.
  intros Hrms Hz Href. unfold SigVad.signal_db. rewrite Hrms. cbn [bind].
  unfold Librosa.power_to_db. rewrite Href. cbn [bind]. f_equal.
  rewrite map_map. rewrite (Forall_eq_repeat Hz) at 1.
  rewrite map_repeat. f_equal.
  replace (0 ^ 2)%R with 0%R by lra.
  rewrite Rmax_left by (unfold Librosa.amin; lra).
  rewrite Rabs_R1, Rmax_right by (unfold Librosa.amin; lra).
  rewrite SilenceFacts.log10_amin, SilenceFacts.log10_1. lra.
Qed.

Lemma zero_profile_max
  (rms : list R -> Z -> Z -> result (list R))
  (self : SigVad.t) (y frames : list R) :
  rms y (SigVad.frame_length self) (SigVad.hop_length self) = Ok frames ->
  all_zero frames -> frames <> [] ->
  SigVad.ref self = Librosa.RefCallable Np.max ->
  SigVad.signal_db rms self y = Ok (repeat 0%R (List.length frames)).
Proof.
  intros Hrms Hz Hne Href. unfold SigVad.signal_db. rewrite Hrms.
  cbn [bind].
  assert (Hmse : all_zero (map (fun r => (r ^ 2)%R) frames)).
  { apply SilenceFacts.all_zero_map. intros a Ha. unfold all_zero in Hz.
    rewrite Forall_forall in Hz. rewrite <- (Hz a Ha). lra. }
  assert (Hne' : map (fun r => (r ^ 2)%R) frames <> []).
  { destruct frames; [congruence|discriminate]. }
  unfold Librosa.power_to_db.
  rewrite Href, (SilenceFacts.max_zero _ Hne' Hmse). cbn [bind]. f_equal.
  rewrite map_map. rewrite (Forall_eq_repeat Hz) at 1.
  rewrite map_repeat. f_equal.
  replace (0 ^ 2)%R with 0%R by lra. lra.
Qed.

(** 48000 zero samples give 188 frames with the default frame and hop
    lengths. *)
Lemma clip_frames :
  exists frames,
    Librosa.rms (repeat 0%R (Z.to_nat 48000)) 1024 256 = Ok frames
    /\ all_zero frames /\ List.length frames = 188%nat.
Proof.
  assert (Hlen : Np.len (repeat 0%R (Z.to_nat 48000)) = 48000)
    by (apply DefaultFacts.repeat_len; lia).
  destruct (SilenceFacts.rms_silence (repeat 0%R (Z.to_nat 48000)) 1024 256)
    as (frames & Hr & Hf & Hl); try lia.
  { intros H. rewrite H in Hlen. discriminate. }
  { apply DefaultFacts.repeat_all_zero. }
  exists frames. split; [exact Hr|]. split; [exact Hf|].
  rewrite Hlen in Hl. unfold Np.len in Hl. apply Nat2Z.inj. rewrite Hl.
  reflexivity.
Qed.

Lemma fixed_reference_profile :
  SigVad.signal_db Librosa.rms (SigVad.mk 25 1024 256 (Librosa.RefValue 1))
    (repeat 0%R (Z.to_nat 48000))
  = Ok (repeat (-100)%R 188).
Proof.
  destruct clip_frames as (frames & Hr & Hf & Hl).
  rewrite <- Hl.
  apply (zero_profile_fixed Librosa.rms
           (SigVad.mk 25 1024 256 (Librosa.RefValue 1)) _ frames Hr Hf).
  reflexivity.
Qed.

Lemma default_profile :
  SigVad.signal_db Librosa.rms SigVad.init_default
    (repeat 0%R (Z.to_nat 48000))
  = Ok (repeat 0%R 188).
Proof.
  destruct clip_frames as (frames & Hr & Hf & Hl).
  rewrite <- Hl.
  apply (zero_profile_max Librosa.rms SigVad.init_default _ frames Hr Hf).
  - intros H. rewrite H in Hl. discriminate Hl.
  - reflexivity.
Qed.

Lemma fixed_reference_nosil :
  SigVad._get_sil_endpoints Librosa.rms
    (SigVad.mk 25 1024 256 (Librosa.RefValue 1))
    (repeat 0%R (Z.to_nat 48000)) "nosil"
  = Ok [].
Proof.
  rewrite DropFacts.sig_endpoints, fixed_reference_profile. cbn [bind].
  unfold SigVad.sil_mask. simpl String.eqb. cbv iota. cbn [bind].
  rewrite map_repeat.
  replace (Np.gt (-100) (Ropp (SigVad.top_db
             (SigVad.mk 25 1024 256 (Librosa.RefValue 1))))) with false.
  - reflexivity.
  - symmetry. unfold Np.gt. simpl SigVad.top_db.
    destruct (Rlt_dec _ _) as [H|]; [exfalso; lra|reflexivity].
Qed.


End ZeroProfileFacts.

Module SampleFacts.

Import Runs.

Lemma sig_output (rms : list R -> Z -> Z -> result (list R))
  (self : SigVad.t) (y db : list R) (sil_type : string)
  (out : list (Z * Z)) :
  SigVad.signal_db rms self y = Ok db ->
  SigVad._get_sil_endpoints rms self y sil_type = Ok out ->
  exists mask,
    SigVad.sil_mask self db sil_type = Ok mask
    /\ out = filter long_enough
               (map (in_samples (SigVad.hop_length self))
                  (maximal_runs mask)).
Proof.
  intros Hdb Hout. rewrite DropFacts.sig_endpoints, Hdb in Hout.
  cbn [bind] in Hout.
  destruct (SigVad.sil_mask self db sil_type) as [mask|]; [|discriminate].
  cbn [bind] in Hout. destruct (Np.len db =? 1); [discriminate|].
  cbn [bind] in Hout. inversion Hout. exists mask. auto.
Qed.

Lemma sample_run_frames (hop : Z) (mask : list bool) (a b : Z) :
  In (a, b) (filter long_enough (map (in_samples hop) (maximal_runs mask))) ->
  exists s e,
    a = s * hop /\ b = e * hop /\ 0 <= s /\ s < e /\ e < Np.len mask
    /\ 0 < hop /\ (forall k, s <= k <= e -> getb mask k = true).
Proof.
  intros Hin. apply ProfileFacts.sample_run in Hin.
  destruct Hin as (s & e & (H0 & Hse & He & Hall & _) & -> & -> & Hlong).
  assert (Hlt : s < e).
  { destruct (Z.eq_dec s e) as [->|]; lia. }
  assert (Hhop : 0 < hop).
  { destruct (Z.lt_ge_cases 0 hop) as [|Hle]; [assumption|].
    assert (e * hop - s * hop = (e - s) * hop) by ring.
    assert ((e - s) * hop <= 0) by (apply Z.mul_nonneg_nonpos; lia).
    lia. }
  exists s, e. repeat split; auto.
Qed.

End SampleFacts.



(** ** Decibels against the maximum *)

Module DbFacts.

Local Open Scope R_scope.

Lemma ln_10_pos : 0 < ln 10.
Proof. rewrite <- ln_1. apply ln_increasing; lra. Qed.

Lemma log10_le (a b : R) :
  0 < a -> a <= b -> Librosa.log10 a <= Librosa.log10 b.
Proof.
  intros Ha [Hlt | ->]; [|lra].
  unfold Librosa.log10. pose proof ln_10_pos.
  pose proof (ln_increasing a b Ha Hlt).
  apply Rmult_le_compat_r; [|lra].
  apply Rlt_le, Rinv_0_lt_compat. assumption.
Qed.

Lemma floor_pos (v : R) : 0 < Rmax Librosa.amin v.
Proof.
  eapply Rlt_le_trans; [|apply Rmax_l]. unfold Librosa.amin. lra.
Qed.

Lemma fold_max (l : list R) :
  forall x,
    x <= fold_left Rmax l x
    /\ Forall (fun v => v <= fold_left Rmax l x) l
    /\ (fold_left Rmax l x = x \/ In (fold_left Rmax l x) l).
Proof.
  induction l as [|a l IH]; intros x; simpl.
  - split; [lra|]. split; [constructor|auto].
  - destruct (IH (Rmax x a)) as (Hx & Hl & Hm).
    pose proof (Rmax_l x a) as Hxa. pose proof (Rmax_r x a) as Hax.
    split; [lra|]. split; [constructor; [lra|exact Hl]|].
    destruct Hm as [Hm|Hm]; [|auto].
    rewrite Hm. unfold Rmax. destruct (Rle_dec x a); auto.
Qed.

Lemma max_spec (l : list R) (m : R) :
  Np.max l = Ok m -> In m l /\ Forall (fun v => v <= m) l.
Proof.
  destruct l as [|x l]; [discriminate|]. simpl. intros H. inversion H.
  destruct (fold_max l x) as (Hx & Hl & Hm).
  split.
  - destruct Hm as [Hm|Hm]; [left; symmetry; exact Hm|right; exact Hm].
  - constructor; assumption.
Qed.

(** Decibels of [S] against a reference that is one of its values and
    bounds all of them. *)
Lemma db_under_max (S : list R) (m : R) :
  In m S -> Forall (fun v => v <= m) S ->
  Forall (fun d => d <= 0)
    (map (fun v => 10 * Librosa.log10 (Rmax Librosa.amin v)
                   - 10 * Librosa.log10 (Rmax Librosa.amin m)) S)
  /\ In 0
       (map (fun v => 10 * Librosa.log10 (Rmax Librosa.amin v)
                      - 10 * Librosa.log10 (Rmax Librosa.amin m)) S).
Proof.
  intros Hin Hall. split.
  - apply Forall_forall. intros d Hd. apply in_map_iff in Hd.
    destruct Hd as (v & <- & Hv). rewrite Forall_forall in Hall.
    pose proof (log10_le (Rmax Librosa.amin v) (Rmax Librosa.amin m)
                  (floor_pos v)
                  (Rle_max_compat_l _ _ _ (Hall v Hv))).
    lra.
  - apply in_map_iff. exists m. split; [lra|exact Hin].
Qed.

Lemma sig_db_under_max (rms : list R -> Z -> Z -> result (list R))
  (self : SigVad.t) (y db : list R) :
  SigVad.ref self = Librosa.RefCallable Np.max ->
  SigVad.signal_db rms self y = Ok db ->
  Forall (fun d => d <= 0) db /\ In 0 db.
Proof.
  intros Href. unfold SigVad.signal_db.
  destruct (rms y _ _) as [frames|]; [|discriminate]. cbn [bind].
  unfold Librosa.power_to_db. rewrite Href.
  destruct (Np.max _) as [m|] eqn:Hm; [|discriminate]. cbn [bind].
  intros H. inversion H. apply max_spec in Hm. destruct Hm as [Hin Hall].
  apply db_under_max; assumption.
Qed.

Lemma mel_db_under_max (self : MelVad.t) (mels : Np.matrix) (db : list R) :
  MelVad.mel_db self mels false = Ok db ->
  Forall (fun d => d <= 0) db /\ In 0 db.
Proof.
  unfold MelVad.mel_db. rewrite orb_true_r. simpl assert. cbn [bind].
  destruct (Z.eqb_spec (Np.bands mels) 80) as [Hb|]; [|discriminate].
  simpl assert. cbn [bind].
  rewrite (MelFacts.get_mel_power_ok mels Hb). cbn [bind].
  destruct (Np.max _) as [m|] eqn:Hm; [|discriminate]. cbn [bind].
  unfold Librosa.power_to_db. cbn [bind].
  intros H. inversion H. apply max_spec in Hm. destruct Hm as [Hin Hall].
  assert (Hm0 : 0 <= m).
  { unfold MelVad.feature_to_power_reference in Hin.
    apply in_map_iff in Hin. destruct Hin as (row & <- & _).
    apply MelFacts.frame_power_nonneg. }
  rewrite (Rabs_pos_eq m Hm0). apply db_under_max; assumption.
Qed.

Lemma zero_is_above (top_db : R) (db : list R) :
  0 < top_db -> In 0 db -> exists k, Frames.above top_db db k.
Proof.
  intros Htop Hin. apply In_nth_error in Hin. destruct Hin as (n & Hn).
  exists (Z.of_nat n). exists 0. split; [lia|]. split.
  - rewrite Nat2Z.id. exact Hn.
  - lra.
Qed.

End DbFacts.

(** X5.  With the reference taken from the input itself ([ref=np.max] in
    [SigVad], [using_global_ref=False] in [MelVad]) no frame is above
    0 dB and the loudest frame is at 0 dB exactly; so for a positive
    [top_db] at least one frame is classified as speech, and an input is
    never silent throughout. *)
Theorem loudest_frame_is_speech
  (rms : list R -> Z -> Z -> result (list R)) :
  (forall (self : SigVad.t) (y signal_db : list R),
      SigVad.ref self = Librosa.RefCallable Np.max ->
      SigVad.signal_db rms self y = Ok signal_db ->
      Forall (fun d => (d <= 0)%R) signal_db /\ In 0%R signal_db
      /\ ((0 < SigVad.top_db self)%R ->
          exists k : Z, Frames.above (SigVad.top_db self) signal_db k
                        /\ ~ Frames.below (SigVad.top_db self) signal_db k))
  /\ (forall (self : MelVad.t) (mels : Np.matrix) (mel_db : list R),
        MelVad.mel_db self mels false = Ok mel_db ->
        Forall (fun d => (d <= 0)%R) mel_db /\ In 0%R mel_db
        /\ ((0 < MelVad.top_db self)%R ->
            exists k : Z, Frames.above (MelVad.top_db self) mel_db k)).
Proof.
  split.
  - intros self y db Href Hdb.
    destruct (DbFacts.sig_db_under_max rms self y db Href Hdb) as [Hle H0].
    split; [exact Hle|]. split; [exact H0|]. intros Htop.
    destruct (DbFacts.zero_is_above _ db Htop H0) as (k & Hk).
    exists k. split; [exact Hk|].
    intros (d & _ & Hd & Hlt). destruct Hk as (d' & _ & Hd' & Hgt).
    rewrite Hd in Hd'. inversion Hd'. subst. lra.
  - intros self mels db Hdb.
    destruct (DbFacts.mel_db_under_max self mels db Hdb) as [Hle H0].
    split; [exact Hle|]. split; [exact H0|]. intros Htop.
    apply (DbFacts.zero_is_above _ db Htop H0).
Qed.

Lemma loudest_frame_is_speech_witness :
  (Forall (fun d => (d <= 0)%R) (repeat 0%R 188) /\ In 0%R (repeat 0%R 188)
   /\ ((0 < SigVad.top_db SigVad.init_default)%R ->
       exists k : Z,
         Frames.above (SigVad.top_db SigVad.init_default) (repeat 0%R 188) k
         /\ ~ Frames.below (SigVad.top_db SigVad.init_default)
                (repeat 0%R 188) k))
  /\ (Forall (fun d => (d <= 0)%R) (repeat 0%R 3) /\ In 0%R (repeat 0%R 3)
      /\ ((0 < MelVad.top_db MelVad.init_default)%R ->
          exists k : Z,
            Frames.above (MelVad.top_db MelVad.init_default)
              (repeat 0%R 3) k)).
Proof.
  destruct (loudest_frame_is_speech Librosa.rms) as (Hsig & Hmel).
  split.
  - apply (Hsig SigVad.init_default (repeat 0%R (Z.to_nat 48000))
             (repeat 0%R 188)).
    + reflexivity.
    + apply ZeroProfileFacts.default_profile.
  - apply (Hmel MelVad.init_default
             (Np.mk_matrix 80 (repeat (repeat 0%R 80) 3)) (repeat 0%R 3)).
    apply (LabelFacts.uniform_frames_db MelVad.init_default (repeat 0%R 80) 2).
Defined.

(** ** The range of the mel power *)

Module RangeFacts.

Import Runs.
Local Open Scope R_scope.

Lemma pow10_low : Rpower 10 (-4) = 0.0001.
Proof.
  replace (-4) with (Ropp (INR 4)) by (simpl; lra).
  rewrite Rpower_Ropp, Rpower_pow by lra. simpl. lra.
Qed.

Lemma pow10_high : Rpower 10 1 = 10.
Proof. apply Rpower_1. lra. Qed.

(** One band contributes between [10^-4] and [10]. *)
Lemma band_amplitude (x : R) :
  0.0001 <= Rpower 10 ((Np.clip x 0 1 * (- -100) + -100 + 20) * 0.05) <= 10.
Proof.
  pose proof (MelFacts.clip_unit x) as Hc.
  split.
  - rewrite <- pow10_low. apply Rle_Rpower; lra.
  - eapply Rle_trans; [apply (Rle_Rpower 10 _ 1); lra|].
    rewrite pow10_high. lra.
Qed.

Lemma sum_bounds (lo hi : R) (row : list R) :
  Forall (fun v => lo <= v <= hi) row ->
  INR (List.length row) * lo <= Np.sum row <= INR (List.length row) * hi.
Proof.
  induction 1 as [|v row Hv _ IH].
  - simpl. lra.
  - change (Np.sum (v :: row)) with (v + Np.sum row).
    change (List.length (v :: row)) with (S (List.length row)).
    rewrite S_INR. lra.
Qed.

Lemma frame_power_bounds (row : list R) :
  Np.len row = 80%Z ->
  0.008 <= Np.sum (map (fun x =>
                          Rpower 10
                            ((Np.clip x 0 1 * (- -100) + -100 + 20) * 0.05))
                       row) <= 800.
Proof.
  intros Hlen.
  pose proof (sum_bounds 0.0001 10
                (map (fun x =>
                        Rpower 10
                          ((Np.clip x 0 1 * (- -100) + -100 + 20) * 0.05))
                     row)) as H.
  rewrite length_map in H.
  assert (Hn : INR (List.length row) = 80).
  { unfold Np.len in Hlen. rewrite INR_IZR_INZ, Hlen. reflexivity. }
  rewrite Hn in H.
  assert (Hall : Forall (fun v => 0.0001 <= v <= 10)
                   (map (fun x =>
                           Rpower 10
                             ((Np.clip x 0 1 * (- -100) + -100 + 20) * 0.05))
                        row)).
  { apply Forall_forall. intros v Hv. apply in_map_iff in Hv.
    destruct Hv as (x & <- & _). apply band_amplitude. }
  specialize (H Hall). lra.
Qed.

Lemma powers_bounds (mels : Np.matrix) :
  Np.bands mels = 80%Z -> Np.well_shaped mels ->
  Forall (fun p => 0.008 <= p <= 800)
    (MelVad.feature_to_power_reference (Np.frames mels)).
Proof.
  intros Hb Hw. unfold Np.well_shaped in Hw. rewrite Hb in Hw.
  apply Forall_forall. intros p Hp.
  unfold MelVad.feature_to_power_reference in Hp.
  apply in_map_iff in Hp. destruct Hp as (row & <- & Hrow).
  rewrite Forall_forall in Hw. apply frame_power_bounds.
  apply (Hw row Hrow).
Qed.

Lemma log10_span : Librosa.log10 800 - Librosa.log10 0.008 = 5.
Proof.
  unfold Librosa.log10. pose proof DbFacts.ln_10_pos.
  replace 800 with (0.008 * 10 ^ 5) by lra.
  rewrite ln_mult by (try apply pow_lt; lra).
  rewrite ln_pow by lra. simpl INR. field. lra.
Qed.

(** Two powers within the range are at most 50 dB apart. *)
Lemma db_span (p m : R) :
  0.008 <= p <= 800 -> 0.008 <= m <= 800 ->
  -50 <= 10 * Librosa.log10 (Rmax Librosa.amin p)
         - 10 * Librosa.log10 (Rmax Librosa.amin (Rabs m)).
Proof.
  intros Hp Hm.
  rewrite (Rabs_pos_eq m) by lra.
  rewrite !Rmax_right by (unfold Librosa.amin; lra).
  pose proof (DbFacts.log10_le 0.008 p ltac:(lra) ltac:(lra)).
  pose proof (DbFacts.log10_le m 800 ltac:(lra) ltac:(lra)).
  pose proof log10_span. lra.
Qed.

Lemma all_true_runs (mask : list bool) :
  Forall (eq true) mask ->
  forall i cur,
    (cur <> None \/ mask <> []) ->
    runs_from i cur mask
    = [(match cur with Some c => c | None => i end,
        (i + Np.len mask - 1)%Z)].
Proof.
  induction 1 as [|b mask Hb Hall IH]; intros i cur Hne.
  - destruct cur as [c|]; [|destruct Hne; congruence].
    simpl. unfold Np.len. simpl. do 2 f_equal. lia.
  - subst b. simpl runs_from.
    rewrite IH by (left; discriminate).
    rewrite ScanFacts.len_cons. do 2 f_equal. lia.
Qed.

End RangeFacts.

(** X6.  For a feature matrix of 80 bands per frame the power of every
    frame lies between 0.008 and 800, whatever the feature values, so
    with the local reference no frame is more than 50 dB below the
    loudest one: for [top_db > 50] every frame is classified as speech
    and [get_nosil_endpoints] returns the whole input as one interval
    (when it has at least three frames). *)
Theorem mel_dynamic_range_is_50_db
  (self : MelVad.t) (mels : Np.matrix) (mel_db : list R) :
  Np.well_shaped mels ->
  MelVad.mel_db self mels false = Ok mel_db ->
  (exists powers : list R,
      MelVad._get_mel_power mels = Ok powers
      /\ Forall (fun p => (0.008 <= p <= 800)%R) powers)
  /\ Forall (fun d => (-50 <= d <= 0)%R) mel_db
  /\ ((50 < MelVad.top_db self)%R ->
      3 <= Np.len (Np.frames mels) ->
      MelVad.get_nosil_endpoints self mels false
      = Ok [(0, Np.len (Np.frames mels) - 1)]).
Proof.
  intros Hw Hdb. pose proof Hdb as Hdb0.
  pose proof (DbFacts.mel_db_under_max self mels mel_db Hdb) as [Hle _].
  pose proof (ProfileFacts.mel_db_len self mels false mel_db Hdb) as Hlen.
  unfold MelVad.mel_db in Hdb. rewrite orb_true_r in Hdb.
  simpl assert in Hdb. cbn [bind] in Hdb.
  destruct (Z.eqb_spec (Np.bands mels) 80) as [Hb|]; [|discriminate].
  simpl assert in Hdb. cbn [bind] in Hdb.
  rewrite (MelFacts.get_mel_power_ok mels Hb) in Hdb |- *.
  cbn [bind] in Hdb.
  pose proof (RangeFacts.powers_bounds mels Hb Hw) as Hpow.
  destruct (Np.max _) as [m|] eqn:Hm; [|discriminate]. cbn [bind] in Hdb.
  apply DbFacts.max_spec in Hm. destruct Hm as [Hin _].
  assert (Hmb : (0.008 <= m <= 800)%R).
  { rewrite Forall_forall in Hpow. apply Hpow, Hin. }
  unfold Librosa.power_to_db in Hdb. cbn [bind] in Hdb.
  injection Hdb as Hdb'.
  assert (Hrange : Forall (fun d => (-50 <= d <= 0)%R) mel_db).
  { apply Forall_forall. intros d Hd.
    rewrite Forall_forall in Hle. split; [|apply Hle, Hd].
    rewrite <- Hdb' in Hd. apply in_map_iff in Hd.
    destruct Hd as (p & <- & Hp). rewrite Forall_forall in Hpow.
    apply RangeFacts.db_span; [apply Hpow, Hp|exact Hmb]. }
  split; [eexists; split; [reflexivity|exact Hpow]|].
  split; [exact Hrange|].
  intros Htop Hn.
  rewrite DropFacts.mel_endpoints, Hdb0. cbn [bind]. do 2 f_equal.
  assert (Hmask : Forall (eq true) (MelVad.nosil_mask self mel_db)).
  { unfold MelVad.nosil_mask. apply Forall_forall. intros b Hb'.
    apply in_map_iff in Hb'. destruct Hb' as (d & <- & Hd).
    rewrite Forall_forall in Hrange. specialize (Hrange d Hd).
    symmetry. apply MelFacts.gt_true. lra. }
  unfold Runs.maximal_runs.
  assert (Hne : MelVad.nosil_mask self mel_db <> []).
  { intros Hnil. apply (f_equal (@Np.len bool)) in Hnil.
    unfold MelVad.nosil_mask in Hnil.
    rewrite DropFacts.len_map, Hlen in Hnil.
    change (Np.len (@nil bool)) with 0 in Hnil. lia. }
  rewrite (RangeFacts.all_true_runs _ Hmask 0 None) by (right; exact Hne).
  unfold MelVad.nosil_mask. rewrite DropFacts.len_map, Hlen.
  simpl. unfold Runs.long_enough. simpl.
  destruct (Z.ltb_spec 1 (Np.len (Np.frames mels) - 1 - 0)); [|lia].
  reflexivity.
Qed.

Lemma mel_dynamic_range_is_50_db_witness :
  (exists powers : list R,
      MelVad._get_mel_power (Np.mk_matrix 80 (repeat (repeat 0%R 80) 3))
      = Ok powers
      /\ Forall (fun p => (0.008 <= p <= 800)%R) powers)
  /\ Forall (fun d => (-50 <= d <= 0)%R) (repeat 0%R 3)
  /\ ((50 < MelVad.top_db (MelVad.mk None 60))%R ->
      3 <= Np.len (Np.frames (Np.mk_matrix 80 (repeat (repeat 0%R 80) 3))) ->
      MelVad.get_nosil_endpoints (MelVad.mk None 60)
        (Np.mk_matrix 80 (repeat (repeat 0%R 80) 3)) false
      = Ok [(0, Np.len (Np.frames
                          (Np.mk_matrix 80 (repeat (repeat 0%R 80) 3))) - 1)]).
Proof.
  apply (mel_dynamic_range_is_50_db (MelVad.mk None 60)
           (Np.mk_matrix 80 (repeat (repeat 0%R 80) 3)) (repeat 0%R 3)).
  - repeat constructor.
  - apply (LabelFacts.uniform_frames_db (MelVad.mk None 60) (repeat 0%R 80) 2).
Defined.

(** ** Exceptions of [get_speech_endpoint] *)

(** X7.  [SigVad.get_speech_endpoint] raises only what resolving its
    input raises, [ZeroDivisionError] for a zero sample rate, and what
    [_get_sil_endpoints] raises: [_sil_to_nosil] would raise
    [IndexError] on an empty list, but the guard on [len(sil_data)]
    keeps it from being called with one, and on a non-empty list its
    index loop stays in range. *)
Theorem speech_endpoint_exceptions
  (rms : list R -> Z -> Z -> result (list R))
  (load : string -> Z -> result (list R * Z))
  (self : SigVad.t) (wav_path : option string)
  (signal : option (list R)) (sr : option Z)
  (min_sil_dur min_nosil_dur : Q) :
  (forall e : exn,
      SigVad.resolve load wav_path signal sr = Raise e ->
      SigVad.get_speech_endpoint rms load self wav_path signal sr
        min_sil_dur min_nosil_dur = Raise e)
  /\ (forall y : list R,
        SigVad.resolve load wav_path signal sr = Ok (y, 0) ->
        SigVad.get_speech_endpoint rms load self wav_path signal sr
          min_sil_dur min_nosil_dur = Raise ZeroDivisionError)
  /\ (forall (y : list R) (r : Z),
        SigVad.resolve load wav_path signal sr = Ok (y, r) -> r <> 0 ->
        forall e : exn,
          SigVad.get_speech_endpoint rms load self wav_path signal sr
            min_sil_dur min_nosil_dur = Raise e
          <-> SigVad._get_sil_endpoints rms self y "sil" = Raise e)
  /\ (forall dur : Q, SigVad._sil_to_nosil [] dur = Raise IndexError)
  /\ (forall (sil_data : list (Q * Q)) (dur : Q),
        sil_data <> [] ->
        exists nosil_data : list (Q * Q),
          SigVad._sil_to_nosil sil_data dur = Ok nosil_data).
Proof.
  split; [|split; [|split; [|split]]].
  - intros e He. unfold SigVad.get_speech_endpoint. rewrite He. reflexivity.
  - intros y Hy. unfold SigVad.get_speech_endpoint. rewrite Hy. reflexivity.
  - intros y r Hres Hr e.
    rewrite (EndpointFacts.resolved rms load self _ _ _ min_sil_dur
               min_nosil_dur _ _ Hres Hr).
    destruct (SigVad._get_sil_endpoints rms self y "sil") as [sil|err].
    + cbn [bind].
      destruct (Np.len (SigVad.sil_seconds sil r min_sil_dur) =? 0) eqn:Hlen.
      * split; discriminate.
      * rewrite ComplementFacts.sil_to_nosil_reference.
        -- cbn [bind]. split; discriminate.
        -- intros Hnil. rewrite Hnil in Hlen. discriminate.
    + cbn [bind]. split; intros H; inversion H; reflexivity.
  - reflexivity.
  - intros sil dur Hne. eexists.
    apply ComplementFacts.sil_to_nosil_reference, Hne.
Qed.

Lemma speech_endpoint_exceptions_witness :
  SigVad.get_speech_endpoint Librosa.rms Librosa.load_no_file
    SigVad.init_default (Some "a.wav"%string) None None 0.75 0.40
  = Raise (Exception "file not found")
  /\ SigVad.get_speech_endpoint Librosa.rms Librosa.load_no_file
       SigVad.init_default None (Some [0%R]) (Some 0) 0.75 0.40
     = Raise ZeroDivisionError
  /\ (exists nosil_data : list (Q * Q),
         SigVad._sil_to_nosil [(0.5, 1.5)%Q] 3 = Ok nosil_data).
Proof.
  destruct (speech_endpoint_exceptions Librosa.rms Librosa.load_no_file
              SigVad.init_default (Some "a.wav"%string) None None
              0.75%Q 0.40%Q) as (Hload & _).
  destruct (speech_endpoint_exceptions Librosa.rms Librosa.load_no_file
              SigVad.init_default None (Some [0%R]) (Some 0)
              0.75%Q 0.40%Q) as (_ & Hzero & _ & _ & Htotal).
  split; [|split].
  - apply Hload. reflexivity.
  - apply (Hzero [0%R]). reflexivity.
  - apply Htotal. discriminate.
Defined.

(** ** Coverage of the clip *)

Module CoverageFacts.

Import Intervals SigVad Measures.
Local Open Scope Q_scope.

Lemma total_app (a b : list (Q * Q)) : total (a ++ b) == total a + total b.
Proof.
  induction a as [|i a IH]; simpl.
  - ring.
  - rewrite IH. ring.
Qed.

Lemma between_telescopes (rest : list (Q * Q)) :
  forall a d : Q * Q,
    total (a :: rest) + total (between (a :: rest))
    == snd (last (a :: rest) d) - fst a.
Proof.
  induction rest as [|b rest IH]; intros a d.
  - simpl. ring.
  - change (between (a :: b :: rest))
      with ((snd a, fst b) :: between (b :: rest)).
    change (last (a :: b :: rest) d) with (last (b :: rest) d).
    specialize (IH b d).
    change (total (a :: b :: rest))
      with ((snd a - fst a) + total (b :: rest)).
    change (total ((snd a, fst b) :: between (b :: rest)))
      with ((fst b - snd a) + total (between (b :: rest))).
    transitivity ((total (b :: rest) + total (between (b :: rest)))
                  + (fst b - fst a)); [ring|].
    rewrite IH. ring.
Qed.

Lemma lead_sum (first : Q * Q) :
  total (if gt (fst first) 0.001 then [(0, fst first)] else [])
  + lead_gap first == fst first.
Proof.
  unfold lead_gap. destruct (gt (fst first) 0.001); simpl; ring.
Qed.

Lemma trail_sum (final : Q * Q) (dur : Q) :
  total (if gt (dur - snd final) 0.001 then [(snd final, dur)] else [])
  + trail_gap final dur == dur - snd final.
Proof.
  unfold trail_gap. destruct (gt (dur - snd final) 0.001); simpl; ring.
Qed.

Lemma complement_total (first : Q * Q) (rest : list (Q * Q)) (dur : Q) :
  total (first :: rest) + total (complement_reference (first :: rest) dur)
  + lead_gap first + trail_gap (last (first :: rest) first) dur
  == dur.
Proof.
  unfold complement_reference. rewrite !total_app.
  pose proof (between_telescopes rest first first) as Htel.
  pose proof (lead_sum first) as Hlead.
  pose proof (trail_sum (last (first :: rest) first) dur) as Htrail.
  lra.
Qed.

Lemma gap_small (a : Q) : (if gt a 0.001 then 0 else a) <= 0.001.
Proof.
  destruct (gt a 0.001) eqn:Hg; [lra|].
  unfold gt in Hg. apply negb_false_iff in Hg.
  apply Qle_bool_iff in Hg. exact Hg.
Qed.

Lemma later_touching (rest : list (Q * Q)) :
  forall (a d : Q * Q) (dur : Q),
    chain Qlt Qlt (a :: rest) ->
    forall i j,
      In i (later_part (a :: rest) d dur) -> In j (a :: rest) ->
      touching_at_most i j.
Proof.
  induction rest as [|b rest IH]; intros a d dur Hc i j Hi Hj.
  - unfold later_part in Hi. simpl in Hi.
    destruct (gt (dur - snd a) 0.001); [|contradiction].
    destruct Hi as [<-|[]]. destruct Hj as [<-|[]].
    right. simpl. lra.
  - pose proof Hc as (Ha & Hl & Hc').
    destruct (SpeechFacts.later_part_chain rest b d dur Hc') as [_ Hf].
    assert (Hab : snd a < fst b) by (inversion Hl; assumption).
    assert (Hb : fst b < snd b) by (destruct Hc' as (H & _); exact H).
    change (later_part (a :: b :: rest) d dur)
      with ((snd a, fst b) :: later_part (b :: rest) d dur) in Hi.
    destruct Hi as [<-|Hi].
    + destruct Hj as [<-|Hj]; [right; simpl; lra|].
      left. simpl. destruct Hj as [<-|Hj]; [lra|].
      destruct Hc' as (_ & Hl' & _). rewrite Forall_forall in Hl'.
      specialize (Hl' j Hj). simpl in Hl'. lra.
    + destruct Hj as [<-|Hj].
      * right. rewrite Forall_forall in Hf. specialize (Hf i Hi).
        simpl in Hf. lra.
      * apply (IH b d dur Hc' i j Hi Hj).
Qed.

Lemma complement_touching (sd : list (Q * Q)) (dur : Q) :
  chain Qlt Qlt sd ->
  forall i j,
    In i (complement_reference sd dur) -> In j sd -> touching_at_most i j.
Proof.
  destruct sd as [|first rest]; [intros _ i j []|].
  intros Hc i j Hi Hj. unfold complement_reference in Hi.
  change (between (first :: rest)
          ++ (if gt (dur - snd (last (first :: rest) first)) 0.001
              then [(snd (last (first :: rest) first), dur)] else []))
    with (later_part (first :: rest) first dur) in Hi.
  apply in_app_or in Hi. destruct Hi as [Hi|Hi].
  - destruct (gt (fst first) 0.001); [|contradiction].
    destruct Hi as [<-|[]]. left. simpl.
    destruct Hj as [<-|Hj]; [lra|].
    destruct Hc as (Hf & Hl & _). rewrite Forall_forall in Hl.
    specialize (Hl j Hj). simpl in Hl. lra.
  - apply (later_touching rest first first dur Hc i j Hi Hj).
Qed.

Lemma fixed_reference_speech :
  get_speech_endpoint Librosa.rms Librosa.load_no_file
    (mk 25 1024 256 (Librosa.RefValue 1))
    None (Some (repeat 0%R (Z.to_nat 48000))) (Some 16000%Z) 0.75 0.40
  = Ok [].
Proof.
  rewrite (EndpointFacts.some_silence Librosa.rms Librosa.load_no_file
             (mk 25 1024 256 (Librosa.RefValue 1))
             None (Some (repeat 0%R (Z.to_nat 48000))) (Some 16000%Z)
             0.75 0.40 (repeat 0%R (Z.to_nat 48000)) 16000%Z
             [(0%Z, 47872%Z)]).
  - rewrite DefaultFacts.repeat_len by lia. reflexivity.
  - reflexivity.
  - lia.
  - apply DefaultFacts.fixed_reference_clip.
  - discriminate.
Qed.

End CoverageFacts.

(** X8.  The silence intervals, the speech intervals [_sil_to_nosil]
    derives from them, and the two boundary gaps add up to the duration
    of the clip: no time is counted twice, and the only time given to
    neither is a gap of at most 0.001 s before the first silence and one
    after the last. *)
Theorem complement_durations_add_up
  (sil_data : list (Q * Q)) (dur : Q) (first final : Q * Q) :
  nth_error sil_data 0 = Some first ->
  nth_error sil_data (pred (List.length sil_data)) = Some final ->
  exists nosil_data : list (Q * Q),
    SigVad._sil_to_nosil sil_data dur = Ok nosil_data
    /\ (Measures.total sil_data + Measures.total nosil_data
        + Measures.lead_gap first + Measures.trail_gap final dur == dur)%Q
    /\ (Measures.lead_gap first <= 0.001)%Q
    /\ (Measures.trail_gap final dur <= 0.001)%Q.
Proof.
  intros Hfirst Hfinal.
  destruct sil_data as [|a rest]; [discriminate|].
  simpl in Hfirst. inversion Hfirst. subst a.
  rewrite (ComplementFacts.nth_error_pred_last _ (first :: rest) first)
    in Hfinal by discriminate.
  inversion Hfinal as [Hfin].
  exists (SigVad.complement_reference (first :: rest) dur).
  split; [apply ComplementFacts.sil_to_nosil_reference; discriminate|].
  split; [apply CoverageFacts.complement_total|].
  split; apply CoverageFacts.gap_small.
Qed.

Lemma complement_durations_add_up_witness :
  exists nosil_data : list (Q * Q),
    SigVad._sil_to_nosil [(0.0005, 1.5)%Q; (2, 2.9995)%Q] 3 = Ok nosil_data
    /\ (Measures.total [(0.0005, 1.5)%Q; (2, 2.9995)%Q]
        + Measures.total nosil_data
        + Measures.lead_gap (0.0005, 1.5)%Q
        + Measures.trail_gap (2, 2.9995)%Q 3 == 3)%Q
    /\ (Measures.lead_gap (0.0005, 1.5)%Q <= 0.001)%Q
    /\ (Measures.trail_gap (2, 2.9995)%Q 3 <= 0.001)%Q.
Proof.
  apply (complement_durations_add_up [(0.0005, 1.5)%Q; (2, 2.9995)%Q] 3%Q
           (0.0005, 1.5)%Q (2, 2.9995)%Q); reflexivity.
Defined.

(** X9.  No speech interval returned by [SigVad.get_speech_endpoint]
    overlaps a silence interval it kept: for a positive sample rate, a
    returned interval and a kept silence share at most an end point. *)
Theorem speech_never_overlaps_silence
  (rms : list R -> Z -> Z -> result (list R))
  (load : string -> Z -> result (list R * Z))
  (self : SigVad.t) (wav_path : option string)
  (signal : option (list R)) (sr : option Z)
  (min_sil_dur min_nosil_dur : Q)
  (y : list R) (r : Z) (sil_data : list (Z * Z)) (out : list (Q * Q)) :
  SigVad.resolve load wav_path signal sr = Ok (y, r) -> 0 < r ->
  SigVad._get_sil_endpoints rms self y "sil" = Ok sil_data ->
  SigVad.get_speech_endpoint rms load self wav_path signal sr
    min_sil_dur min_nosil_dur = Ok out ->
  forall i j : Q * Q,
    In i out -> In j (SigVad.sil_seconds sil_data r min_sil_dur) ->
    Measures.touching_at_most i j.
Proof.
  intros Hres Hr Hsil Hout i j Hi Hj.
  assert (Hne : SigVad.sil_seconds sil_data r min_sil_dur <> []).
  { intros Hnil. rewrite Hnil in Hj. contradiction. }
  rewrite (EndpointFacts.some_silence rms load self wav_path signal sr
             min_sil_dur min_nosil_dur y r sil_data Hres ltac:(lia)
             Hsil Hne) in Hout.
  inversion Hout. subst out. apply filter_In in Hi. destruct Hi as [Hi _].
  apply (CoverageFacts.complement_touching
           (SigVad.sil_seconds sil_data r min_sil_dur)
           (inject_Z (Np.len y) / inject_Z r)%Q); auto.
  apply SpeechFacts.sil_seconds_chain; [exact Hr|].
  apply (EndpointFacts.sil_endpoints_chain rms self y "sil"), Hsil.
Qed.

(** ** Speech intervals lie within the clip *)

Module WithinFacts.

Import Intervals Runs SigVad.

Lemma ok_inj (A : Type) (a b : A) : Ok a = Ok b -> a = b.
Proof. congruence. Qed.

(** The number of frames of librosa's extractor: the last frame starts
    within the signal. *)
Lemma rms_frame_bound (y : list R) (frame_length hop_length : Z)
  (frames : list R) :
  Librosa.rms y frame_length hop_length = Ok frames ->
  Np.len frames
  = 1 + (Np.len y + 2 * (frame_length / 2) - frame_length) / hop_length
  /\ (Np.len frames - 1) * hop_length <= Np.len y.
Proof.
  unfold Librosa.rms.
  destruct (Z.eqb_spec (Np.len y) 0); [discriminate|].
  destruct (Z.ltb_spec frame_length 1); [discriminate|].
  destruct (Z.ltb_spec hop_length 1); [discriminate|]. cbn [orb].
  assert (Hhalf : 0 <= frame_length / 2) by (apply Z.div_pos; lia).
  rewrite (SilenceFacts.pad_reflect_len _ y Hhalf).
  destruct (Z.ltb_spec (Np.len y + 2 * (frame_length / 2)) frame_length);
    [discriminate|].
  intros Hok. apply ok_inj in Hok. subst frames.
  rewrite DropFacts.len_map, SilenceFacts.range_len.
  set (q := Np.len y + 2 * (frame_length / 2) - frame_length) in *.
  assert (Hq : 0 <= q) by (unfold q; lia).
  assert (Hdiv : 0 <= q / hop_length) by (apply Z.div_pos; lia).
  assert (Hmul : hop_length * (q / hop_length) <= q)
    by (apply Z.mul_div_le; lia).
  assert (Hle : q <= Np.len y).
  { pose proof (Z.mod_pos_bound frame_length 2 ltac:(lia)).
    pose proof (Z.div_mod frame_length 2 ltac:(lia)). unfold q. lia. }
  split; [lia|].
  replace (Z.max 0 (1 + q / hop_length - 0) - 1) with (q / hop_length)
    by lia.
  lia.
Qed.

Lemma signal_db_frames (rms : list R -> Z -> Z -> result (list R))
  (self : t) (y db : list R) :
  signal_db rms self y = Ok db ->
  exists frames,
    rms y (frame_length self) (hop_length self) = Ok frames
    /\ Np.len db = Np.len frames.
Proof.
  unfold signal_db.
  destruct (rms y _ _) as [frames|]; [|discriminate]. cbn [bind].
  unfold Librosa.power_to_db.
  destruct (match ref self with
            | Librosa.RefCallable f => _
            | Librosa.RefValue r => _
            end) as [v|]; [|discriminate].
  cbn [bind]. intros H. inversion H. exists frames. split; [reflexivity|].
  now rewrite !DropFacts.len_map.
Qed.

Lemma sil_samples_within (rms : list R -> Z -> Z -> result (list R))
  (self : t) (y : list R) (sil_type : string) (out : list (Z * Z)) :
  (forall frames,
      rms y (frame_length self) (hop_length self) = Ok frames ->
      (Np.len frames - 1) * hop_length self <= Np.len y) ->
  _get_sil_endpoints rms self y sil_type = Ok out ->
  Forall (fun ab => 0 <= fst ab /\ snd ab <= Np.len y) out.
Proof.
  intros Hext Hout.
  destruct (signal_db rms self y) as [db|] eqn:Hdb.
  2:{ unfold _get_sil_endpoints in Hout. rewrite Hdb in Hout. discriminate. }
  destruct (SampleFacts.sig_output rms self y db sil_type out Hdb Hout)
    as (mask & Hmask & ->).
  destruct (signal_db_frames rms self y db Hdb) as (frames & Hrms & Hlen).
  specialize (Hext frames Hrms).
  pose proof (DropFacts.sil_mask_len self db sil_type mask Hmask) as Hml.
  apply Forall_forall. intros [a b] Hin.
  apply SampleFacts.sample_run_frames in Hin.
  destruct Hin as (s & e & -> & -> & H0 & Hse & He & Hhop & _).
  simpl. split; [nia|].
  rewrite Hml, Hlen in He.
  assert (e * hop_length self <= (Np.len frames - 1) * hop_length self)
    by (apply Z.mul_le_mono_nonneg_r; lia).
  lia.
Qed.

Local Open Scope Q_scope.

Lemma div_le (a b r : Z) :
  (0 < r)%Z -> (a <= b)%Z -> inject_Z a / inject_Z r <= inject_Z b / inject_Z r.
Proof.
  intros Hr Hab. unfold Qdiv. apply Qmult_le_compat_r.
  - now rewrite <- Zle_Qle.
  - apply Qlt_le_weak, Qinv_lt_0_compat, SpeechFacts.inject_pos, Hr.
Qed.

Lemma zero_div (r : Z) : inject_Z 0 / inject_Z r == 0.
Proof. unfold Qdiv. apply Qmult_0_l. Qed.

Lemma between_endpoints (l : list (Q * Q)) (i : Q * Q) :
  In i (between l) ->
  exists a b, In a l /\ In b l /\ i = (snd a, fst b).
Proof.
  induction l as [|x l IH]; [intros []|].
  destruct l as [|z l]; [intros []|].
  change (between (x :: z :: l)) with ((snd x, fst z) :: between (z :: l)).
  intros [<-|Hi].
  - exists x, z. simpl. auto.
  - destruct (IH Hi) as (a & b & Ha & Hb & ->).
    exists a, b. simpl in *. auto.
Qed.

Lemma last_member (A : Type) (l : list A) (d : A) :
  l <> [] -> In (last l d) l.
Proof.
  induction l as [|a l IH]; [congruence|]. intros _.
  destruct l as [|b l]; [left; reflexivity|].
  right. apply IH. discriminate.
Qed.

Lemma complement_within (sd : list (Q * Q)) (dur : Q) :
  Forall (fun j => 0 <= fst j /\ fst j <= snd j /\ snd j <= dur) sd ->
  Forall (fun i => 0 <= fst i /\ snd i <= dur) (complement_reference sd dur).
Proof.
  intros Hsd. rewrite Forall_forall in Hsd.
  apply Forall_forall. intros i Hi.
  destruct sd as [|first rest]; [contradiction|].
  unfold complement_reference in Hi.
  apply in_app_or in Hi. destruct Hi as [Hi|Hi].
  - destruct (gt (fst first) 0.001); [|contradiction].
    destruct Hi as [<-|[]]. cbn [fst snd].
    pose proof (Hsd first (or_introl eq_refl)). lra.
  - apply in_app_or in Hi. destruct Hi as [Hi|Hi].
    + apply between_endpoints in Hi.
      destruct Hi as (a & b & Ha & Hb & ->). cbn [fst snd].
      pose proof (Hsd a Ha). pose proof (Hsd b Hb). lra.
    + destruct (gt (dur - snd (last (first :: rest) first)) 0.001);
        [|contradiction].
      destruct Hi as [<-|[]]. cbn [fst snd].
      pose proof (Hsd _ (last_member _ (first :: rest) first
                           ltac:(discriminate))).
      lra.
Qed.

Lemma seconds_within (sil : list (Z * Z)) (sr : Z) (min_sil : Q) (n : Z) :
  (0 < sr)%Z ->
  Forall (fun ab => (0 <= fst ab)%Z /\ (snd ab <= n)%Z) sil ->
  chain Z.lt Z.lt sil ->
  Forall (fun j => 0 <= fst j /\ fst j <= snd j
                   /\ snd j <= inject_Z n / inject_Z sr)
    (sil_seconds sil sr min_sil).
Proof.
  intros Hr Hb Hc. rewrite Forall_forall in Hb.
  apply Forall_forall. intros j Hj. unfold sil_seconds in Hj.
  apply in_map_iff in Hj. destruct Hj as ([a b] & <- & Hin).
  apply filter_In in Hin. destruct Hin as [Hin _].
  destruct (Hb _ Hin) as [Ha Hbn]. simpl in Ha, Hbn.
  assert (Hab : (a < b)%Z).
  { pose proof (IntervalFacts.Z_ordered sil Hc) as (Heach & _).
    apply In_nth_error in Hin. destruct Hin as (k & Hk).
    apply (Heach k (a, b) Hk). }
  unfold to_seconds. simpl. split; [|split].
  - rewrite <- (zero_div sr). apply div_le; assumption.
  - apply div_le; [assumption|lia].
  - apply div_le; assumption.
Qed.

End WithinFacts.

(** X10.  When the energy extractor places its last frame within the
    signal ([(frames - 1) * hop_length <= len(signal)], as
    [librosa.feature.rms] does), every speech interval returned by
    [SigVad.get_speech_endpoint] lies within the clip: it starts at 0 or
    later and ends at [len(signal) / sr] or earlier. *)
Theorem speech_within_the_clip
  (rms : list R -> Z -> Z -> result (list R))
  (load : string -> Z -> result (list R * Z))
  (self : SigVad.t) (wav_path : option string)
  (signal : option (list R)) (sr : option Z)
  (min_sil_dur min_nosil_dur : Q)
  (y : list R) (r : Z) (out : list (Q * Q)) :
  SigVad.resolve load wav_path signal sr = Ok (y, r) -> 0 < r ->
  (forall frames : list R,
      rms y (SigVad.frame_length self) (SigVad.hop_length self) = Ok frames ->
      (Np.len frames - 1) * SigVad.hop_length self <= Np.len y) ->
  SigVad.get_speech_endpoint rms load self wav_path signal sr
    min_sil_dur min_nosil_dur = Ok out ->
  forall i : Q * Q,
    In i out ->
    (0 <= fst i)%Q /\ (snd i <= inject_Z (Np.len y) / inject_Z r)%Q.
Proof.
  intros Hres Hr Hext Hout i Hi.
  assert (Hr0 : r <> 0) by lia.
  destruct (SigVad._get_sil_endpoints rms self y "sil") as [sil|err] eqn:Hsil.
  2:{ rewrite (EndpointFacts.resolved rms load self _ _ _ min_sil_dur
                 min_nosil_dur _ _ Hres Hr0), Hsil in Hout. discriminate. }
  destruct (SigVad.sil_seconds sil r min_sil_dur) as [|a sd] eqn:Hsd.
  - rewrite (EndpointFacts.no_silence rms load self _ _ _ min_sil_dur
               min_nosil_dur _ _ _ Hres Hr0 Hsil Hsd) in Hout.
    inversion Hout. subst out. destruct Hi as [<-|[]]. simpl.
    split; lra.
  - rewrite (EndpointFacts.some_silence rms load self _ _ _ min_sil_dur
               min_nosil_dur _ _ _ Hres Hr0 Hsil) in Hout
      by (rewrite Hsd; discriminate).
    inversion Hout. subst out. apply filter_In in Hi. destruct Hi as [Hi _].
    assert (Hw : Forall
                   (fun i => (0 <= fst i)%Q
                             /\ (snd i <= inject_Z (Np.len y) / inject_Z r)%Q)
                   (SigVad.complement_reference
                      (SigVad.sil_seconds sil r min_sil_dur)
                      (inject_Z (Np.len y) / inject_Z r)%Q)).
    { apply WithinFacts.complement_within.
      apply WithinFacts.seconds_within; [exact Hr| |].
      - apply (WithinFacts.sil_samples_within rms self y "sil" sil Hext Hsil).
      - apply (EndpointFacts.sil_endpoints_chain rms self y "sil"), Hsil. }
    rewrite Forall_forall in Hw. apply Hw, Hi.
Qed.

(** ** A worked clip: speech, silence, speech

    Frames of one sample ([frame_length = hop_length = 1]): the energy of
    a frame is the absolute value of its sample.  The clip has 12 samples
    of amplitude 1, 16 of amplitude 0 and 8 of amplitude 1, sampled at
    4 Hz: 3 s of speech, 4 s of silence, 2 s of speech. *)

Module UnitFrameFacts.

Lemma nth_range (y : list R) :
  forall (pre : list R),
    map (fun i => nth (Z.to_nat i) (pre ++ y) 0%R)
        (Np.range_from (Np.len pre) (List.length y)) = y.
Proof.
  induction y as [|v y IH]; intros pre; [reflexivity|].
  cbn [List.length Np.range_from map]. f_equal.
  - unfold Np.len. rewrite Nat2Z.id. rewrite app_nth2 by lia.
    now rewrite Nat.sub_diag.
  - replace (pre ++ v :: y) with ((pre ++ [v]) ++ y)
      by (rewrite <- app_assoc; reflexivity).
    replace (Np.len pre + 1) with (Np.len (pre ++ [v]))
      by (unfold Np.len; rewrite length_app; simpl; lia).
    apply IH.
Qed.

Lemma reflect_inside (n i : Z) : 0 <= i < n -> Librosa.reflect_index n i = i.
Proof.
  intros Hi. unfold Librosa.reflect_index.
  destruct (Z.leb_spec n 1); [lia|].
  cbv zeta. rewrite Z.mod_small by lia.
  destruct (Z.ltb_spec i n); lia.
Qed.

Lemma In_range_from (lo : Z) (n : nat) (i : Z) :
  In i (Np.range_from lo n) -> lo <= i < lo + Z.of_nat n.
Proof.
  revert lo. induction n as [|n IH]; intros lo; simpl; [tauto|].
  intros [<-|H]; [lia|]. apply IH in H. lia.
Qed.

Lemma pad_none (y : list R) : Librosa.pad_reflect 0 y = y.
Proof.
  unfold Librosa.pad_reflect, Np.range.
  replace (Z.to_nat (Np.len y + 0 - - 0)) with (List.length y)
    by (unfold Np.len; lia).
  change (- 0) with (Np.len (@nil R)).
  transitivity (map (fun i => nth (Z.to_nat i) ([] ++ y) 0%R)
                  (Np.range_from (Np.len (@nil R)) (List.length y)));
    [|apply nth_range].
  apply map_ext_in. intros i Hi. apply In_range_from in Hi.
  change (Np.len (@nil R)) with 0 in Hi.
  rewrite reflect_inside by (unfold Np.len; lia). reflexivity.
Qed.

Lemma frame_at (y : list R) :
  forall (pre : list R),
    map (fun t => firstn 1 (skipn (Z.to_nat (t * 1)) (pre ++ y)))
        (Np.range_from (Np.len pre) (List.length y))
    = map (fun v => [v]) y.
Proof.
  induction y as [|v y IH]; intros pre; [reflexivity|].
  cbn [List.length Np.range_from map]. f_equal.
  - rewrite Z.mul_1_r. unfold Np.len. rewrite Nat2Z.id.
    rewrite skipn_app, skipn_all, Nat.sub_diag. reflexivity.
  - replace (pre ++ v :: y) with ((pre ++ [v]) ++ y)
      by (rewrite <- app_assoc; reflexivity).
    replace (Np.len pre + 1) with (Np.len (pre ++ [v]))
      by (unfold Np.len; rewrite length_app; simpl; lia).
    apply IH.
Qed.

Lemma rms_unit_frames (y : list R) :
  y <> [] -> Librosa.rms y 1 1 = Ok (map Rabs y).
Proof.
  intros Hy. unfold Librosa.rms.
  assert (Hlen : 1 <= Np.len y).
  { destruct y; [congruence|]. rewrite ScanFacts.len_cons.
    pose proof (ScanFacts.len_nonneg _ y). lia. }
  destruct (Z.eqb_spec (Np.len y) 0); [lia|].
  change (1 <? 1) with false. cbn [orb].
  change (1 / 2) with 0. rewrite pad_none.
  destruct (Z.ltb_spec (Np.len y) 1); [lia|]. f_equal.
  unfold Np.range.
  replace (Z.to_nat (1 + (Np.len y - 1) / 1 - 0)) with (List.length y)
    by (rewrite Z.div_1_r; unfold Np.len; lia).
  change (Z.to_nat 1) with 1%nat.
  pose proof (frame_at y []) as Hf. change (Np.len (@nil R)) with 0 in Hf.
  simpl app in Hf.
  rewrite <- (map_map (fun t => firstn 1 (skipn (Z.to_nat (t * 1)) y))
               (fun fr => sqrt (Librosa.mean_square fr))).
  rewrite Hf, map_map. apply map_ext. intros v.
  unfold Librosa.mean_square, Np.sum, Np.len. simpl.
  replace ((Rabs v * (Rabs v * 1) + 0) / 1)%R with ((Rabs v) ^ 2)%R
    by (simpl; field).
  apply sqrt_pow2, Rabs_pos.
Qed.

End UnitFrameFacts.

Module ClipFacts.

Import SigVad.

Lemma max_of_clip :
  Np.max (repeat 1%R 12 ++ repeat 0%R 16 ++ repeat 1%R 8) = Ok 1%R.
Proof.
  change (repeat 1%R 12) with (1%R :: repeat 1%R 11).
  cbn [app Np.max]. f_equal.
  destruct (DbFacts.fold_max (repeat 1%R 11 ++ repeat 0%R 16 ++ repeat 1%R 8)
              1%R) as (Hge & _ & [Heq|Hin]); [exact Heq|].
  apply in_app_or in Hin. destruct Hin as [Hin|Hin].
  - symmetry. symmetry. apply (repeat_spec _ _ _ Hin).
  - apply in_app_or in Hin. destruct Hin as [Hin|Hin].
    + apply repeat_spec in Hin. lra.
    + apply (repeat_spec _ _ _ Hin).
Qed.

Lemma clip_profile :
  signal_db Librosa.rms (mk 25 1 1 (Librosa.RefCallable Np.max))
    (repeat 1%R 12 ++ repeat 0%R 16 ++ repeat 1%R 8)
  = Ok (repeat 0%R 12 ++ repeat (-100)%R 16 ++ repeat 0%R 8).
Proof.
  unfold signal_db. cbn [frame_length hop_length ref].
  rewrite UnitFrameFacts.rms_unit_frames by discriminate. cbn [bind].
  rewrite !map_app, !map_repeat, Rabs_R1, Rabs_R0.
  replace (1 ^ 2)%R with 1%R by lra. replace (0 ^ 2)%R with 0%R by lra.
  unfold Librosa.power_to_db. rewrite max_of_clip. cbn [bind]. f_equal.
  rewrite !map_app, !map_repeat.
  rewrite (Rmax_right Librosa.amin 1) by (unfold Librosa.amin; lra).
  rewrite (Rmax_left Librosa.amin 0) by (unfold Librosa.amin; lra).
  rewrite SilenceFacts.log10_amin, SilenceFacts.log10_1.
  replace (10 * 0 - 10 * 0)%R with 0%R by lra.
  replace (10 * -10 - 10 * 0)%R with (-100)%R by lra.
  reflexivity.
Qed.

Lemma clip_sil :
  _get_sil_endpoints Librosa.rms (mk 25 1 1 (Librosa.RefCallable Np.max))
    (repeat 1%R 12 ++ repeat 0%R 16 ++ repeat 1%R 8) "sil"
  = Ok [(12, 27)].
Proof.
  rewrite DropFacts.sig_endpoints, clip_profile. cbn [bind].
  unfold sil_mask. simpl String.eqb. cbv iota. cbn [bind top_db].
  rewrite !map_app, !map_repeat.
  replace (Np.lt 0 (Ropp 25)) with false.
  2:{ symmetry. unfold Np.lt. destruct (Rlt_dec _ _); [exfalso; lra|auto]. }
  replace (Np.lt (-100) (Ropp 25)) with true
    by (symmetry; apply MelFacts.lt_true; lra).
  reflexivity.
Qed.

Lemma clip_nosil :
  _get_sil_endpoints Librosa.rms (mk 25 1 1 (Librosa.RefCallable Np.max))
    (repeat 1%R 12 ++ repeat 0%R 16 ++ repeat 1%R 8) "nosil"
  = Ok [(0, 11); (28, 35)].
Proof.
  rewrite DropFacts.sig_endpoints, clip_profile. cbn [bind].
  unfold sil_mask. simpl String.eqb. cbv iota. cbn [bind top_db].
  rewrite !map_app, !map_repeat.
  replace (Np.gt 0 (Ropp 25)) with true
    by (symmetry; apply MelFacts.gt_true; lra).
  replace (Np.gt (-100) (Ropp 25)) with false.
  2:{ symmetry. unfold Np.gt. destruct (Rlt_dec _ _); [exfalso; lra|auto]. }
  reflexivity.
Qed.

Lemma clip_speech (min_nosil_dur : Q) :
  get_speech_endpoint Librosa.rms Librosa.load_no_file
    (mk 25 1 1 (Librosa.RefCallable Np.max)) None
    (Some (repeat 1%R 12 ++ repeat 0%R 16 ++ repeat 1%R 8)) (Some 4)
    0.75 min_nosil_dur
  = Ok (filter (fun se => gt (snd se - fst se)%Q min_nosil_dur)
          [(0%Q, (inject_Z 12 / inject_Z 4)%Q);
           ((inject_Z 27 / inject_Z 4)%Q, (inject_Z 36 / inject_Z 4)%Q)]).
Proof.
  rewrite (EndpointFacts.some_silence Librosa.rms Librosa.load_no_file
             (mk 25 1 1 (Librosa.RefCallable Np.max)) None
             (Some (repeat 1%R 12 ++ repeat 0%R 16 ++ repeat 1%R 8))
             (Some 4) 0.75%Q min_nosil_dur
             (repeat 1%R 12 ++ repeat 0%R 16 ++ repeat 1%R 8) 4
             [(12, 27)]).
  - reflexivity.
  - reflexivity.
  - lia.
  - apply clip_sil.
  - discriminate.
Qed.

End ClipFacts.

(** The worked clip through the whole of [get_speech_endpoint]: 3 s of
    speech, silence from 3 s to 6.75 s, speech to the end at 9 s. *)
Example speech_silence_speech :
  SigVad.get_speech_endpoint Librosa.rms Librosa.load_no_file
    (SigVad.mk 25 1 1 (Librosa.RefCallable Np.max)) None
    (Some (repeat 1%R 12 ++ repeat 0%R 16 ++ repeat 1%R 8)) (Some 4)
    0.75 0.40
  = Ok [(0%Q, (inject_Z 12 / inject_Z 4)%Q);
        ((inject_Z 27 / inject_Z 4)%Q, (inject_Z 36 / inject_Z 4)%Q)].
Proof. rewrite ClipFacts.clip_speech. reflexivity. Qed.

Lemma speech_never_overlaps_silence_witness :
  Measures.touching_at_most
    (0%Q, (inject_Z 12 / inject_Z 4)%Q)
    ((inject_Z 12 / inject_Z 4)%Q, (inject_Z 27 / inject_Z 4)%Q).
Proof.
  apply (speech_never_overlaps_silence Librosa.rms Librosa.load_no_file
           (SigVad.mk 25 1 1 (Librosa.RefCallable Np.max)) None
           (Some (repeat 1%R 12 ++ repeat 0%R 16 ++ repeat 1%R 8)) (Some 4)
           0.75%Q 0.40%Q
           (repeat 1%R 12 ++ repeat 0%R 16 ++ repeat 1%R 8) 4
           [(12, 27)]
           [(0%Q, (inject_Z 12 / inject_Z 4)%Q);
            ((inject_Z 27 / inject_Z 4)%Q, (inject_Z 36 / inject_Z 4)%Q)]).
  - reflexivity.
  - lia.
  - apply ClipFacts.clip_sil.
  - rewrite ClipFacts.clip_speech. reflexivity.
  - left. reflexivity.
  - left. reflexivity.
Defined.

Lemma speech_within_the_clip_witness :
  (0 <= fst ((inject_Z 27 / inject_Z 4)%Q, (inject_Z 36 / inject_Z 4)%Q))%Q
  /\ (snd ((inject_Z 27 / inject_Z 4)%Q, (inject_Z 36 / inject_Z 4)%Q)
      <= inject_Z (Np.len (repeat 1%R 12 ++ repeat 0%R 16 ++ repeat 1%R 8))
         / inject_Z 4)%Q.
Proof.
  apply (speech_within_the_clip Librosa.rms Librosa.load_no_file
           (SigVad.mk 25 1 1 (Librosa.RefCallable Np.max)) None
           (Some (repeat 1%R 12 ++ repeat 0%R 16 ++ repeat 1%R 8)) (Some 4)
           0.75%Q 0.40%Q
           (repeat 1%R 12 ++ repeat 0%R 16 ++ repeat 1%R 8) 4
           [(0%Q, (inject_Z 12 / inject_Z 4)%Q);
            ((inject_Z 27 / inject_Z 4)%Q, (inject_Z 36 / inject_Z 4)%Q)]).
  - reflexivity.
  - lia.
  - intros frames Hrms.
    apply (WithinFacts.rms_frame_bound _ _ _ frames Hrms).
  - rewrite ClipFacts.clip_speech. reflexivity.
  - right. left. reflexivity.
Defined.

(** ** The minimum speech duration *)

(** X11.  Raising [min_nosil_dur] can only remove intervals from the
    result of [SigVad.get_speech_endpoint]: every interval returned for
    the larger minimum is returned for the smaller one (when no silence
    is kept the result does not depend on it at all). *)
Theorem raising_min_nosil_dur_only_removes
  (rms : list R -> Z -> Z -> result (list R))
  (load : string -> Z -> result (list R * Z))
  (self : SigVad.t) (wav_path : option string)
  (signal : option (list R)) (sr : option Z)
  (min_sil_dur low high : Q) (out_low out_high : list (Q * Q)) :
  (low <= high)%Q ->
  SigVad.get_speech_endpoint rms load self wav_path signal sr
    min_sil_dur low = Ok out_low ->
  SigVad.get_speech_endpoint rms load self wav_path signal sr
    min_sil_dur high = Ok out_high ->
  incl out_high out_low.
Proof.
  intros Hle Hlow Hhigh.
  destruct (SigVad.resolve load wav_path signal sr) as [[y r]|err] eqn:Hres.
  2:{ unfold SigVad.get_speech_endpoint in Hlow. rewrite Hres in Hlow.
      discriminate. }
  destruct (Z.eq_dec r 0) as [->|Hr].
  { unfold SigVad.get_speech_endpoint in Hlow. rewrite Hres in Hlow.
    discriminate. }
  rewrite (EndpointFacts.resolved rms load self _ _ _ min_sil_dur low
             _ _ Hres Hr) in Hlow.
  rewrite (EndpointFacts.resolved rms load self _ _ _ min_sil_dur high
             _ _ Hres Hr) in Hhigh.
  destruct (SigVad._get_sil_endpoints rms self y "sil") as [sil|];
    [|discriminate].
  cbn [bind] in Hlow, Hhigh.
  destruct (Np.len (SigVad.sil_seconds sil r min_sil_dur) =? 0).
  - inversion Hlow. inversion Hhigh. apply incl_refl.
  - destruct (SigVad._sil_to_nosil _ _) as [nosil|]; [|discriminate].
    cbn [bind] in Hlow, Hhigh. inversion Hlow. inversion Hhigh.
    intros i Hi. apply filter_In in Hi. destruct Hi as [Hin Hgt].
    apply filter_In. split; [exact Hin|].
    apply SpeechFacts.time_gt_true in Hgt.
    apply SpeechFacts.time_gt_true. lra.
Qed.

Lemma raising_min_nosil_dur_only_removes_witness :
  incl [(0%Q, (inject_Z 12 / inject_Z 4)%Q)]
       [(0%Q, (inject_Z 12 / inject_Z 4)%Q);
        ((inject_Z 27 / inject_Z 4)%Q, (inject_Z 36 / inject_Z 4)%Q)].
Proof.
  apply (raising_min_nosil_dur_only_removes Librosa.rms Librosa.load_no_file
           (SigVad.mk 25 1 1 (Librosa.RefCallable Np.max)) None
           (Some (repeat 1%R 12 ++ repeat 0%R 16 ++ repeat 1%R 8)) (Some 4)
           0.75%Q 0.40%Q 2.5%Q).
  - vm_compute. discriminate.
  - rewrite ClipFacts.clip_speech. reflexivity.
  - rewrite ClipFacts.clip_speech. reflexivity.
Defined.

(** ** Empty and single-frame inputs *)

Module EdgeFacts.

Lemma empty_local (self : MelVad.t) :
  MelVad.mel_db self (Np.mk_matrix 80 []) false = Raise ValueError.
Proof.
  unfold MelVad.mel_db. rewrite orb_true_r. reflexivity.
Qed.

Lemma empty_global (self : MelVad.t) :
  MelVad.truthy (MelVad.global_ref_db self) = true ->
  MelVad.mel_db self (Np.mk_matrix 80 []) true = Ok [].
Proof.
  intros Ht. unfold MelVad.mel_db. rewrite Ht. simpl orb.
  simpl assert. cbn [bind].
  destruct (MelVad.global_ref_db self) as [r|]; [|discriminate].
  reflexivity.
Qed.

Lemma single_frame_raises
  (rms : list R -> Z -> Z -> result (list R))
  (self : SigVad.t) (y : list R) (v : R) (sil_type : string) :
  rms y (SigVad.frame_length self) (SigVad.hop_length self) = Ok [v] ->
  (exists r, SigVad.ref self = Librosa.RefValue r)
  \/ SigVad.ref self = Librosa.RefCallable Np.max ->
  (sil_type = "sil" \/ sil_type = "nosil")%string ->
  SigVad._get_sil_endpoints rms self y sil_type = Raise TypeError.
Proof.
  intros Hrms Href Htype. unfold SigVad._get_sil_endpoints, SigVad.signal_db.
  rewrite Hrms. cbn [bind]. unfold Librosa.power_to_db.
  destruct Href as [[r ->]| ->]; cbn [bind map Np.max fold_left];
    unfold SigVad.sil_mask;
    destruct Htype as [-> | ->]; reflexivity.
Qed.

Lemma short_signal_one_frame (y : list R) :
  y <> [] -> Np.len y < 256 ->
  exists v, Librosa.rms y 1024 256 = Ok [v].
Proof.
  intros Hy Hlen.
  destruct (Librosa.rms y 1024 256) as [frames|err] eqn:Hrms.
  - destruct (WithinFacts.rms_frame_bound y 1024 256 frames Hrms)
      as [Hn _].
    change (1024 / 2) with 512 in Hn.
    replace (Np.len y + 2 * 512 - 1024) with (Np.len y) in Hn by lia.
    rewrite Z.div_small in Hn
      by (pose proof (ScanFacts.len_nonneg _ y); lia).
    destruct frames as [|v [|w frames]]; unfold Np.len in Hn;
      simpl in Hn; try lia.
    exists v. reflexivity.
  - exfalso. unfold Librosa.rms in Hrms.
    assert (1 <= Np.len y).
    { destruct y; [congruence|]. rewrite ScanFacts.len_cons.
      pose proof (ScanFacts.len_nonneg _ y). lia. }
    destruct (Z.eqb_spec (Np.len y) 0); [lia|].
    change (1024 <? 1) with false in Hrms.
    change (256 <? 1) with false in Hrms. cbn [orb] in Hrms.
    change (1024 / 2) with 512 in Hrms.
    rewrite (SilenceFacts.pad_reflect_len 512 y) in Hrms by lia.
    destruct (Z.ltb_spec (Np.len y + 2 * 512) 1024); [lia|discriminate].
Qed.

End EdgeFacts.

(** X13.  On a feature matrix with no frame (80 bands), the local
    reference has no maximum: both [MelVad] methods raise [ValueError].
    With a configured global reference [get_nosil_endpoints] returns the
    empty list and [get_vad_label] raises [IndexError] on [mel_db[0]]. *)
Theorem empty_feature_matrix (self : MelVad.t) :
  MelVad.get_nosil_endpoints self (Np.mk_matrix 80 []) false
  = Raise ValueError
  /\ MelVad.get_vad_label self (Np.mk_matrix 80 []) false = Raise ValueError
  /\ (MelVad.truthy (MelVad.global_ref_db self) = true ->
      MelVad.get_nosil_endpoints self (Np.mk_matrix 80 []) true = Ok []
      /\ MelVad.get_vad_label self (Np.mk_matrix 80 []) true
         = Raise IndexError).
Proof.
  unfold MelVad.get_nosil_endpoints, MelVad.get_vad_label.
  rewrite (EdgeFacts.empty_local self).
  split; [reflexivity|]. split; [reflexivity|].
  intros Ht. rewrite (EdgeFacts.empty_global self Ht).
  split; reflexivity.
Qed.

Lemma empty_feature_matrix_witness :
  MelVad.get_nosil_endpoints (MelVad.mk (Some 1%R) 25)
    (Np.mk_matrix 80 []) true = Ok []
  /\ MelVad.get_vad_label (MelVad.mk (Some 1%R) 25)
       (Np.mk_matrix 80 []) true = Raise IndexError.
Proof.
  destruct (empty_feature_matrix (MelVad.mk (Some 1%R) 25))
    as (_ & _ & Hglobal).
  apply Hglobal. simpl.
  destruct (Req_dec_T 1 0) as [H|]; [exfalso; lra|reflexivity].
Defined.

(** X14.  When the extractor yields exactly one frame, [mse.squeeze()]
    is zero-dimensional and [len] fails: [SigVad._get_sil_endpoints]
    raises [TypeError], and so does [get_speech_endpoint].  With
    librosa's extractor and the default frame and hop lengths this is
    every non-empty signal shorter than 256 samples. *)
Theorem single_frame_signal_raises
  (rms : list R -> Z -> Z -> result (list R))
  (load : string -> Z -> result (list R * Z)) :
  (forall (self : SigVad.t) (y : list R) (v : R) (sil_type : string),
      rms y (SigVad.frame_length self) (SigVad.hop_length self) = Ok [v] ->
      (exists r : R, SigVad.ref self = Librosa.RefValue r)
      \/ SigVad.ref self = Librosa.RefCallable Np.max ->
      (sil_type = "sil" \/ sil_type = "nosil")%string ->
      SigVad._get_sil_endpoints rms self y sil_type = Raise TypeError)
  /\ (forall (y : list R) (sr : Z) (min_sil_dur min_nosil_dur : Q),
        y <> [] -> Np.len y < 256 -> sr <> 0 ->
        SigVad.get_speech_endpoint Librosa.rms load SigVad.init_default
          None (Some y) (Some sr) min_sil_dur min_nosil_dur
        = Raise TypeError).
Proof.
  split.
  - intros self y v sil_type Hrms Href Htype.
    apply (EdgeFacts.single_frame_raises rms self y v sil_type Hrms Href Htype).
  - intros y sr ms mn Hy Hlen Hsr.
    destruct (EdgeFacts.short_signal_one_frame y Hy Hlen) as (v & Hv).
    rewrite (EndpointFacts.resolved Librosa.rms load SigVad.init_default
               None (Some y) (Some sr) ms mn y sr eq_refl Hsr).
    rewrite (EdgeFacts.single_frame_raises Librosa.rms SigVad.init_default
               y v "sil" Hv); auto.
Qed.

Lemma single_frame_signal_raises_witness :
  SigVad._get_sil_endpoints Librosa.rms
    (SigVad.mk 25 1 1 (Librosa.RefCallable Np.max)) [1%R] "sil"
  = Raise TypeError
  /\ SigVad.get_speech_endpoint Librosa.rms Librosa.load_no_file
       SigVad.init_default None (Some (repeat 1%R 100)) (Some 16000)
       0.75 0.40
     = Raise TypeError.
Proof.
  destruct (single_frame_signal_raises Librosa.rms Librosa.load_no_file)
    as (Hone & Hshort).
  split.
  - apply (Hone (SigVad.mk 25 1 1 (Librosa.RefCallable Np.max))
             [1%R] (Rabs 1) "sil"%string).
    + apply (UnitFrameFacts.rms_unit_frames [1%R]). discriminate.
    + right. reflexivity.
    + left. reflexivity.
  - apply (Hshort (repeat 1%R 100) 16000 0.75%Q 0.40%Q).
    + discriminate.
    + vm_compute. reflexivity.
    + lia.
Defined.

(** ** The decibel threshold as a ratio of powers *)

Module RatioFacts.

Local Open Scope R_scope.

Lemma gt_iff (a b c d : R) :
  (b < a <-> d < c) -> Np.gt a b = Np.gt c d.
Proof.
  intros H. unfold Np.gt.
  destruct (Rlt_dec b a) as [Hab|Hab], (Rlt_dec d c) as [Hcd|Hcd];
    try reflexivity; exfalso; tauto.
Qed.

Lemma ln_scaled (r x : R) :
  0 < r -> ln (r * Rpower 10 x) = ln r + x * ln 10.
Proof.
  intros Hr. rewrite ln_mult; [|exact Hr|apply exp_pos].
  unfold Rpower. rewrite ln_exp. reflexivity.
Qed.

(** A level of more than [-t] dB under the reference is a power of
    more than the reference scaled by [10 ^ (-t / 10)]. *)
Lemma db_gt_ratio (p r t : R) :
  0 < p -> 0 < r ->
  (- t < 10 * Librosa.log10 p - 10 * Librosa.log10 r
   <-> r * Rpower 10 (- t / 10) < p).
Proof.
  intros Hp Hr. pose proof DbFacts.ln_10_pos as H10.
  assert (Hs : 0 < r * Rpower 10 (- t / 10)).
  { apply Rmult_lt_0_compat; [exact Hr|apply exp_pos]. }
  assert (Hdb : 10 * Librosa.log10 p - 10 * Librosa.log10 r
                = (ln p - ln r) * (10 / ln 10)).
  { unfold Librosa.log10. field. lra. }
  assert (Hk : 0 < 10 / ln 10).
  { apply Rdiv_lt_0_compat; lra. }
  assert (Ht : - t = (- t / 10 * ln 10) * (10 / ln 10)).
  { field. lra. }
  rewrite Hdb. split.
  - intros Hlt. apply ln_lt_inv; [exact Hs|exact Hp|].
    rewrite ln_scaled by exact Hr.
    rewrite Ht in Hlt. apply Rmult_lt_reg_r in Hlt; [lra|exact Hk].
  - intros Hlt. apply ln_increasing in Hlt; [|exact Hs].
    rewrite ln_scaled in Hlt by exact Hr.
    rewrite Ht. apply Rmult_lt_compat_r; [exact Hk|lra].
Qed.

Lemma amin_pos : 0 < Librosa.amin.
Proof. unfold Librosa.amin. lra. Qed.

Lemma floored_pos (v : R) : 0 < Rmax Librosa.amin v.
Proof.
  pose proof amin_pos. pose proof (Rmax_l Librosa.amin v). lra.
Qed.

Lemma power_unfloored (p : R) : 0.008 <= p -> Rmax Librosa.amin p = p.
Proof.
  intros Hp. apply Rmax_right. unfold Librosa.amin. lra.
Qed.

End RatioFacts.

(** X15.  [MelVad.get_vad_label] is a test on powers: with either
    reference, the label of a well-shaped matrix is [True] exactly when
    the power of the first frame exceeds the reference (its absolute
    value, floored by [amin]) scaled by [10 ^ (-top_db / 10)]. *)
Theorem vad_label_is_a_power_ratio_test
  (self : MelVad.t) (mels : Np.matrix) (using_global_ref : bool)
  (p : R) (ps : list R) (ref : R) :
  Np.well_shaped mels ->
  MelVad.truthy (MelVad.global_ref_db self) || negb using_global_ref
  = true ->
  MelVad._get_mel_power mels = Ok (p :: ps) ->
  (if using_global_ref
   then MelVad.global_ref_db self = Some ref
   else Np.max (p :: ps) = Ok ref) ->
  MelVad.get_vad_label self mels using_global_ref
  = Ok (Np.gt p (Rmax Librosa.amin (Rabs ref)
                 * Rpower 10 (- MelVad.top_db self / 10)))%R.
Proof.
  intros Hw Hassert Hpow Href.
  assert (Hb : Np.bands mels = 80).
  { unfold MelVad._get_mel_power in Hpow.
    destruct (Z.eqb_spec (Np.bands mels) 80) as [Hb|Hb]; [exact Hb|].
    discriminate Hpow. }
  assert (Hp : (0.008 <= p)%R).
  { pose proof (RangeFacts.powers_bounds mels Hb Hw) as Hall.
    pose proof (MelFacts.get_mel_power_ok mels Hb) as Heq.
    rewrite Hpow in Heq. injection Heq as Heq'. rewrite <- Heq' in Hall.
    apply Forall_inv in Hall. lra. }
  unfold MelVad.get_vad_label, MelVad.mel_db.
  rewrite Hassert. cbn [assert bind]. rewrite Hb. cbn [Z.eqb Pos.eqb].
  cbn [assert bind]. rewrite Hpow. cbn [bind].
  assert (Hrefd : (if using_global_ref
                   then match MelVad.global_ref_db self with
                        | Some r => Ok r
                        | None => Raise TypeError
                        end
                   else Np.max (p :: ps)) = Ok ref).
  { destruct using_global_ref; [rewrite Href; reflexivity|exact Href]. }
  rewrite Hrefd. cbn [bind]. unfold Librosa.power_to_db. cbn [bind map].
  f_equal. apply RatioFacts.gt_iff.
  rewrite (RatioFacts.power_unfloored p Hp).
  apply RatioFacts.db_gt_ratio; [lra|apply RatioFacts.floored_pos].
Qed.

Lemma vad_label_is_a_power_ratio_test_witness :
  MelVad.get_vad_label (MelVad.mk (Some 1%R) 25)
    (Np.mk_matrix 80 [repeat 0%R 80]) true
  = Ok (Np.gt (hd 0%R (MelVad.feature_to_power_reference [repeat 0%R 80]))
          (Rmax Librosa.amin (Rabs 1) * Rpower 10 (- 25 / 10)))%R.
Proof.
  apply (vad_label_is_a_power_ratio_test (MelVad.mk (Some 1%R) 25)
           (Np.mk_matrix 80 [repeat 0%R 80]) true
           (hd 0%R (MelVad.feature_to_power_reference [repeat 0%R 80]))
           [] 1%R).
  - constructor; [reflexivity|constructor].
  - cbn [MelVad.global_ref_db MelVad.truthy].
    destruct (Req_dec_T 1 0) as [H|]; [exfalso; lra|reflexivity].
  - rewrite MelFacts.get_mel_power_ok by reflexivity. reflexivity.
  - reflexivity.
Defined.

(** ** Frame-by-frame labels and the endpoints of the whole input *)

Module OnlineFacts.

Import Runs.

(** With the global reference the decibel value of a frame depends on
    that frame only. *)
Lemma frame_local (self : MelVad.t) (mels : Np.matrix) (db : list R) :
  MelVad.mel_db self mels true = Ok db ->
  exists F : list R -> R,
    db = map F (Np.frames mels)
    /\ forall row : list R,
         MelVad.get_vad_label self (Np.mk_matrix (Np.bands mels) [row]) true
         = Ok (Np.gt (F row) (- MelVad.top_db self)%R).
Proof.
  unfold MelVad.get_vad_label, MelVad.mel_db. cbn [Np.bands Np.frames].
  destruct (MelVad.truthy (MelVad.global_ref_db self)); [|discriminate].
  cbn [orb assert bind].
  destruct (Z.eqb_spec (Np.bands mels) 80) as [Hb|]; [|discriminate].
  cbn [assert bind]. rewrite (MelFacts.get_mel_power_ok mels Hb).
  cbn [bind].
  destruct (MelVad.global_ref_db self) as [r|]; [|discriminate].
  cbn [bind]. unfold Librosa.power_to_db. cbn [bind]. intros Hdb.
  injection Hdb as Hdb'.
  unfold MelVad.feature_to_power_reference in Hdb'. rewrite map_map in Hdb'.
  eexists. split; [symmetry; exact Hdb'|].
  intros row.
  rewrite (MelFacts.get_mel_power_ok (Np.mk_matrix (Np.bands mels) [row]) Hb).
  reflexivity.
Qed.

Lemma label_mask (self : MelVad.t) (mels : Np.matrix) (db : list R)
  (k : Z) (b : bool) :
  MelVad.mel_db self mels true = Ok db ->
  Online.label self mels k b
  <-> 0 <= k
      /\ nth_error (MelVad.nosil_mask self db) (Z.to_nat k) = Some b.
Proof.
  intros Hdb. destruct (frame_local self mels db Hdb) as (F & -> & Hlabel).
  unfold Online.label, MelVad.nosil_mask. rewrite map_map, nth_error_map.
  split.
  - intros (row & Hk & Hrow & Hget). split; [exact Hk|].
    rewrite Hrow. cbn [option_map]. rewrite Hlabel in Hget.
    injection Hget as Hget'. now rewrite Hget'.
  - intros (Hk & Hnth).
    destruct (nth_error (Np.frames mels) (Z.to_nat k)) as [row|];
      [|discriminate].
    cbn [option_map] in Hnth. injection Hnth as Hb.
    exists row. split; [exact Hk|]. split; [reflexivity|].
    now rewrite Hlabel, Hb.
Qed.

Lemma getb_nth (mask : list bool) (k : Z) :
  getb mask k = true
  <-> 0 <= k /\ nth_error mask (Z.to_nat k) = Some true.
Proof.
  unfold getb. rewrite andb_true_iff, Z.leb_le.
  split; intros (Hk & H); (split; [exact Hk|]).
  - destruct (nth_error mask (Z.to_nat k)) as [b|] eqn:Hn.
    + apply (nth_error_nth _ _ false) in Hn. congruence.
    + apply nth_error_None in Hn.
      rewrite (nth_overflow _ _ Hn) in H. discriminate.
  - apply (nth_error_nth _ _ false) in H. exact H.
Qed.

Lemma getb_nth_false (mask : list bool) (k : Z) :
  0 <= k < Np.len mask -> getb mask k = false ->
  nth_error mask (Z.to_nat k) = Some false.
Proof.
  intros Hk Hget.
  destruct (nth_error mask (Z.to_nat k)) as [[|]|] eqn:Hn.
  - assert (getb mask k = true) by (apply getb_nth; split; [lia|exact Hn]).
    congruence.
  - reflexivity.
  - apply nth_error_None in Hn. unfold Np.len in Hk. lia.
Qed.

Lemma global_profile (self : MelVad.t) (mels : Np.matrix) (r : R) :
  MelVad.global_ref_db self = Some r -> r <> 0%R -> Np.bands mels = 80 ->
  MelVad.mel_db self mels true
  = Ok (map (fun p => (10 * Librosa.log10 (Rmax Librosa.amin p)
                       - 10 * Librosa.log10 (Rmax Librosa.amin (Rabs r)))%R)
          (MelVad.feature_to_power_reference (Np.frames mels))).
Proof.
  intros Hg Hr Hb. unfold MelVad.mel_db, MelVad.truthy. rewrite Hg.
  destruct (Req_dec_T r 0) as [H|_]; [contradiction|].
  cbn [orb assert bind]. rewrite (MelFacts.get_mel_power_ok mels Hb).
  rewrite Hb. reflexivity.
Qed.

(** Three frames of an all-zero feature matrix against the reference
    power 1: every frame is within 50 dB of it. *)
Lemma fixed_reference_mel :
  MelVad.get_nosil_endpoints (MelVad.mk (Some 1%R) 60)
    (Np.mk_matrix 80 (repeat (repeat 0%R 80) 3)) true
  = Ok [(0, 2)].
Proof.
  rewrite DropFacts.mel_endpoints.
  rewrite (global_profile (MelVad.mk (Some 1%R) 60) _ 1%R eq_refl)
    by (try reflexivity; lra).
  cbn [bind]. f_equal.
  assert (Hpow : Forall (fun p => (0.008 <= p <= 800)%R)
                   (MelVad.feature_to_power_reference
                      (repeat (repeat 0%R 80) 3))).
  { apply (RangeFacts.powers_bounds
             (Np.mk_matrix 80 (repeat (repeat 0%R 80) 3)));
      [reflexivity|].
    repeat constructor. }
  cbn [Np.frames]. unfold MelVad.nosil_mask. cbn [MelVad.top_db].
  rewrite map_map.
  match goal with
  | |- context [maximal_runs ?m] =>
      assert (Hall : Forall (eq true) m)
  end.
  { apply Forall_forall. intros b Hb. apply in_map_iff in Hb.
    destruct Hb as (p & <- & Hp). rewrite Forall_forall in Hpow.
    symmetry. apply MelFacts.gt_true.
    pose proof (RangeFacts.db_span p 1 (Hpow p Hp) ltac:(lra)). lra. }
  unfold maximal_runs.
  rewrite (RangeFacts.all_true_runs _ Hall 0 None).
  - reflexivity.
  - right. discriminate.
Qed.

End OnlineFacts.

(** X16.  With the global reference the endpoints of the whole input are
    the runs of the labels [get_vad_label] gives frame by frame: every
    frame of a pair returned by [get_nosil_endpoints] is labelled [True]
    when passed alone, the frames next to the pair (where they exist)
    are labelled [False], and three consecutive frames labelled [True]
    lie inside one returned pair. *)
Theorem online_labels_give_the_batch_endpoints
  (self : MelVad.t) (mels : Np.matrix) (out : list (Z * Z)) :
  MelVad.get_nosil_endpoints self mels true = Ok out ->
  (forall s e : Z,
      In (s, e) out ->
      (forall k : Z, s <= k <= e -> Online.label self mels k true)
      /\ (0 < s -> Online.label self mels (s - 1) false)
      /\ (e + 1 < Np.len (Np.frames mels) ->
          Online.label self mels (e + 1) false))
  /\ (forall k : Z,
        Online.label self mels k true ->
        Online.label self mels (k + 1) true ->
        Online.label self mels (k + 2) true ->
        exists s e : Z, In (s, e) out /\ s <= k /\ k + 2 <= e).
Proof.
  intros Hout. rewrite DropFacts.mel_endpoints in Hout.
  destruct (MelVad.mel_db self mels true) as [db|err] eqn:Hdb;
    [|discriminate].
  cbn [bind] in Hout. injection Hout as Hout'. subst out.
  pose proof (ProfileFacts.mel_db_len self mels true db Hdb) as Hlen.
  assert (Hmask : Np.len (MelVad.nosil_mask self db)
                  = Np.len (Np.frames mels)).
  { unfold MelVad.nosil_mask. rewrite DropFacts.len_map. exact Hlen. }
  split.
  - intros s e Hin. apply ProfileFacts.filtered_run in Hin.
    destruct Hin as ((H0 & Hse & He & Hall & Hbefore & Hafter) & Hlong).
    split; [|split].
    + intros k Hk. apply (OnlineFacts.label_mask self mels db k true Hdb).
      apply OnlineFacts.getb_nth, Hall, Hk.
    + intros Hs. apply (OnlineFacts.label_mask self mels db _ false Hdb).
      split; [lia|]. apply OnlineFacts.getb_nth_false; [lia|exact Hbefore].
    + intros He'. apply (OnlineFacts.label_mask self mels db _ false Hdb).
      split; [lia|]. apply OnlineFacts.getb_nth_false; [lia|exact Hafter].
  - intros k H0 H1 H2.
    apply (OnlineFacts.label_mask self mels db _ true Hdb) in H0, H1, H2.
    apply OnlineFacts.getb_nth in H0, H1, H2.
    destruct (CoverFacts.run_covers _ k H0) as (s & e & Hin & Hk).
    apply ScanFacts.In_maximal_runs in Hin.
    pose proof (ProfileFacts.run_reaches _ s e k Hin Hk H1 H2) as Hreach.
    exists s, e. split; [|lia].
    apply ProfileFacts.filtered_run. split; [exact Hin|lia].
Qed.

Lemma online_labels_give_the_batch_endpoints_witness :
  (forall s e : Z,
      In (s, e) [(0, 2)] ->
      (forall k : Z,
          s <= k <= e ->
          Online.label (MelVad.mk (Some 1%R) 60)
            (Np.mk_matrix 80 (repeat (repeat 0%R 80) 3)) k true)
      /\ (0 < s ->
          Online.label (MelVad.mk (Some 1%R) 60)
            (Np.mk_matrix 80 (repeat (repeat 0%R 80) 3)) (s - 1) false)
      /\ (e + 1 < Np.len (Np.frames
                            (Np.mk_matrix 80 (repeat (repeat 0%R 80) 3))) ->
          Online.label (MelVad.mk (Some 1%R) 60)
            (Np.mk_matrix 80 (repeat (repeat 0%R 80) 3)) (e + 1) false))
  /\ (forall k : Z,
        Online.label (MelVad.mk (Some 1%R) 60)
          (Np.mk_matrix 80 (repeat (repeat 0%R 80) 3)) k true ->
        Online.label (MelVad.mk (Some 1%R) 60)
          (Np.mk_matrix 80 (repeat (repeat 0%R 80) 3)) (k + 1) true ->
        Online.label (MelVad.mk (Some 1%R) 60)
          (Np.mk_matrix 80 (repeat (repeat 0%R 80) 3)) (k + 2) true ->
        exists s e : Z, In (s, e) [(0, 2)] /\ s <= k /\ k + 2 <= e).
Proof.
  apply (online_labels_give_the_batch_endpoints (MelVad.mk (Some 1%R) 60)
           (Np.mk_matrix 80 (repeat (repeat 0%R 80) 3)) [(0, 2)]).
  apply OnlineFacts.fixed_reference_mel.
Defined.

(** ** The minimum silence duration *)

Module MergeFacts.

Import SigVad Measures.
Local Open Scope Q_scope.

(** A longer minimum keeps fewer silence intervals. *)
Lemma sil_seconds_incl (sil : list (Z * Z)) (sr : Z) (low high : Q) :
  (0 < sr)%Z -> low <= high ->
  incl (sil_seconds sil sr high) (sil_seconds sil sr low).
Proof.
  intros Hr Hle j Hj. unfold sil_seconds in *.
  apply in_map_iff in Hj. destruct Hj as (ab & <- & Hin).
  apply in_map. apply filter_In in Hin. destruct Hin as [Hin Hgt].
  apply filter_In. split; [exact Hin|].
  apply SpeechFacts.time_gt_true in Hgt. apply SpeechFacts.time_gt_true.
  pose proof (SpeechFacts.inject_pos sr Hr) as Hpos.
  assert (inject_Z sr * low <= inject_Z sr * high); [|lra].
  rewrite (Qmult_comm _ low), (Qmult_comm _ high).
  apply Qmult_le_compat_r; lra.
Qed.

(** An interval of more than 0.001 s that starts after the silence [a]
    and meets none of the later ones lies inside one of the speech
    intervals from [a] on. *)
Lemma later_covers (rest : list (Q * Q)) :
  forall (a d i : Q * Q) (dur : Q),
    snd a <= fst i -> snd i <= dur -> 0.001 < snd i - fst i ->
    (forall j, In j rest -> touching_at_most i j) ->
    exists c, In c (later_part (a :: rest) d dur)
              /\ fst c <= fst i /\ snd i <= snd c.
Proof.
  induction rest as [|b rest IH]; intros a d i dur Ha Hdur Hlong Hfree.
  - unfold later_part. cbn [between last app].
    assert (Hgt : gt (dur - snd a) 0.001 = true)
      by (apply SpeechFacts.time_gt_true; lra).
    rewrite Hgt. exists (snd a, dur). split; [left; reflexivity|].
    cbn [fst snd]. lra.
  - change (later_part (a :: b :: rest) d dur)
      with ((snd a, fst b) :: later_part (b :: rest) d dur).
    destruct (Hfree b (or_introl eq_refl)) as [Hb|Hb].
    + exists (snd a, fst b). split; [left; reflexivity|].
      cbn [fst snd]. lra.
    + destruct (IH b d i dur Hb Hdur Hlong) as (c & Hc & Hin).
      { intros j Hj. apply Hfree. right. exact Hj. }
      exists c. split; [right; exact Hc|exact Hin].
Qed.

(** An interval of the clip, longer than 0.001 s, that meets no silence
    interval lies inside one of the speech intervals. *)
Lemma free_interval_covered (sd : list (Q * Q)) (dur : Q) (i : Q * Q) :
  sd <> [] ->
  0 <= fst i -> snd i <= dur -> 0.001 < snd i - fst i ->
  (forall j, In j sd -> touching_at_most i j) ->
  exists c, In c (complement_reference sd dur)
            /\ fst c <= fst i /\ snd i <= snd c.
Proof.
  destruct sd as [|first rest]; [congruence|].
  intros _ H0 Hdur Hlong Hfree. unfold complement_reference.
  change (between (first :: rest)
          ++ (if gt (dur - snd (last (first :: rest) first)) 0.001
              then [(snd (last (first :: rest) first), dur)] else []))
    with (later_part (first :: rest) first dur).
  destruct (Hfree first (or_introl eq_refl)) as [Hf|Hf].
  - assert (Hgt : gt (fst first) 0.001 = true)
      by (apply SpeechFacts.time_gt_true; lra).
    rewrite Hgt. exists (0, fst first). split; [left; reflexivity|].
    cbn [fst snd]. lra.
  - destruct (later_covers rest first first i dur Hf Hdur Hlong)
      as (c & Hc & Hin).
    { intros j Hj. apply Hfree. right. exact Hj. }
    exists c. split; [apply in_or_app; right; exact Hc|exact Hin].
Qed.

(** The worked clip with a minimum silence of 5 s: its 3.75 s of
    silence are ignored. *)
Lemma clip_whole (min_nosil_dur : Q) :
  get_speech_endpoint Librosa.rms Librosa.load_no_file
    (mk 25 1 1 (Librosa.RefCallable Np.max)) None
    (Some (repeat 1%R 12 ++ repeat 0%R 16 ++ repeat 1%R 8)) (Some 4%Z)
    5 min_nosil_dur
  = Ok [(0, inject_Z 36 / inject_Z 4)].
Proof.
  rewrite (EndpointFacts.no_silence Librosa.rms Librosa.load_no_file
             (mk 25 1 1 (Librosa.RefCallable Np.max)) None
             (Some (repeat 1%R 12 ++ repeat 0%R 16 ++ repeat 1%R 8))
             (Some 4%Z) 5 min_nosil_dur
             (repeat 1%R 12 ++ repeat 0%R 16 ++ repeat 1%R 8) 4%Z
             [(12, 27)%Z]).
  - reflexivity.
  - reflexivity.
  - lia.
  - apply ClipFacts.clip_sil.
  - reflexivity.
Qed.

End MergeFacts.

(** X17.  Raising [min_sil_dur] only merges speech: when the extractor's
    last frame starts within the signal and [min_nosil_dur] is at least
    the 0.001 s margin of [_sil_to_nosil], every interval returned by
    [SigVad.get_speech_endpoint] for the smaller minimum lies inside an
    interval returned for the larger one. *)
Theorem raising_min_sil_dur_merges_speech
  (rms : list R -> Z -> Z -> result (list R))
  (load : string -> Z -> result (list R * Z))
  (self : SigVad.t) (wav_path : option string)
  (signal : option (list R)) (sr : option Z)
  (low high min_nosil_dur : Q)
  (y : list R) (r : Z) (out_low out_high : list (Q * Q)) :
  SigVad.resolve load wav_path signal sr = Ok (y, r) -> 0 < r ->
  (forall frames : list R,
      rms y (SigVad.frame_length self) (SigVad.hop_length self) = Ok frames ->
      (Np.len frames - 1) * SigVad.hop_length self <= Np.len y) ->
  (low <= high)%Q -> (0.001 <= min_nosil_dur)%Q ->
  SigVad.get_speech_endpoint rms load self wav_path signal sr
    low min_nosil_dur = Ok out_low ->
  SigVad.get_speech_endpoint rms load self wav_path signal sr
    high min_nosil_dur = Ok out_high ->
  forall i : Q * Q,
    In i out_low ->
    exists j : Q * Q,
      In j out_high /\ (fst j <= fst i)%Q /\ (snd i <= snd j)%Q.
Proof.
  intros Hres Hr Hext Hle Hmn Hlow Hhigh i Hi.
  assert (Hr0 : r <> 0) by lia.
  destruct (SigVad._get_sil_endpoints rms self y "sil") as [sil|err] eqn:Hsil.
  2:{ rewrite (EndpointFacts.resolved rms load self _ _ _ low
                 min_nosil_dur _ _ Hres Hr0), Hsil in Hlow. discriminate. }
  pose proof (EndpointFacts.sil_endpoints_chain rms self y "sil" sil Hsil)
    as Hchain.
  assert (Hwithin : forall ms,
             Forall (fun j => (0 <= fst j)%Q /\ (fst j <= snd j)%Q
                              /\ (snd j <= inject_Z (Np.len y) / inject_Z r)%Q)
               (SigVad.sil_seconds sil r ms)).
  { intros ms. apply WithinFacts.seconds_within; [exact Hr| |exact Hchain].
    apply (WithinFacts.sil_samples_within rms self y "sil" sil Hext Hsil). }
  assert (Hi_in : (0 <= fst i)%Q
                  /\ (snd i <= inject_Z (Np.len y) / inject_Z r)%Q
                  /\ (SigVad.sil_seconds sil r low <> [] ->
                      (min_nosil_dur < snd i - fst i)%Q
                      /\ forall j, In j (SigVad.sil_seconds sil r low) ->
                                   Measures.touching_at_most i j)).
  { destruct (SigVad.sil_seconds sil r low) as [|a sd] eqn:Hsd.
    - rewrite (EndpointFacts.no_silence rms load self _ _ _ low
                 min_nosil_dur _ _ _ Hres Hr0 Hsil Hsd) in Hlow.
      inversion Hlow. subst out_low. destruct Hi as [<-|[]]. cbn [fst snd].
      split; [lra|]. split; [lra|]. congruence.
    - rewrite (EndpointFacts.some_silence rms load self _ _ _ low
                 min_nosil_dur _ _ _ Hres Hr0 Hsil) in Hlow
        by (rewrite Hsd; discriminate).
      inversion Hlow. subst out_low. apply filter_In in Hi.
      destruct Hi as [Hi Hgt]. apply SpeechFacts.time_gt_true in Hgt.
      rewrite Hsd in Hi.
      pose proof (WithinFacts.complement_within (a :: sd)
                    (inject_Z (Np.len y) / inject_Z r)%Q) as Hw.
      rewrite <- Hsd in Hw. specialize (Hw (Hwithin low)).
      rewrite Hsd in Hw. rewrite Forall_forall in Hw.
      destruct (Hw i Hi) as [Hi0 Hi1].
      split; [exact Hi0|]. split; [exact Hi1|]. intros _.
      split; [exact Hgt|]. intros j Hj.
      apply (CoverageFacts.complement_touching (a :: sd)
               (inject_Z (Np.len y) / inject_Z r)%Q); auto.
      rewrite <- Hsd. apply SpeechFacts.sil_seconds_chain; assumption. }
  destruct Hi_in as (Hi0 & Hi1 & Hi2).
  destruct (SigVad.sil_seconds sil r high) as [|b sd'] eqn:Hsd'.
  - rewrite (EndpointFacts.no_silence rms load self _ _ _ high
               min_nosil_dur _ _ _ Hres Hr0 Hsil Hsd') in Hhigh.
    inversion Hhigh. subst out_high.
    exists (0%Q, (inject_Z (Np.len y) / inject_Z r)%Q).
    split; [left; reflexivity|]. cbn [fst snd]. split; assumption.
  - pose proof (MergeFacts.sil_seconds_incl sil r low high Hr Hle) as Hincl.
    rewrite Hsd' in Hincl.
    assert (Hne : SigVad.sil_seconds sil r low <> []).
    { intros Hnil. rewrite Hnil in Hincl.
      apply (Hincl b). left. reflexivity. }
    destruct (Hi2 Hne) as (Hlong & Hfree).
    destruct (MergeFacts.free_interval_covered (b :: sd')
                (inject_Z (Np.len y) / inject_Z r)%Q i)
      as (c & Hc & Hc0 & Hc1); try assumption.
    + discriminate.
    + lra.
    + intros j Hj. apply Hfree, Hincl, Hj.
    + rewrite (EndpointFacts.some_silence rms load self _ _ _ high
                 min_nosil_dur _ _ _ Hres Hr0 Hsil) in Hhigh
        by (rewrite Hsd'; discriminate).
      inversion Hhigh. subst out_high. rewrite Hsd'.
      exists c. split; [|split; assumption].
      apply filter_In. split; [exact Hc|].
      apply SpeechFacts.time_gt_true. lra.
Qed.

Lemma raising_min_sil_dur_merges_speech_witness :
  exists j : Q * Q,
    In j [(0%Q, (inject_Z 36 / inject_Z 4)%Q)]
    /\ (fst j <= fst ((inject_Z 27 / inject_Z 4)%Q,
                      (inject_Z 36 / inject_Z 4)%Q))%Q
    /\ (snd ((inject_Z 27 / inject_Z 4)%Q, (inject_Z 36 / inject_Z 4)%Q)
        <= snd j)%Q.
Proof.
  apply (raising_min_sil_dur_merges_speech Librosa.rms Librosa.load_no_file
           (SigVad.mk 25 1 1 (Librosa.RefCallable Np.max)) None
           (Some (repeat 1%R 12 ++ repeat 0%R 16 ++ repeat 1%R 8)) (Some 4)
           0.75%Q 5%Q 0.40%Q
           (repeat 1%R 12 ++ repeat 0%R 16 ++ repeat 1%R 8) 4
           [(0%Q, (inject_Z 12 / inject_Z 4)%Q);
            ((inject_Z 27 / inject_Z 4)%Q, (inject_Z 36 / inject_Z 4)%Q)]
           [(0%Q, (inject_Z 36 / inject_Z 4)%Q)]).
  - reflexivity.
  - lia.
  - intros frames Hrms.
    apply (WithinFacts.rms_frame_bound _ _ _ frames Hrms).
  - vm_compute. discriminate.
  - vm_compute. discriminate.
  - rewrite ClipFacts.clip_speech. reflexivity.
  - apply MergeFacts.clip_whole.
  - right. left. reflexivity.
Defined.

(** ** Silence as a ratio of energies *)

Module EnergyFacts.

Local Open Scope R_scope.

Lemma db_lt_ratio (p r t : R) :
  0 < p -> 0 < r ->
  (10 * Librosa.log10 p - 10 * Librosa.log10 r < - t
   <-> p < r * Rpower 10 (- t / 10)).
Proof.
  intros Hp Hr. pose proof DbFacts.ln_10_pos as H10.
  assert (Hs : 0 < r * Rpower 10 (- t / 10)).
  { apply Rmult_lt_0_compat; [exact Hr|apply exp_pos]. }
  assert (Hdb : 10 * Librosa.log10 p - 10 * Librosa.log10 r
                = (ln p - ln r) * (10 / ln 10)).
  { unfold Librosa.log10. field. lra. }
  assert (Hk : 0 < 10 / ln 10).
  { apply Rdiv_lt_0_compat; lra. }
  assert (Ht : - t = (- t / 10 * ln 10) * (10 / ln 10)).
  { field. lra. }
  rewrite Hdb. split.
  - intros Hlt. apply ln_lt_inv; [exact Hp|exact Hs|].
    rewrite RatioFacts.ln_scaled by exact Hr.
    rewrite Ht in Hlt. apply Rmult_lt_reg_r in Hlt; [lra|exact Hk].
  - intros Hlt. apply ln_increasing in Hlt; [|exact Hp].
    rewrite RatioFacts.ln_scaled in Hlt by exact Hr.
    rewrite Ht. apply Rmult_lt_compat_r; [exact Hk|lra].
Qed.

(** The profile of [signal_db] once the reference value is known. *)
Lemma profile
  (rms : list R -> Z -> Z -> result (list R))
  (self : SigVad.t) (y energy : list R) (m : R) :
  rms y (SigVad.frame_length self) (SigVad.hop_length self) = Ok energy ->
  match SigVad.ref self with
  | Librosa.RefCallable f => f (map (fun e => e ^ 2) energy) = Ok m
  | Librosa.RefValue r => m = Rabs r
  end ->
  SigVad.signal_db rms self y
  = Ok (map (fun e => 10 * Librosa.log10 (Rmax Librosa.amin (e ^ 2))
                      - 10 * Librosa.log10 (Rmax Librosa.amin m))
          energy).
Proof.
  intros Hrms Href. unfold SigVad.signal_db. rewrite Hrms. cbn [bind].
  unfold Librosa.power_to_db.
  destruct (SigVad.ref self) as [f|r].
  - rewrite Href. cbn [bind]. now rewrite map_map.
  - subst m. cbn [bind]. now rewrite map_map.
Qed.

End EnergyFacts.

(** X18.  [SigVad] classifies by a ratio of energies: with [m] the
    reference power ([ref] applied to the squared frame energies, or the
    absolute value of a numeric [ref]), frame [k] is below [-top_db]
    exactly when its squared energy (floored by [amin]) is less than
    [m] (floored by [amin]) scaled by [10 ^ (-top_db / 10)], and above
    [-top_db] exactly when it is greater. *)
Theorem silence_is_an_energy_ratio_test
  (rms : list R -> Z -> Z -> result (list R))
  (self : SigVad.t) (y energy : list R) (m : R) :
  rms y (SigVad.frame_length self) (SigVad.hop_length self) = Ok energy ->
  match SigVad.ref self with
  | Librosa.RefCallable f => f (map (fun e => e ^ 2)%R energy) = Ok m
  | Librosa.RefValue r => m = Rabs r
  end ->
  exists db : list R,
    SigVad.signal_db rms self y = Ok db
    /\ forall k : Z,
         (Frames.below (SigVad.top_db self) db k
          <-> exists e : R,
                0 <= k /\ nth_error energy (Z.to_nat k) = Some e
                /\ (Rmax Librosa.amin (e ^ 2)
                    < Rmax Librosa.amin m
                      * Rpower 10 (- SigVad.top_db self / 10))%R)
         /\ (Frames.above (SigVad.top_db self) db k
             <-> exists e : R,
                   0 <= k /\ nth_error energy (Z.to_nat k) = Some e
                   /\ (Rmax Librosa.amin m
                       * Rpower 10 (- SigVad.top_db self / 10)
                       < Rmax Librosa.amin (e ^ 2))%R).
Proof.
  intros Hrms Href. eexists. split.
  - apply (EnergyFacts.profile rms self y energy m Hrms Href).
  - intros k. unfold Frames.below, Frames.above. split.
    + split.
      * intros (d & Hk & Hd & Hlt). rewrite nth_error_map in Hd.
        destruct (nth_error energy (Z.to_nat k)) as [e|]; [|discriminate].
        cbn [option_map] in Hd. injection Hd as Hd'. subst d.
        exists e. split; [exact Hk|]. split; [reflexivity|].
        apply EnergyFacts.db_lt_ratio in Hlt;
          [exact Hlt|apply RatioFacts.floored_pos..].
      * intros (e & Hk & He & Hlt). eexists. split; [exact Hk|].
        rewrite nth_error_map, He. cbn [option_map].
        split; [reflexivity|].
        apply EnergyFacts.db_lt_ratio;
          [apply RatioFacts.floored_pos..|exact Hlt].
    + split.
      * intros (d & Hk & Hd & Hlt). rewrite nth_error_map in Hd.
        destruct (nth_error energy (Z.to_nat k)) as [e|]; [|discriminate].
        cbn [option_map] in Hd. injection Hd as Hd'. subst d.
        exists e. split; [exact Hk|]. split; [reflexivity|].
        apply RatioFacts.db_gt_ratio in Hlt;
          [exact Hlt|apply RatioFacts.floored_pos..].
      * intros (e & Hk & He & Hlt). eexists. split; [exact Hk|].
        rewrite nth_error_map, He. cbn [option_map].
        split; [reflexivity|].
        apply RatioFacts.db_gt_ratio;
          [apply RatioFacts.floored_pos..|exact Hlt].
Qed.

Lemma silence_is_an_energy_ratio_test_witness :
  exists db : list R,
    SigVad.signal_db Librosa.rms (SigVad.mk 25 1 1 (Librosa.RefValue 1))
      [1%R; 0%R; 1%R] = Ok db
    /\ forall k : Z,
         (Frames.below 25 db k
          <-> exists e : R,
                0 <= k
                /\ nth_error (map Rabs [1%R; 0%R; 1%R]) (Z.to_nat k) = Some e
                /\ (Rmax Librosa.amin (e ^ 2)
                    < Rmax Librosa.amin (Rabs 1)
                      * Rpower 10 (- 25 / 10))%R)
         /\ (Frames.above 25 db k
             <-> exists e : R,
                   0 <= k
                   /\ nth_error (map Rabs [1%R; 0%R; 1%R]) (Z.to_nat k)
                      = Some e
                   /\ (Rmax Librosa.amin (Rabs 1) * Rpower 10 (- 25 / 10)
                       < Rmax Librosa.amin (e ^ 2))%R).
Proof.
  apply (silence_is_an_energy_ratio_test Librosa.rms
           (SigVad.mk 25 1 1 (Librosa.RefValue 1)) [1%R; 0%R; 1%R]
           (map Rabs [1%R; 0%R; 1%R]) (Rabs 1)).
  - apply (UnitFrameFacts.rms_unit_frames [1%R; 0%R; 1%R]). discriminate.
  - reflexivity.
Defined.

(** ** Clips of two bursts

    Inputs on which every method returns more than one interval. *)

Module BurstFacts.

Import SigVad.

Lemma max_three (a b c : nat) :
  Np.max (repeat 1%R (S a) ++ repeat 0%R b ++ repeat 1%R c) = Ok 1%R.
Proof.
  cbn [repeat app Np.max]. f_equal.
  destruct (DbFacts.fold_max (repeat 1%R a ++ repeat 0%R b ++ repeat 1%R c)
              1%R) as (Hge & _ & [Heq|Hin]); [exact Heq|].
  apply in_app_or in Hin. destruct Hin as [Hin|Hin].
  - apply (repeat_spec _ _ _ Hin).
  - apply in_app_or in Hin. destruct Hin as [Hin|Hin].
    + apply repeat_spec in Hin. lra.
    + apply (repeat_spec _ _ _ Hin).
Qed.

(** Frames of one sample: speech, digital silence, speech. *)
Lemma profile_three (a b c : nat) :
  signal_db Librosa.rms (mk 25 1 1 (Librosa.RefCallable Np.max))
    (repeat 1%R (S a) ++ repeat 0%R b ++ repeat 1%R c)
  = Ok (repeat 0%R (S a) ++ repeat (-100)%R b ++ repeat 0%R c).
Proof.
  unfold signal_db. cbn [frame_length hop_length ref].
  rewrite UnitFrameFacts.rms_unit_frames by discriminate. cbn [bind].
  rewrite !map_app, !map_repeat, Rabs_R1, Rabs_R0.
  replace (1 ^ 2)%R with 1%R by lra. replace (0 ^ 2)%R with 0%R by lra.
  unfold Librosa.power_to_db. rewrite max_three. cbn [bind]. f_equal.
  rewrite !map_app, !map_repeat.
  rewrite (Rmax_right Librosa.amin 1) by (unfold Librosa.amin; lra).
  rewrite (Rmax_left Librosa.amin 0) by (unfold Librosa.amin; lra).
  rewrite SilenceFacts.log10_amin, SilenceFacts.log10_1.
  replace (10 * 0 - 10 * 0)%R with 0%R by lra.
  replace (10 * -10 - 10 * 0)%R with (-100)%R by lra.
  reflexivity.
Qed.

(** One second at 90 Hz: 10 samples of speech, 64 of silence, 16 of
    speech. *)
Lemma second_len :
  Np.len (repeat 1%R 10 ++ repeat 0%R 64 ++ repeat 1%R 16) = 90.
Proof. unfold Np.len. rewrite !length_app, !repeat_length. reflexivity. Qed.

Lemma second_sil :
  _get_sil_endpoints Librosa.rms (mk 25 1 1 (Librosa.RefCallable Np.max))
    (repeat 1%R 10 ++ repeat 0%R 64 ++ repeat 1%R 16) "sil"
  = Ok [(10, 73)].
Proof.
  rewrite DropFacts.sig_endpoints, (profile_three 9 64 16). cbn [bind].
  unfold sil_mask. simpl String.eqb. cbv iota. cbn [bind top_db].
  rewrite !map_app, !map_repeat.
  replace (Np.lt 0 (Ropp 25)) with false.
  2:{ symmetry. unfold Np.lt. destruct (Rlt_dec _ _); [exfalso; lra|auto]. }
  replace (Np.lt (-100) (Ropp 25)) with true
    by (symmetry; apply MelFacts.lt_true; lra).
  reflexivity.
Qed.

Lemma second_speech :
  get_speech_endpoint Librosa.rms Librosa.load_no_file
    (mk 25 1 1 (Librosa.RefCallable Np.max)) None
    (Some (repeat 1%R 10 ++ repeat 0%R 64 ++ repeat 1%R 16)) (Some 90)
    0.5 0.1
  = Ok [(0%Q, (inject_Z 10 / inject_Z 90)%Q);
        ((inject_Z 73 / inject_Z 90)%Q, (inject_Z 90 / inject_Z 90)%Q)].
Proof.
  rewrite (EndpointFacts.some_silence Librosa.rms Librosa.load_no_file
             (mk 25 1 1 (Librosa.RefCallable Np.max)) None
             (Some (repeat 1%R 10 ++ repeat 0%R 64 ++ repeat 1%R 16))
             (Some 90) 0.5%Q 0.1%Q
             (repeat 1%R 10 ++ repeat 0%R 64 ++ repeat 1%R 16) 90
             [(10, 73)]).
  - rewrite second_len. reflexivity.
  - reflexivity.
  - lia.
  - apply second_sil.
  - discriminate.
Qed.

(** The same second in float arithmetic, with the floats nearest to 0.7
    and 0.1 as the two minimum durations. *)
Lemma second_speech_float :
  SigVad64.get_speech_endpoint Librosa.rms Librosa.load_no_file
    (mk 25 1 1 (Librosa.RefCallable Np.max)) None
    (Some (repeat 1%R 10 ++ repeat 0%R 64 ++ repeat 1%R 16)) (Some 90)
    (Float64.round 0.7) (Float64.round 0.1)
  = Ok [(0%Q, Float64.div (inject_Z 10) (inject_Z 90));
        (Float64.div (inject_Z 73) (inject_Z 90), 1%Q)].
Proof.
  rewrite (MinimumFacts.resolved_runs Librosa.rms Librosa.load_no_file
             (mk 25 1 1 (Librosa.RefCallable Np.max)) None
             (Some (repeat 1%R 10 ++ repeat 0%R 64 ++ repeat 1%R 16))
             (Some 90) (Float64.round 0.7) (Float64.round 0.1)
             (repeat 1%R 10 ++ repeat 0%R 64 ++ repeat 1%R 16) 90
             [(10, 73)]).
  - rewrite second_len. vm_compute. reflexivity.
  - reflexivity.
  - lia.
  - apply second_sil.
Qed.

Local Open Scope R_scope.

Lemma sum_repeat (v : R) (n : nat) : Np.sum (repeat v n) = INR n * v.
Proof.
  induction n as [|n IH]; [simpl; lra|].
  change (Np.sum (repeat v (S n))) with (v + Np.sum (repeat v n)).
  rewrite IH, S_INR. lra.
Qed.

(** Frames whose 80 bands are all 1 have power 800, frames whose bands
    are all 0 have power 0.008. *)
Lemma powers_three (a b c : nat) :
  MelVad.feature_to_power_reference
    (repeat (repeat 1 80) a ++ repeat (repeat 0 80) b
     ++ repeat (repeat 1 80) c)
  = repeat 800 a ++ repeat 0.008 b ++ repeat 800 c.
Proof.
  unfold MelVad.feature_to_power_reference.
  rewrite !map_app, !map_repeat. cbv beta zeta.
  rewrite ?map_repeat, !sum_repeat.
  rewrite (MelFacts.clip_inside 1), (MelFacts.clip_inside 0) by lra.
  rewrite INR_IZR_INZ. change (Z.of_nat 80) with 80%Z.
  replace ((1 * - (-100) + -100 + 20) * 0.05) with 1 by lra.
  replace ((0 * - (-100) + -100 + 20) * 0.05) with (-4) by lra.
  rewrite RangeFacts.pow10_high, RangeFacts.pow10_low.
  replace (80 * 10) with 800 by lra.
  replace (80 * 0.0001) with 0.008 by lra.
  reflexivity.
Qed.

Lemma max_powers (a b c : nat) :
  Np.max (repeat 800 (S a) ++ repeat 0.008 b ++ repeat 800 c) = Ok 800.
Proof.
  cbn [repeat app Np.max]. f_equal.
  destruct (DbFacts.fold_max
              (repeat 800 a ++ repeat 0.008 b ++ repeat 800 c) 800)
    as (Hge & _ & [Heq|Hin]); [exact Heq|].
  apply in_app_or in Hin. destruct Hin as [Hin|Hin].
  - apply (repeat_spec _ _ _ Hin).
  - apply in_app_or in Hin. destruct Hin as [Hin|Hin].
    + apply repeat_spec in Hin. lra.
    + apply (repeat_spec _ _ _ Hin).
Qed.

(** Three loud frames, three quiet ones, three loud ones: the quiet
    frames are 50 dB below the loud ones. *)
Lemma bursts_mel :
  MelVad.get_nosil_endpoints MelVad.init_default
    (Np.mk_matrix 80
       (repeat (repeat 1 80) 3 ++ repeat (repeat 0 80) 3
        ++ repeat (repeat 1 80) 3)) false
  = Ok [(0, 2); (6, 8)]%Z.
Proof.
  rewrite DropFacts.mel_endpoints. unfold MelVad.mel_db.
  rewrite orb_true_r. simpl assert. cbn [bind].
  rewrite MelFacts.get_mel_power_ok by reflexivity. cbn [bind Np.frames].
  rewrite (powers_three 3 3 3), (max_powers 2 3 3). cbn [bind].
  unfold Librosa.power_to_db. cbn [bind].
  rewrite !map_app, !map_repeat.
  rewrite (Rabs_pos_eq 800) by lra.
  rewrite (Rmax_right Librosa.amin 800) by (unfold Librosa.amin; lra).
  rewrite (Rmax_right Librosa.amin 0.008) by (unfold Librosa.amin; lra).
  replace (10 * Librosa.log10 800 - 10 * Librosa.log10 800) with 0 by lra.
  replace (10 * Librosa.log10 0.008 - 10 * Librosa.log10 800) with (-50)
    by (pose proof RangeFacts.log10_span; lra).
  unfold MelVad.nosil_mask. cbn [MelVad.top_db MelVad.init_default].
  rewrite !map_app, !map_repeat.
  replace (Np.gt 0 (Ropp 25)) with true
    by (symmetry; apply MelFacts.gt_true; lra).
  replace (Np.gt (-50) (Ropp 25)) with false.
  2:{ symmetry. unfold Np.gt. destruct (Rlt_dec _ _); [exfalso; lra|auto]. }
  reflexivity.
Qed.

End BurstFacts.

(** At 90 Hz a run of 63 samples lasts 0.7 s.  The float nearest to 0.7
    is below it and [90 * 0.7] rounds to less than 63, so the run is
    kept; the end points stored for it are [0.0] and the float 0.7,
    exactly [min_sil_dur] apart.  Over exact rationals the run is
    dropped.  The same happens at 22050 Hz with a run of 35 hops of 441
    samples. *)
Example silence_stored_at_the_minimum :
  SigVad64.sil_seconds [(0, 63)] 90 (Float64.round 0.7)
  = [(0%Q, Float64.round 0.7)]
  /\ (Float64.mul (inject_Z 90) (Float64.round 0.7) < inject_Z 63)%Q
  /\ (Float64.round 0.7 < 0.7)%Q
  /\ SigVad.sil_seconds [(0, 63)] 90 0.7 = []
  /\ SigVad64.sil_seconds [(0, 35 * 441)] 22050 (Float64.round 0.7)
     = [(0%Q, Float64.round 0.7)].
Proof. vm_compute. repeat split; reflexivity. Qed.

(** A speech interval of 6400 samples at 16 kHz lasts 0.4 s; between the
    floats nearest to 0.944 and 1.344 the rounded difference is above the
    float nearest to 0.40, and the interval passes the test of line 184.
    Over exact rationals it does not. *)
Example speech_stored_above_the_minimum :
  filter (fun se => SigVad.gt (Float64.sub (snd se) (fst se))
                      (Float64.round 0.40))
    [(Float64.div (inject_Z 15104) (inject_Z 16000),
      Float64.div (inject_Z 21504) (inject_Z 16000))]
  = [(Float64.round 0.944, Float64.round 1.344)]
  /\ filter (fun se => SigVad.gt (snd se - fst se)%Q 0.40)
       [((inject_Z 15104 / inject_Z 16000)%Q,
         (inject_Z 21504 / inject_Z 16000)%Q)]
     = [].
Proof. vm_compute. split; reflexivity. Qed.

(** The fallback in float arithmetic: 0.1 s of digital silence is
    returned whole, shorter than [min_nosil_dur = 0.40]. *)
Example short_clip_in_floats :
  SigVad64.get_speech_endpoint Librosa.rms Librosa.load_no_file
    SigVad.init_default None (Some (repeat 0%R (Z.to_nat 1600)))
    (Some 16000) (Float64.round 0.75) (Float64.round 0.40)
  = Ok [(0%Q, Float64.round 0.1)]
  /\ (Float64.sub (Float64.round 0.1) 0 < Float64.round 0.40)%Q.
Proof.
  split; [|vm_compute; reflexivity].
  rewrite (MinimumFacts.resolved_runs Librosa.rms Librosa.load_no_file
             SigVad.init_default None (Some (repeat 0%R (Z.to_nat 1600)))
             (Some 16000) (Float64.round 0.75) (Float64.round 0.40)
             (repeat 0%R (Z.to_nat 1600)) 16000 []).
  - rewrite DefaultFacts.repeat_len by lia. vm_compute. reflexivity.
  - reflexivity.
  - lia.
  - apply DefaultFacts.silent_signal; [apply DefaultFacts.repeat_all_zero|].
    rewrite DefaultFacts.repeat_len by lia. lia.
Qed.

Lemma minimum_durations_with_silence_witness :
  (Float64.round 0.7 < inject_Z (73 - 10) / inject_Z 90)%Q
  /\ (Float64.round 0.1
      < snd (0%Q, Float64.div (inject_Z 10) (inject_Z 90))
        - fst (0%Q, Float64.div (inject_Z 10) (inject_Z 90)))%Q
  /\ (Float64.round 0.1
      < snd (Float64.div (inject_Z 73) (inject_Z 90), 1%Q)
        - fst (Float64.div (inject_Z 73) (inject_Z 90), 1%Q))%Q.
Proof.
  destruct (minimum_durations_with_silence Librosa.rms Librosa.load_no_file
              (SigVad.mk 25 1 1 (Librosa.RefCallable Np.max)) None
              (Some (repeat 1%R 10 ++ repeat 0%R 64 ++ repeat 1%R 16))
              (Some 90) (Float64.round 0.7) (Float64.round 0.1)
              (repeat 1%R 10 ++ repeat 0%R 64 ++ repeat 1%R 16) 90
              [(10, 73)])
    as (Hsilence & Hspeech & _).
  - reflexivity.
  - lia.
  - apply BurstFacts.second_sil.
  - intros se [<-|[]]. reflexivity.
  - unfold Float64.representable. vm_compute. reflexivity.
  - destruct Hspeech as (out & Hout & Hall).
    { vm_compute. discriminate. }
    rewrite BurstFacts.second_speech_float in Hout.
    injection Hout as Hout'. subst out.
    split; [|split].
    + apply (Hsilence (10, 73)). vm_compute. left. reflexivity.
    + apply Hall. left. reflexivity.
    + apply Hall. right. left. reflexivity.
Defined.

Lemma interval_lists_ordered_witness :
  Intervals.ordered Z.lt Z.le [(0, 2); (6, 8)]
  /\ Intervals.ordered Z.lt Z.le [(0, 11); (28, 35)]
  /\ Intervals.ordered Qlt Qle
       [(0%Q, (inject_Z 12 / inject_Z 4)%Q);
        ((inject_Z 27 / inject_Z 4)%Q, (inject_Z 36 / inject_Z 4)%Q)]
  /\ Intervals.ordered Qlt Qle
       [(0%Q, (inject_Z 10 / inject_Z 90)%Q);
        ((inject_Z 73 / inject_Z 90)%Q, (inject_Z 90 / inject_Z 90)%Q)].
Proof.
  destruct (interval_lists_ordered Librosa.rms Librosa.load_no_file)
    as (Hmel & Hsil & Hspeech & Hlibrosa).
  split; [|split; [|split]].
  - apply (Hmel MelVad.init_default
             (Np.mk_matrix 80
                (repeat (repeat 1%R 80) 3 ++ repeat (repeat 0%R 80) 3
                 ++ repeat (repeat 1%R 80) 3)) false).
    apply BurstFacts.bursts_mel.
  - apply (Hsil (SigVad.mk 25 1 1 (Librosa.RefCallable Np.max))
             (repeat 1%R 12 ++ repeat 0%R 16 ++ repeat 1%R 8)
             "nosil"%string).
    apply ClipFacts.clip_nosil.
  - apply (Hspeech (SigVad.mk 25 1 1 (Librosa.RefCallable Np.max)) None
             (Some (repeat 1%R 12 ++ repeat 0%R 16 ++ repeat 1%R 8))
             (Some 4) 0.75%Q 0.40%Q
             (repeat 1%R 12 ++ repeat 0%R 16 ++ repeat 1%R 8) 4).
    + reflexivity.
    + lia.
    + discriminate.
    + rewrite ClipFacts.clip_speech. reflexivity.
  - apply (Hlibrosa (SigVad.mk 25 1 1 (Librosa.RefCallable Np.max)) None
             (Some (repeat 1%R 10 ++ repeat 0%R 64 ++ repeat 1%R 16))
             (Some 90) 0.5%Q 0.1%Q
             (repeat 1%R 10 ++ repeat 0%R 64 ++ repeat 1%R 16) 90).
    + reflexivity.
    + lia.
    + apply BurstFacts.second_speech.
Defined.
